(** * csv2json: the CSV to records conversion core

    A shallow embedding of [Csv2Json] (the [convert] entry point, the
    separator detector, [zip], [uniquify] and the PEG.js generated parser)
    together with the properties its specification states about it.

    Conventions of the embedding.
    - A JavaScript string is the list of its UTF-16 code units; a code unit
      is an [N].  [lit] turns a Rocq string literal into such a list.
    - A JavaScript object used as a dictionary ([counts], a record [row],
      the hash-mode result) is a [gmap] of its own properties.  Objects
      created by [{}] inherit from [Object.prototype]; where the source
      reads or writes a property by a computed name the inherited
      properties are visible too, and the embedding says what they do.
    - [null] as a parser result is [None]; exceptions are the left side of
      a sum. *)

From Stdlib Require Import String Ascii NArith ZArith Decimal DecimalNat.
From stdpp Require Import gmap list fin_maps.

Local Open Scope N_scope.
Local Open Scope nat_scope.

(** ** Strings *)

Abbreviation char := N (only parsing).
Abbreviation jsstring := (list N) (only parsing).

Definition lit (s : string) : jsstring :=
  (λ a, N_of_ascii a) <$> list_ascii_of_string s.

Definition QUOTE : char := 34%N.      (* double quote *)
Definition LF : char := 10%N.         (* line feed *)
Definition CR : char := 13%N.         (* carriage return *)
Definition COMMA : char := 44%N.
Definition SEMICOLON : char := 59%N.
Definition TAB : char := 9%N.
Definition UNDERSCORE : char := 95%N.

(** Number-to-string conversion of a non-negative integer, as string
    concatenation [key + '__' + n] performs it: the decimal digits, most
    significant first. *)
Fixpoint uint_chars (d : Decimal.uint) : jsstring :=
  match d with
  | Decimal.Nil => []
  | Decimal.D0 d => 48%N :: uint_chars d
  | Decimal.D1 d => 49%N :: uint_chars d
  | Decimal.D2 d => 50%N :: uint_chars d
  | Decimal.D3 d => 51%N :: uint_chars d
  | Decimal.D4 d => 52%N :: uint_chars d
  | Decimal.D5 d => 53%N :: uint_chars d
  | Decimal.D6 d => 54%N :: uint_chars d
  | Decimal.D7 d => 55%N :: uint_chars d
  | Decimal.D8 d => 56%N :: uint_chars d
  | Decimal.D9 d => 57%N :: uint_chars d
  end.

Definition number_to_string (n : nat) : jsstring := uint_chars (Nat.to_uint n).

Definition is_digit (c : char) : bool := (48 <=? c)%N && (c <=? 57)%N.

(** ** Property names every plain object inherits

    [counts = {}] and [row = {}] inherit from [Object.prototype].  A read
    [counts[key]] of a name found there yields a function (or, for
    [__proto__], the prototype object), not [undefined]; a write creates
    an own property, except through the [__proto__] accessor. *)
Definition PROTO : jsstring := lit "__proto__".

Definition object_prototype_names : list jsstring :=
  [ lit "constructor"; lit "hasOwnProperty"; lit "isPrototypeOf";
    lit "propertyIsEnumerable"; lit "toLocaleString"; lit "toString";
    lit "valueOf"; lit "__defineGetter__"; lit "__defineSetter__";
    lit "__lookupGetter__"; lit "__lookupSetter__"; PROTO ].

Definition inherited (key : jsstring) : bool :=
  bool_decide (key ∈ object_prototype_names).

(** ** uniquify *)

(** What [counts[key]] can hold as an own property: a number, or [NaN]
    once [++] was applied to an inherited function. *)
Inductive count :=
  | Num (n : nat)
  | NaN.

(** One iteration of the first loop:
    [if (counts[key] === undefined) counts[key] = 0; else counts[key]++;] *)
Definition count_key (counts : gmap jsstring count) (key : jsstring)
  : gmap jsstring count :=
  match counts !! key with
  | Some (Num n) => <[key := Num (S n)]> counts
  | Some NaN => <[key := NaN]> counts
  | None =>
      if inherited key then
        (* not undefined: [++] turns the inherited value into NaN; the
           [__proto__] setter ignores a number, any other name becomes
           an own property *)
        if bool_decide (key = PROTO) then counts else <[key := NaN]> counts
      else <[key := Num 0]> counts
  end.

Definition SUFFIX : jsstring := lit "__".

(** The second loop, [for (i = keys.length-1; i >= 0; i--)], over the keys
    taken from the right; [result.unshift(key)] conses in front. *)
Fixpoint rename_loop (rkeys : list jsstring) (counts : gmap jsstring count)
    (result : list jsstring) : list jsstring :=
  match rkeys with
  | [] => result
  | key :: rest =>
      match counts !! key with
      | Some (Num (S n)) =>
          (* counts[key] > 0: key + '__' + counts[key]-- *)
          rename_loop rest (<[key := Num n]> counts)
            ((key ++ SUFFIX ++ number_to_string (S n)) :: result)
      | _ => rename_loop rest counts (key :: result)
      end
  end.

Definition uniquify (keys : list jsstring) : list jsstring :=
  rename_loop (rev keys) (foldl count_key ∅ keys) [].

(** ** Cleaning a header or a cell: [trim()] and the quote-stripping replace *)

(** WhiteSpace and LineTerminator code units, the ones [String.prototype.trim]
    removes. *)
Definition is_space (c : char) : bool :=
  bool_decide (c ∈ [9; 10; 11; 12; 13; 32; 160; 5760; 8232; 8233; 8239; 8287;
                    12288; 65279]%N)
  || ((8192 <=? c)%N && (c <=? 8202)%N).

Fixpoint trim_start (s : jsstring) : jsstring :=
  match s with
  | c :: rest => if is_space c then trim_start rest else s
  | [] => []
  end.

Definition trim (s : jsstring) : jsstring := rev (trim_start (rev (trim_start s))).

(** [s.replace(/(^QUOTE)|(QUOTE$)/g, '')] where QUOTE is the double-quote
    character.  The global scan visits the indices from left to right;
    at index [i] the first alternative matches a quote when [i] is 0, the
    second a quote when [i] is the last index; every match is replaced by
    the empty string and every other code unit is copied. *)
Fixpoint replace_scan (i len : nat) (s : jsstring) : jsstring :=
  match s with
  | [] => []
  | c :: rest =>
      if bool_decide (c = QUOTE) && (bool_decide (i = 0) || bool_decide (S i = len))
      then replace_scan (S i) len rest
      else c :: replace_scan (S i) len rest
  end.

Definition strip_quotes (s : jsstring) : jsstring := replace_scan 0 (length s) s.

(** [x.trim().replace(...)], applied to every header and every cell. *)
Definition clean (s : jsstring) : jsstring := strip_quotes (trim s).

(** ** detectSeparator *)

Definition separators : list char := [COMMA; SEMICOLON; TAB].

(** [(csv.match(new RegExp(sep, 'g')) || []).length] for a one-character
    literal pattern. *)
Definition match_count (sep : char) (csv : jsstring) : nat :=
  length (filter (λ c, c = sep) csv).

(** [sepMax = !sepMax || counts[sep] > counts[sepMax] ? sep : sepMax]:
    the conditional operator binds weaker than [||]. *)
Definition detect_step (csv : jsstring) (sepMax : option char) (sep : char)
  : option char :=
  match sepMax with
  | None => Some sep
  | Some m =>
      if bool_decide (match_count m csv < match_count sep csv) then Some sep
      else Some m
  end.

Definition detectSeparator (csv : jsstring) : option char :=
  foldl (detect_step csv) None separators.

(** ** zip, the transposer *)

(** A cell of the table after [zip]: [array[i]] is [undefined] ([None])
    beyond the end of a short row. *)
Definition longest (args : list (list jsstring)) : list jsstring :=
  foldl (λ a b, if bool_decide (length b < length a) then a else b) [] args.

Definition zip (args : list (list jsstring)) : list (list (option jsstring)) :=
  imap (λ i _, (λ array : list jsstring, array !! i) <$> args) (longest args).

(** ** The generated parser *)

(** The five failure descriptions passed to [matchFailed], in the order
    [Array.prototype.sort] puts their texts. *)
Inductive expectation :=
  | ExpQuote            (* a double quote *)
  | ExpLineBreak        (* class of LF and CR *)
  | ExpNotQuote         (* class of everything but a double quote *)
  | ExpNotLineBreak     (* class of everything but LF and CR *)
  | ExpAnyCharacter.    (* any character *)

Definition rank (e : expectation) : nat :=
  match e with
  | ExpQuote => 0 | ExpLineBreak => 1 | ExpNotQuote => 2
  | ExpNotLineBreak => 3 | ExpAnyCharacter => 4
  end.

#[global] Instance expectation_eq_dec : EqDecision expectation.
Proof. solve_decision. Defined.

(** The cursor: [pos], together with the input from [pos] on, so that
    [input.charAt(pos)] is the head of [ahead] and the end of input is
    [ahead = []]. *)
Record cursor := Cursor { pos : nat; ahead : jsstring }.

Record pstate := PState {
  cur : cursor;
  rightmostFailuresPos : nat;
  rightmostFailuresExpected : list expectation
}.

Definition charAt (st : pstate) : option char := head (ahead (cur st)).

(** [pos++] *)
Definition advance (st : pstate) : pstate :=
  PState (Cursor (S (pos (cur st))) (tail (ahead (cur st))))
         (rightmostFailuresPos st) (rightmostFailuresExpected st).

(** [pos = pos0] *)
Definition restore (pos0 : cursor) (st : pstate) : pstate :=
  PState pos0 (rightmostFailuresPos st) (rightmostFailuresExpected st).

Definition matchFailed (failure : expectation) (st : pstate) : pstate :=
  if bool_decide (pos (cur st) < rightmostFailuresPos st) then st
  else if bool_decide (rightmostFailuresPos st < pos (cur st)) then
    PState (cur st) (pos (cur st)) [failure]
  else
    PState (cur st) (rightmostFailuresPos st)
           (rightmostFailuresExpected st ++ [failure]).

(** A terminal: test the character at [pos] with [ok]; on success consume
    it, otherwise record the failure ([reportFailures] is always 0, the
    grammar has no predicates that silence reports). *)
Definition terminal (ok : char → bool) (failure : expectation) (st : pstate)
  : option char * pstate :=
  match charAt st with
  | Some c => if ok c then (Some c, advance st) else (None, matchFailed failure st)
  | None => (None, matchFailed failure st)
  end.

Definition is_quote (c : char) : bool := bool_decide (c = QUOTE).
Definition is_line_break (c : char) : bool := bool_decide (c = LF) || bool_decide (c = CR).

Definition parse_char (st : pstate) : option char * pstate :=
  let pos0 := cur st in
  let '(result0, st) := terminal is_quote ExpQuote st in
  let '(result0, st) :=
    match result0 with
    | Some _ =>
        let '(result1, st) := terminal is_quote ExpQuote st in
        match result1 with
        | Some _ => (Some QUOTE, st)
        | None => (None, restore pos0 st)
        end
    | None => (None, restore pos0 st)
    end in
  match result0 with
  | Some c => (Some c, st)
  | None => terminal (λ c, negb (is_quote c)) ExpNotQuote st
  end.

(** The loops the generator emits for a starred expression,
    [r = e(); while (r !== null) { result.push(r); r = e(); }].
    [fuel] bounds the number of iterations and [None] is the loop cut
    short; [parse] hands every loop more fuel than the input has
    characters, and that is never used up ([parse_terminates]). *)
Fixpoint star {A} (e : pstate → option (option A * pstate)) (fuel : nat)
    (st : pstate) : option (list A * pstate) :=
  match fuel with
  | 0 => None
  | S fuel =>
      '(r, st) ← e st;
      match r with
      | Some x =>
          '(result, st) ← star e fuel st;
          Some (x :: result, st)
      | None => Some ([], st)
      end
  end.

(** One element of an unquoted field: a character that is no line break,
    accepted when it differs from the separator. *)
Definition unquoted_char (separator : char) (st : pstate) : option char * pstate :=
  let pos1 := cur st in
  let '(result1, st) := terminal (λ c, negb (is_line_break c)) ExpNotLineBreak st in
  match result1 with
  | Some c =>
      if bool_decide (c ≠ separator) then (Some c, st) else (None, restore pos1 st)
  | None => (None, restore pos1 st)
  end.

(** The first alternative of [parse_field]: quote, characters, quote. *)
Definition quoted_field (fuel : nat) (st : pstate)
  : option (option jsstring * pstate) :=
  let pos0 := cur st in
  let '(result0, st) := terminal is_quote ExpQuote st in
  match result0 with
  | Some _ =>
      '(result1, st) ← star (λ st, Some (parse_char st)) fuel st;
      let '(result2, st) := terminal is_quote ExpQuote st in
      match result2 with
      | Some _ => Some (Some result1, st)
      | None => Some (None, restore pos0 st)
      end
  | None => Some (None, restore pos0 st)
  end.

Definition parse_field (separator : char) (fuel : nat) (st : pstate)
  : option (option jsstring * pstate) :=
  '(result0, st) ← quoted_field fuel st;
  match result0 with
  | Some text => Some (Some text, st)
  | None =>
      '(text, st) ← star (λ st, Some (unquoted_char separator st)) fuel st;
      Some (Some text, st)
  end.

(** One iteration of the loop of [parse_line]: any character, which must
    be the separator, then a field. *)
Definition separated_field (separator : char) (fuel : nat) (st : pstate)
  : option (option jsstring * pstate) :=
  let pos2 := cur st in
  let '(result2, st) := terminal (λ _, true) ExpAnyCharacter st in
  match result2 with
  | Some c =>
      if bool_decide (c = separator) then
        '(result4, st) ← parse_field separator fuel st;
        match result4 with
        | Some text => Some (Some text, st)
        | None => Some (None, restore pos2 st)
        end
      else Some (None, restore pos2 st)
  | None => Some (None, restore pos2 st)
  end.

Definition parse_line (separator : char) (fuel : nat) (st : pstate)
  : option (option (list jsstring) * pstate) :=
  let pos0 := cur st in
  '(result0, st) ← parse_field separator fuel st;
  match result0 with
  | Some first =>
      '(rest, st) ← star (separated_field separator fuel) fuel st;
      (* the predicate [!!first || rest.length] *)
      if bool_decide (first ≠ []) || bool_decide (length rest ≠ 0)
      then Some (Some (first :: rest), st)
      else Some (None, restore pos0 st)
  | None => Some (None, restore pos0 st)
  end.

(** A line break, the element of the runs of [parse_sv]. *)
Definition line_break (st : pstate) : option (option char * pstate) :=
  Some (terminal is_line_break ExpLineBreak st).

(** One iteration of the loop of [parse_sv]: at least one line break,
    then a line. *)
Definition next_line (separator : char) (fuel : nat) (st : pstate)
  : option (option (list jsstring) * pstate) :=
  let pos2 := cur st in
  let '(result4, st) := terminal is_line_break ExpLineBreak st in
  match result4 with
  | Some _ =>
      '(_, st) ← star line_break fuel st;
      '(result4, st) ← parse_line separator fuel st;
      match result4 with
      | Some data => Some (Some data, st)
      | None => Some (None, restore pos2 st)
      end
  | None => Some (None, restore pos2 st)
  end.

Definition parse_sv (separator : char) (fuel : nat) (st : pstate)
  : option (option (list (list jsstring)) * pstate) :=
  let pos0 := cur st in
  '(_, st) ← star line_break fuel st;
  '(result1, st) ← parse_line separator fuel st;
  match result1 with
  | Some first =>
      '(rest, st) ← star (next_line separator fuel) fuel st;
      '(_, st) ← star line_break fuel st;
      Some (Some (first :: rest), st)
  | None => Some (None, restore pos0 st)
  end.

(** The start rules [parse_comma], [parse_semicolon] and [parse_tab] set
    the separator and run [parse_sv]. *)
Inductive rule := comma | semicolon | tab.

Definition rule_separator (r : rule) : char :=
  match r with comma => COMMA | semicolon => SEMICOLON | tab => TAB end.

(** [cleanupExpected]: sort, then drop repetitions. *)
Fixpoint insert_sorted (e : expectation) (l : list expectation) : list expectation :=
  match l with
  | [] => [e]
  | x :: rest =>
      if bool_decide (rank e ≤ rank x) then e :: l else x :: insert_sorted e rest
  end.

Fixpoint drop_repeats (last : option expectation) (l : list expectation)
  : list expectation :=
  match l with
  | [] => []
  | x :: rest =>
      if bool_decide (Some x = last) then drop_repeats last rest
      else x :: drop_repeats (Some x) rest
  end.

Definition cleanupExpected (expected : list expectation) : list expectation :=
  drop_repeats None (foldr insert_sorted [] expected).

(** [computeErrorPosition]: scan the input up to the error offset. *)
Record position := Position { line : nat; column : nat; seenCR : bool }.

Definition position_step (p : position) (ch : char) : position :=
  if bool_decide (ch = LF) then
    Position (if seenCR p then line p else S (line p)) 1 false
  else if bool_decide (ch = CR) || bool_decide (ch = 8232%N) || bool_decide (ch = 8233%N)
  then Position (S (line p)) 1 true
  else Position (line p) (S (column p)) false.

Definition computeErrorPosition (input : jsstring) (offset : nat) : position :=
  foldl position_step (Position 1 1 false) (take offset input).

Record syntax_error := SyntaxError {
  expected : list expectation;
  found : option char;
  offset : nat;
  error_line : nat;
  error_column : nat
}.

Inductive parse_result :=
  | Parsed (table : list (list jsstring))
  | Rejected (e : syntax_error)
  | OutOfFuel.

Definition parse (input : jsstring) (startRule : rule) : parse_result :=
  let st := PState (Cursor 0 input) 0 [] in
  match parse_sv (rule_separator startRule) (S (length input)) st with
  | None => OutOfFuel
  | Some (result, st) =>
      let offset := pos (cur st) `max` rightmostFailuresPos st in
      let errorPosition := computeErrorPosition input offset in
      let rejected :=
        Rejected (SyntaxError (cleanupExpected (rightmostFailuresExpected st))
                              (input !! offset) offset
                              (line errorPosition) (column errorPosition)) in
      (* if (result === null || pos !== input.length) throw ... *)
      match result with
      | None => rejected
      | Some table =>
          if bool_decide (pos (cur st) ≠ length input) then rejected
          else Parsed table
      end
  end.

(** ** Values, and the host functions the record mapper calls *)

(** A number is kept as the decimal it was written as, sign, mantissa and
    power of ten; the rounding to a double that the host performs is not
    modelled. *)
Record number := Number { negative : bool; mantissa : N; exponent : Z }.

#[local] Unset Elimination Schemes.
Inductive value :=
  | VString (s : jsstring)
  | VNumber (n : number)
  | VBool (b : bool)
  | VNull
  | VArray (elements : list value)
  | VObject (members : list (jsstring * value)).
#[local] Set Elimination Schemes.

Fixpoint take_digits (s : jsstring) : jsstring * jsstring :=
  match s with
  | c :: rest =>
      if is_digit c then let '(d, r) := take_digits rest in (c :: d, r)
      else ([], s)
  | [] => ([], [])
  end.

Definition digits_value (d : jsstring) : N :=
  foldl (λ acc c, acc * 10 + (c - 48))%N 0%N d.

(** The exponent part shared by JSON numbers and numeric strings:
    [e] or [E], an optional sign, at least one digit.  Returns the
    exponent and what follows; [Some (0, s)] when there is no exponent
    part, [None] when one starts and is malformed. *)
Definition exponent_part (s : jsstring) : option (Z * jsstring) :=
  match s with
  | c :: rest =>
      if bool_decide (c = 101%N) || bool_decide (c = 69%N) then
        let '(neg, rest) :=
          match rest with
          | sg :: r =>
              if bool_decide (sg = 45%N) then (true, r)
              else if bool_decide (sg = 43%N) then (false, r)
              else (false, rest)
          | [] => (false, rest)
          end in
        let '(d, after) := take_digits rest in
        match d with
        | [] => None
        | _ =>
            let e := Z.of_N (digits_value d) in
            Some (if neg then (- e)%Z else e, after)
        end
      else Some (0%Z, s)
  | [] => Some (0%Z, s)
  end.

(** *** JSON.parse

    The host function [JSON.parse], after the JSON grammar: a pushdown
    automaton driven by the tokens of the text. *)

(** A JSON number: optional minus, integer part without leading zeros,
    optional fraction, optional exponent. *)
Definition lex_number (s : jsstring) : option (number * jsstring) :=
  let '(neg, s) :=
    match s with
    | c :: rest => if bool_decide (c = 45%N) then (true, rest) else (false, s)
    | [] => (false, s)
    end in
  let '(int, s) :=
    match s with
    | c :: rest =>
        if bool_decide (c = 48%N) then ([c], rest) else take_digits s
    | [] => ([], s)
    end in
  match int with
  | [] => None
  | _ =>
      '(frac, s) ←
        match s with
        | c :: rest =>
            if bool_decide (c = 46%N) then
              let '(d, after) := take_digits rest in
              match d with [] => None | _ => Some (d, after) end
            else Some ([], s)
        | [] => Some ([], s)
        end;
      '(e, s) ← exponent_part s;
      Some (Number neg (digits_value (int ++ frac)) (e - Z.of_nat (length frac)), s)
  end.

Definition hex_digit (c : char) : option N :=
  if is_digit c then Some (c - 48)%N
  else if (97 <=? c)%N && (c <=? 102)%N then Some (c - 87)%N
  else if (65 <=? c)%N && (c <=? 70)%N then Some (c - 55)%N
  else None.

Definition simple_escape (c : char) : option char :=
  if bool_decide (c = 34%N) then Some 34%N        (* quote *)
  else if bool_decide (c = 92%N) then Some 92%N   (* backslash *)
  else if bool_decide (c = 47%N) then Some 47%N   (* slash *)
  else if bool_decide (c = 98%N) then Some 8%N    (* b *)
  else if bool_decide (c = 102%N) then Some 12%N  (* f *)
  else if bool_decide (c = 110%N) then Some 10%N  (* n *)
  else if bool_decide (c = 114%N) then Some 13%N  (* r *)
  else if bool_decide (c = 116%N) then Some 9%N   (* t *)
  else None.

(** A JSON string after its opening quote: the decoded text and what
    follows the closing quote. *)
Fixpoint lex_string (s : jsstring) : option (jsstring * jsstring) :=
  match s with
  | [] => None
  | c :: rest =>
      if bool_decide (c = QUOTE) then Some ([], rest)
      else if bool_decide (c = 92%N) then
        match rest with
        | e :: rest =>
            if bool_decide (e = 117%N) then
              match rest with
              | h1 :: h2 :: h3 :: h4 :: rest =>
                  a ← hex_digit h1; b ← hex_digit h2;
                  c ← hex_digit h3; d ← hex_digit h4;
                  '(text, after) ← lex_string rest;
                  Some ((((a * 16 + b) * 16 + c) * 16 + d)%N :: text, after)
              | _ => None
              end
            else
              d ← simple_escape e;
              '(text, after) ← lex_string rest;
              Some (d :: text, after)
        | [] => None
        end
      else if (c <? 32)%N then None
      else
        '(text, after) ← lex_string rest;
        Some (c :: text, after)
  end.

Inductive token :=
  | TLBracket | TRBracket | TLBrace | TRBrace | TColon | TComma
  | TString (s : jsstring)
  | TValue (v : value).

Definition keyword (word : jsstring) (v : value) (s : jsstring)
  : option (token * jsstring) :=
  if bool_decide (take (length word) s = word)
  then Some (TValue v, drop (length word) s) else None.

Definition next_token (s : jsstring) : option (token * jsstring) :=
  match s with
  | [] => None
  | c :: rest =>
      if bool_decide (c = 91%N) then Some (TLBracket, rest)
      else if bool_decide (c = 93%N) then Some (TRBracket, rest)
      else if bool_decide (c = 123%N) then Some (TLBrace, rest)
      else if bool_decide (c = 125%N) then Some (TRBrace, rest)
      else if bool_decide (c = 58%N) then Some (TColon, rest)
      else if bool_decide (c = 44%N) then Some (TComma, rest)
      else if bool_decide (c = QUOTE) then
        '(text, after) ← lex_string rest; Some (TString text, after)
      else if bool_decide (c = 116%N) then keyword (lit "true") (VBool true) s
      else if bool_decide (c = 102%N) then keyword (lit "false") (VBool false) s
      else if bool_decide (c = 110%N) then keyword (lit "null") VNull s
      else '(n, after) ← lex_number s; Some (TValue (VNumber n), after)
  end.

(** Defining a member: a repeated name keeps its place and takes the new
    value. *)
Fixpoint define (key : jsstring) (v : value) (members : list (jsstring * value))
  : list (jsstring * value) :=
  match members with
  | [] => [(key, v)]
  | (k, w) :: rest =>
      if bool_decide (k = key) then (k, v) :: rest
      else (k, w) :: define key v rest
  end.

Inductive frame :=
  | InArray (elements : list value)
  | InObject (members : list (jsstring * value)) (key : jsstring).

Inductive mode :=
  | WantValue (may_close : bool)
  | WantKey (may_close : bool)
  | WantColon
  | WantMore
  | Done (v : value).

Definition deliver (v : value) (stack : list frame) : list frame * mode :=
  match stack with
  | [] => ([], Done v)
  | InArray elements :: below => (InArray (elements ++ [v]) :: below, WantMore)
  | InObject members key :: below =>
      (InObject (define key v members) key :: below, WantMore)
  end.

Definition json_step (t : token) (st : list frame * mode)
  : option (list frame * mode) :=
  let '(stack, m) := st in
  match m, t with
  | WantValue _, TLBracket => Some (InArray [] :: stack, WantValue true)
  | WantValue _, TLBrace => Some (InObject [] [] :: stack, WantKey true)
  | WantValue _, TString s => Some (deliver (VString s) stack)
  | WantValue _, TValue v => Some (deliver v stack)
  | WantValue true, TRBracket =>
      match stack with
      | InArray elements :: below => Some (deliver (VArray elements) below)
      | _ => None
      end
  | WantKey _, TString s =>
      match stack with
      | InObject members _ :: below => Some (InObject members s :: below, WantColon)
      | _ => None
      end
  | WantKey true, TRBrace =>
      match stack with
      | InObject members _ :: below => Some (deliver (VObject members) below)
      | _ => None
      end
  | WantColon, TColon => Some (stack, WantValue false)
  | WantMore, TComma =>
      match stack with
      | InArray _ :: _ => Some (stack, WantValue false)
      | InObject _ _ :: _ => Some (stack, WantKey false)
      | [] => None
      end
  | WantMore, TRBracket =>
      match stack with
      | InArray elements :: below => Some (deliver (VArray elements) below)
      | _ => None
      end
  | WantMore, TRBrace =>
      match stack with
      | InObject members _ :: below => Some (deliver (VObject members) below)
      | _ => None
      end
  | _, _ => None
  end.

Definition is_json_space (c : char) : bool :=
  bool_decide (c ∈ [32; 9; 10; 13]%N).

(** The driver walks the text; [skip] counts the characters the last
    token still covers. *)
Fixpoint json_run (s : jsstring) (skip : nat) (st : list frame * mode)
  : option (list frame * mode) :=
  match s with
  | [] => Some st
  | c :: rest =>
      match skip with
      | S k => json_run rest k st
      | 0 =>
          if is_json_space c then json_run rest 0 st
          else
            '(t, after) ← next_token (c :: rest);
            st ← json_step t st;
            json_run rest (length rest - length after) st
      end
  end.

Definition JSON_parse (text : jsstring) : option value :=
  match json_run text 0 ([], WantValue false) with
  | Some (_, Done v) => Some v
  | _ => None
  end.

(** *** The numeric candidate

    [value - 0] converts the string to a number; [isNaN] of the result
    is all [convert] uses.  A string converts (is not [NaN]) when, with
    surrounding white space removed, it is empty, a binary, octal or
    hexadecimal integer literal, or an optionally signed [Infinity] or
    decimal literal. *)
Definition all_digits_in (ok : char → bool) (s : jsstring) : bool :=
  bool_decide (s ≠ []) && forallb ok s.

Definition is_hex (c : char) : bool := bool_decide (is_Some (hex_digit c)).
Definition is_octal (c : char) : bool := (48 <=? c)%N && (c <=? 55)%N.
Definition is_binary (c : char) : bool := (48 <=? c)%N && (c <=? 49)%N.

Definition unsigned_decimal (s : jsstring) : bool :=
  if bool_decide (s = lit "Infinity") then true
  else
    let '(int, s) := take_digits s in
    let '(dot, frac, s) :=
      match s with
      | c :: rest =>
          if bool_decide (c = 46%N)
          then let '(d, after) := take_digits rest in (true, d, after)
          else (false, [], s)
      | [] => (false, [], s)
      end in
    bool_decide (int ≠ [] ∨ frac ≠ [])
    && match exponent_part s with
       | Some (_, []) => true
       | _ => false
       end.

Definition string_is_numeric (s : jsstring) : bool :=
  match trim s with
  | [] => true
  | c :: rest =>
      match rest with
      | x :: body =>
          if bool_decide (c = 48%N) && (bool_decide (x = 120%N) || bool_decide (x = 88%N))
          then all_digits_in is_hex body
          else if bool_decide (c = 48%N) && (bool_decide (x = 111%N) || bool_decide (x = 79%N))
          then all_digits_in is_octal body
          else if bool_decide (c = 48%N) && (bool_decide (x = 98%N) || bool_decide (x = 66%N))
          then all_digits_in is_binary body
          else if bool_decide (c = 43%N) || bool_decide (c = 45%N)
          then unsigned_decimal rest
          else unsigned_decimal (c :: rest)
      | [] => unsigned_decimal [c]
      end
  end.

(** ** convert *)

Record Options := {
  separator : option jsstring;   (* absent is [None] *)
  parseNumbers : bool;
  parseJSON : bool;
  transpose : bool;
  hash : bool;
  returnArray : bool
}.

Definition no_options : Options :=
  {| separator := None; parseNumbers := false; parseJSON := false;
     transpose := false; hash := false; returnArray := false |}.

(** An object created by [{}]: its own properties, and whether an
    assignment to [__proto__] still reaches the accessor inherited from
    [Object.prototype].  It does at first; it no longer does once the
    prototype was replaced by [null] or by an object that has its own
    [__proto__] member. *)
Record object (V : Type) := Object {
  own : gmap jsstring V;
  reaches_setter : bool
}.
Arguments Object {V} _ _.
Arguments own {V} _.
Arguments reaches_setter {V} _.

Definition empty_object {V} : object V := Object ∅ true.

(** [o[key] = v].  Through the accessor no own property is created: a
    primitive is ignored, [null] or an object becomes the prototype, and
    [still_reaches v] says whether the accessor is inherited through the
    new prototype. *)
Definition assign {V} (still_reaches : V → bool) (key : jsstring) (v : V)
    (o : object V) : object V :=
  if bool_decide (key = PROTO) && reaches_setter o
  then Object (own o) (still_reaches v)
  else Object (<[key := v]> (own o)) (reaches_setter o).

Definition has_member (key : jsstring) (members : list (jsstring * value)) : bool :=
  bool_decide (key ∈ members.*1).

Definition value_keeps_setter (v : value) : bool :=
  match v with
  | VNull => false
  | VObject members => negb (has_member PROTO members)
  | _ => true
  end.

Inductive output :=
  | OutArray (records : list (gmap jsstring value))
  | OutHash (mapping : gmap jsstring (gmap jsstring value))
  | OutRaw (table : list (list (option jsstring))).

(** The exceptions of [convert]: the three messages that are thrown, the
    rethrown syntax error with the source line it is printed with (the
    fourth message, [errorNotWellFormed], is declared and never thrown),
    and a failure that starts as an exception of the host (a
    [TypeError]).  [errorOutOfFuel] stands for a parser loop cut short,
    which does not happen ([convert_returns]). *)
Inductive error :=
  | errorEmpty
  | errorDetectingSeparator
  | errorEmptyHeader
  | errorSyntax (e : syntax_error) (source_line : jsstring)
  | errorHost
  | errorOutOfFuel.

(** [pegjsSeparatorNames[separator]], then the choice of the start rule
    in [parse]: a name that is not one of the three gives [undefined],
    for which [parse] starts at comma; a name found on
    [Object.prototype] gives a function, which [parse] cannot report as
    an invalid rule name without a host exception. *)
Definition start_rule (separator : jsstring) : option rule :=
  if bool_decide (separator = [COMMA]) then Some comma
  else if bool_decide (separator = [SEMICOLON]) then Some semicolon
  else if bool_decide (separator = [TAB]) then Some tab
  else if inherited separator then None
  else Some comma.

(** [csv.lastIndexOf(LF, from)], shifted by one so that 0 stands for -1;
    and [csv.indexOf(LF, from)], with [None] for -1. *)
Fixpoint last_index_of (c : char) (from : nat) (i : nat) (s : jsstring) : nat :=
  match s with
  | [] => 0
  | x :: rest =>
      let later := last_index_of c from (S i) rest in
      if bool_decide (later ≠ 0) then later
      else if bool_decide (x = c) && bool_decide (i ≤ from) then S i else 0
  end.

Fixpoint index_of (c : char) (from : nat) (i : nat) (s : jsstring) : option nat :=
  match s with
  | [] => None
  | x :: rest =>
      if bool_decide (x = c) && bool_decide (from ≤ i) then Some i
      else index_of c from (S i) rest
  end.

(** [csv.substring(start >= -1 ? start : 0, end > -1 ? end : csv.length)]:
    a start of -1 is taken as 0. *)
Definition source_line (csv : jsstring) (offset : nat) : jsstring :=
  let start := last_index_of LF offset 0 csv - 1 in
  let stop := default (length csv) (index_of LF offset 0 csv) in
  take (stop - start) (drop start csv).

(** Separator, parser and optional transposition: the table [a] that the
    header processor receives. *)
Definition read_table (csv : jsstring) (options : Options)
  : error + list (list (option jsstring)) :=
  if bool_decide (length csv = 0) then inl errorEmpty
  else
    (* options.separator || detectSeparator(csv) *)
    let chosen : option jsstring :=
      match separator options with
      | Some (c :: s) => Some (c :: s)
      | _ => (λ c : char, [c]) <$> detectSeparator csv
      end in
    (* if (!separator) throw errorDetectingSeparator *)
    match chosen with
    | None => inl errorDetectingSeparator
    | Some chosen =>
        match start_rule chosen with
        | None => inl errorHost
        | Some startRule =>
            match parse csv startRule with
            | OutOfFuel => inl errorOutOfFuel
            | Rejected e => inl (errorSyntax e (source_line csv (offset e)))
            | Parsed a =>
                inr (if transpose options then zip a
                     else (λ row : list jsstring, Some <$> row) <$> a)
            end
        end
    end.

(** [keys = a.shift()], the check of its length, the cleaning and
    [uniquify].  [key.trim()] on [undefined] is a host exception. *)
Definition header_keys (a : list (list (option jsstring)))
  : error + (list jsstring * list (list (option jsstring))) :=
  match a with
  | [] => inl errorHost
  | keys :: a =>
      if bool_decide (length keys = 0) then inl errorEmptyHeader
      else
        match mapM (λ key : option jsstring, clean <$> key) keys with
        | None => inl errorHost
        | Some keys => inr (uniquify keys, a)
        end
  end.

(** The value stored for a cell, lines 146 to 160. *)
Definition cell_value (options : Options) (text : jsstring) : value :=
  (* number = the text is empty ? NaN : text - 0 *)
  let number_is_NaN :=
    if bool_decide (text = []) then true else negb (string_is_numeric text) in
  if parseJSON options || (parseNumbers options && negb number_is_NaN) then
    match JSON_parse text with
    | Some v => v
    | None => VString text
    end
  else VString text.

(** The inner loop over [keys], from index [i] on, for the row [a[l]]. *)
Fixpoint fill_row (options : Options) (al : list (option jsstring))
    (i : nat) (keys : list jsstring)
    (st : object value * option jsstring) : object value * option jsstring :=
  match keys with
  | [] => st
  | key :: keys =>
      let '(row, hashKey) := st in
      (* (a[l][i]||'').trim().replace(...) *)
      let text := clean (default [] (mjoin (al !! i))) in
      fill_row options al (S i) keys
        (if hash options && bool_decide (i = 0) then (row, Some text)
         else (assign value_keeps_setter key (cell_value options text) row, hashKey))
  end.

Definition build_row (options : Options) (keys : list jsstring)
    (al : list (option jsstring)) : object value * option jsstring :=
  fill_row options al 0 keys (empty_object, None).

(** The outer loop in array mode: [json.push(row)]. *)
Definition array_rows (options : Options) (keys : list jsstring)
    (a : list (list (option jsstring))) : list (gmap jsstring value) :=
  (λ al, own (build_row options keys al).1) <$> a.

(** The outer loop in hash mode: [json[hashKey] = row]. *)
Definition hash_rows (options : Options) (keys : list jsstring)
    (a : list (list (option jsstring))) : object (object value) :=
  foldl (λ json al,
           let '(row, hashKey) := build_row options keys al in
           match hashKey with
           | Some k => assign reaches_setter k row json
           | None => json
           end)
        empty_object a.

Definition records (options : Options) (keys : list jsstring)
    (a : list (list (option jsstring))) : output :=
  if hash options then OutHash (own <$> own (hash_rows options keys a))
  else OutArray (array_rows options keys a).

Definition convert (csv : jsstring) (options : Options) : error + output :=
  match read_table csv options with
  | inl e => inl e
  | inr a =>
      if returnArray options then inr (OutRaw a)
      else
        match header_keys a with
        | inl e => inl e
        | inr (keys, a) => inr (records options keys a)
        end
  end.

(** ** Notions the statements use *)

(** How many of the keys in [l] equal [v]. *)
Definition occurrences (v : jsstring) (l : list jsstring) : nat :=
  length (filter (λ k, k = v) l).

(** A string that contains two consecutive underscores, the mark of the
    suffix convention. *)
Fixpoint has_suffix_mark (s : jsstring) : bool :=
  match s with
  | a :: rest =>
      match rest with
      | b :: _ =>
          (bool_decide (a = UNDERSCORE) && bool_decide (b = UNDERSCORE))
          || has_suffix_mark rest
      | [] => false
      end
  | [] => false
  end.

(** Removing a quote at the front, and a quote at the back. *)
Definition strip_first_quote (s : jsstring) : jsstring :=
  match s with
  | c :: rest => if bool_decide (c = QUOTE) then rest else s
  | [] => []
  end.

Fixpoint strip_last_quote (s : jsstring) : jsstring :=
  match s with
  | [] => []
  | c :: rest =>
      match rest with
      | [] => if bool_decide (c = QUOTE) then [] else [c]
      | _ :: _ => c :: strip_last_quote rest
      end
  end.

(** The text of a quoted field for the content [body]: every quote is
    doubled, and the whole is put between quotes. *)
Definition double_quotes (body : jsstring) : jsstring :=
  body ≫= λ c, if bool_decide (c = QUOTE) then [QUOTE; QUOTE] else [c].

Definition quoted (body : jsstring) : jsstring :=
  QUOTE :: double_quotes body ++ [QUOTE].

(** The number of characters the parser has not consumed. *)
Definition remaining (st : pstate) : nat := length (ahead (cur st)).

(** What the first loop leaves in [counts], for the keys [l] read so far:
    a name that is not inherited is counted, one less than its number of
    occurrences; an inherited name never holds a number. *)
Definition counted (m : gmap jsstring count) (l : list jsstring) : Prop :=
  ∀ v, match m !! v with
       | Some (Num n) => inherited v = false ∧ occurrences v l = S n
       | Some NaN => inherited v = true
       | None => inherited v = true ∨ occurrences v l = 0
       end.

(** What the second loop maintains, for the keys [l] still to rename. *)
Definition pending (m : gmap jsstring count) (l : list jsstring) : Prop :=
  ∀ v, match m !! v with
       | Some (Num n) => inherited v = false ∧ n = pred (occurrences v l)
       | Some NaN => inherited v = true
       | None => inherited v = true ∨ occurrences v l = 0
       end.

(** The name the key [v] ends up with when [c] equal keys stand to its
    left. *)
Definition new_name (v : jsstring) (c : nat) : jsstring :=
  if inherited v then v
  else if bool_decide (c = 0) then v
  else v ++ SUFFIX ++ number_to_string c.

(** The new names of [keys], when the keys [seen] stand to their left. *)
Fixpoint rename_from (seen keys : list jsstring) : list jsstring :=
  match keys with
  | [] => []
  | k :: rest => new_name k (occurrences k seen) :: rename_from (seen ++ [k]) rest
  end.

(** A grammar expression that, run with fewer characters left than
    [fuel], returns and does not move the cursor backwards; and one that
    moreover consumes something whenever it succeeds. *)
Definition total {A} (fuel : nat) (e : pstate → option (option A * pstate)) : Prop :=
  ∀ st, remaining st < fuel →
    ∃ r st', e st = Some (r, st') ∧ remaining st' ≤ remaining st.

Definition steady {A} (fuel : nat) (e : pstate → option (option A * pstate)) : Prop :=
  ∀ st, remaining st < fuel →
    ∃ r st', e st = Some (r, st') ∧ remaining st' ≤ remaining st
             ∧ (is_Some r → remaining st' < remaining st).

(** ** Notions the further properties use *)

(** The cursor [c] is a position of [input]: what lies ahead is the input
    from [pos c] on. *)
Definition within (input : jsstring) (c : cursor) : Prop :=
  ahead c = drop (pos c) input ∧ pos c ≤ length input.

(** The parser state [st] belongs to a run over [input]. *)
Definition tracks (input : jsstring) (st : pstate) : Prop :=
  within input (cur st) ∧ rightmostFailuresPos st ≤ length input.

(** A grammar expression that keeps the state within the input and
    never lowers the furthest failure position. *)
Definition sound {A} (input : jsstring)
    (e : pstate → option (option A * pstate)) : Prop :=
  ∀ st r st', tracks input st → e st = Some (r, st') →
    tracks input st' ∧ rightmostFailuresPos st ≤ rightmostFailuresPos st'.


(** Expectations in the order of their texts, without and with
    repetitions allowed. *)
Fixpoint ascending (l : list expectation) : Prop :=
  match l with
  | [] => True
  | x :: rest =>
      match rest with
      | [] => True
      | y :: _ => rank x < rank y ∧ ascending rest
      end
  end.

Fixpoint nondecreasing (l : list expectation) : Prop :=
  match l with
  | [] => True
  | x :: rest =>
      match rest with
      | [] => True
      | y :: _ => rank x ≤ rank y ∧ nondecreasing rest
      end
  end.

(** A text that can stand as an unquoted field: it does not begin with a
    double quote and holds no line break and no separator. *)
Definition plain (separator : char) (text : jsstring) : Prop :=
  head text ≠ Some QUOTE
  ∧ Forall (λ c, is_line_break c = false ∧ c ≠ separator) text.

(** Writing a table as text.  A field is written between quotes, its
    quotes doubled, or, when the flag is [false], as it is; the fields of
    a row are joined by the separator and the rows by [gap]. *)
Fixpoint join (gap : jsstring) (parts : list jsstring) : jsstring :=
  match parts with
  | [] => []
  | p :: rest =>
      match rest with
      | [] => p
      | _ :: _ => p ++ gap ++ join gap rest
      end
  end.

Definition write_field (field : bool * jsstring) : jsstring :=
  if field.1 then quoted field.2 else field.2.

Definition write_line (separator : char) (row : list (bool * jsstring)) : jsstring :=
  join [separator] (write_field <$> row).

Definition write_table (separator : char) (gap : jsstring)
    (table : list (list (bool * jsstring))) : jsstring :=
  join gap (write_line separator <$> table).

(** A field may be written without quotes only when it is plain, and a
    row can be read back only when it is not the single empty field. *)
Definition writable_field (separator : char) (field : bool * jsstring) : Prop :=
  field.1 = false → plain separator field.2.

Definition writable_row (separator : char) (row : list (bool * jsstring)) : Prop :=
  row ≠ [] ∧ Forall (writable_field separator) row ∧ row.*2 ≠ [[]].

(** What may follow a field, and what may follow a line. *)
Definition ends_field (separator : char) (tail : jsstring) : Prop :=
  match tail with
  | [] => True
  | c :: _ => is_line_break c = true ∨ c = separator
  end.

Definition ends_line (tail : jsstring) : Prop :=
  match tail with
  | [] => True
  | c :: _ => is_line_break c = true
  end.

Definition starts_line (tail : jsstring) : Prop :=
  match tail with
  | [] => True
  | c :: _ => is_line_break c = false
  end.

(** The separator [convert] goes on with, [options.separator ||
    detectSeparator(csv)]: an empty string counts as absent. *)
Definition chosen_separator (csv : jsstring) (options : Options) : option jsstring :=
  match separator options with
  | Some (c :: s) => Some (c :: s)
  | _ => (λ c : char, [c]) <$> detectSeparator csv
  end.

(** The options with another separator. *)
Definition with_separator (s : option jsstring) (options : Options) : Options :=
  {| separator := s; parseNumbers := parseNumbers options;
     parseJSON := parseJSON options; transpose := transpose options;
     hash := hash options; returnArray := returnArray options |}.

(** Rows written each after its own run of line breaks. *)
Definition write_rows (separator : char)
    (rows : list (jsstring * list (bool * jsstring))) : jsstring :=
  concat ((λ gr, gr.1 ++ write_line separator gr.2) <$> rows).

(** Cutting a text at the characters that satisfy [p]: the pieces between
    them, empty pieces included. *)
Fixpoint split_on (p : char → bool) (s : jsstring) : list jsstring :=
  match s with
  | [] => [[]]
  | c :: rest =>
      if p c then [] :: split_on p rest
      else match split_on p rest with
           | piece :: pieces => (c :: piece) :: pieces
           | [] => [[c]]
           end
  end.

(** The table of a text read without any notion of quoting: the lines
    between line breaks, the empty ones left out, each cut at the
    separator. *)
Definition split_table (separator : char) (input : jsstring) : list (list jsstring) :=
  split_on (λ c, bool_decide (c = separator))
    <$> filter (λ l, l ≠ []) (split_on is_line_break input).

(** The parser has recorded a failure; and a grammar expression that does
    not lose the record. *)
Definition noted (st : pstate) : Prop := rightmostFailuresExpected st ≠ [].

Definition keeps {A} (e : pstate → option (option A * pstate)) : Prop :=
  ∀ st r st', noted st → e st = Some (r, st') → noted st'.

(** * Properties *)

(** ** Decimal numerals *)

Lemma uint_chars_digits d : Forall (λ c, is_digit c = true) (uint_chars d).
Proof. induction d; simpl; constructor; auto. Qed.

Lemma uint_chars_inj d d' : uint_chars d = uint_chars d' → d = d'.
Proof.
  revert d'; induction d; intros []; simpl; intros H; try discriminate;
    try reflexivity; f_equal; apply IHd; congruence.
Qed.

Lemma number_to_string_inj n m :
  number_to_string n = number_to_string m → n = m.
Proof.
  intros H. apply uint_chars_inj in H. by apply Unsigned.to_uint_inj.
Qed.

Lemma number_to_string_no_underscore n : UNDERSCORE ∉ number_to_string n.
Proof.
  intros H. pose proof (uint_chars_digits (Nat.to_uint n)) as Hd.
  rewrite Forall_forall in Hd. apply Hd in H. vm_compute in H. discriminate.
Qed.

(** ** The two loops of uniquify *)

Lemma occurrences_app v l1 l2 :
  occurrences v (l1 ++ l2) = occurrences v l1 + occurrences v l2.
Proof. unfold occurrences. by rewrite filter_app, length_app. Qed.

Lemma occurrences_cons v k l :
  occurrences v (k :: l) = (if bool_decide (k = v) then 1 else 0) + occurrences v l.
Proof.
  unfold occurrences. rewrite filter_cons.
  case_bool_decide; destruct (decide (k = v)); simpl; congruence.
Qed.

Lemma occurrences_snoc v k l :
  occurrences v (l ++ [k]) = occurrences v l + (if bool_decide (k = v) then 1 else 0).
Proof.
  rewrite occurrences_app, occurrences_cons.
  change (occurrences v []) with 0. lia.
Qed.

Lemma occurrences_pos v l : occurrences v l ≠ 0 → ∃ j, l !! j = Some v.
Proof.
  unfold occurrences. intros H.
  destruct (filter (λ k, k = v) l) as [|x xs] eqn:E; [done|].
  assert (x ∈ filter (λ k, k = v) l) as Hx by (rewrite E; left).
  apply list_elem_of_filter in Hx as [-> Hx].
  by apply list_elem_of_lookup.
Qed.

Lemma counted_pending m l : counted m l → pending m l.
Proof.
  intros H v. specialize (H v). destruct (m !! v) as [[n|]|]; try done.
  destruct H as [? ->]. done.
Qed.

Lemma counted_empty : counted ∅ [].
Proof. intros v. rewrite lookup_empty. by right. Qed.

Lemma counted_step m l key :
  counted m l → counted (count_key m key) (l ++ [key]).
Proof.
  intros H v. unfold count_key.
  pose proof (H key) as Hk. pose proof (H v) as Hv.
  rewrite occurrences_snoc.
  destruct (decide (key = v)) as [->|Hne].
  - rewrite (bool_decide_eq_true_2 (v = v)) by done.
    destruct (m !! v) as [[n|]|] eqn:E.
    + rewrite lookup_insert_eq. destruct Hv. split; [done|lia].
    + by rewrite lookup_insert_eq.
    + destruct (inherited v) eqn:Ei.
      * case_bool_decide.
        -- rewrite E. by left.
        -- by rewrite lookup_insert_eq.
      * rewrite lookup_insert_eq. destruct Hv as [|Hv]; [done|]. split; [done|lia].
  - rewrite (bool_decide_eq_false_2 (key = v)) by done. rewrite Nat.add_0_r.
    destruct (m !! key) as [[n|]|] eqn:E.
    + by rewrite lookup_insert_ne.
    + by rewrite lookup_insert_ne.
    + destruct (inherited key).
      * case_bool_decide; [done|]. by rewrite lookup_insert_ne.
      * by rewrite lookup_insert_ne.
Qed.

Lemma counted_foldl l : counted (foldl count_key ∅ l) l.
Proof.
  induction l as [|key l IH] using rev_ind.
  - apply counted_empty.
  - rewrite foldl_snoc. by apply counted_step.
Qed.

Lemma rename_from_snoc seen l v :
  rename_from seen (l ++ [v])
  = rename_from seen l ++ [new_name v (occurrences v (seen ++ l))].
Proof.
  revert seen. induction l as [|k l IH]; intros seen; simpl.
  - by rewrite app_nil_r.
  - rewrite IH. by rewrite <- app_assoc.
Qed.

Lemma rename_from_lookup seen l i v :
  l !! i = Some v →
  rename_from seen l !! i = Some (new_name v (occurrences v (seen ++ take i l))).
Proof.
  revert seen i. induction l as [|k l IH]; intros seen [|i] H; simpl in *; try done.
  - injection H as ->. by rewrite app_nil_r.
  - rewrite (IH _ _ H). by rewrite <- app_assoc.
Qed.

Lemma rename_from_length seen l : length (rename_from seen l) = length l.
Proof. revert seen. induction l; intros; simpl; auto. Qed.

Lemma rename_loop_spec l : ∀ m acc,
  pending m l → rename_loop (rev l) m acc = rename_from [] l ++ acc.
Proof.
  induction l as [|key l IH] using rev_ind; intros m acc H; [done|].
  rewrite rev_unit, rename_from_snoc. simpl.
  pose proof (H key) as Hk. rewrite occurrences_snoc in Hk.
  rewrite bool_decide_eq_true_2 in Hk by done.
  assert (∀ m', (∀ v, v ≠ key → m' !! v = m !! v) →
           match m' !! key with
           | Some (Num n) => inherited key = false ∧ n = pred (occurrences key l)
           | Some NaN => inherited key = true
           | None => inherited key = true ∨ occurrences key l = 0
           end → pending m' l) as Hstep.
  { intros m' Hother Hkey v. destruct (decide (v = key)) as [->|Hne]; [done|].
    rewrite Hother by done. specialize (H v). rewrite occurrences_snoc in H.
    rewrite bool_decide_eq_false_2 in H by done. by rewrite Nat.add_0_r in H. }
  unfold new_name.
  destruct (m !! key) as [[[|n]|]|] eqn:E.
  - destruct Hk as [Hi Hn]. rewrite Hi.
    assert (occurrences key l = 0) as Hz by lia.
    rewrite Hz. simpl. rewrite IH.
    + by rewrite <- app_assoc.
    + apply Hstep; [done|]. rewrite E. split; [done|lia].
  - destruct Hk as [Hi Hn]. rewrite Hi.
    assert (occurrences key l = S n) as Hz by lia.
    rewrite Hz. rewrite bool_decide_eq_false_2 by done. rewrite IH.
    + by rewrite <- app_assoc.
    + apply Hstep.
      * intros v Hne. by rewrite lookup_insert_ne.
      * rewrite lookup_insert_eq. split; [done|lia].
  - rewrite Hk. rewrite IH.
    + by rewrite <- app_assoc.
    + apply Hstep; [done|]. by rewrite E.
  - destruct Hk as [Hk|Hk]; [|lia]. rewrite Hk. rewrite IH.
    + by rewrite <- app_assoc.
    + apply Hstep; [done|]. rewrite E. by left.
Qed.

Lemma uniquify_rename_from keys : uniquify keys = rename_from [] keys.
Proof.
  unfold uniquify. rewrite rename_loop_spec.
  - apply app_nil_r.
  - apply counted_pending, counted_foldl.
Qed.

Lemma uniquify_lookup keys i v :
  keys !! i = Some v →
  uniquify keys !! i = Some (new_name v (occurrences v (take i keys))).
Proof. intros H. rewrite uniquify_rename_from. by apply rename_from_lookup. Qed.

Lemma uniquify_length keys : length (uniquify keys) = length keys.
Proof. rewrite uniquify_rename_from. apply rename_from_length. Qed.

(** The first occurrence of a value keeps it, and the last of its [k]
    occurrences gets the suffix [k - 1]. *)
Lemma occurrences_none v l : v ∉ l → occurrences v l = 0.
Proof.
  intros H. destruct (decide (occurrences v l = 0)) as [|Hne]; [done|].
  apply occurrences_pos in Hne as [j Hj]. exfalso. apply H.
  by eapply list_elem_of_lookup_2.
Qed.

Lemma occurrences_last keys i v :
  keys !! i = Some v → (v ∉ drop (S i) keys) →
  occurrences v keys = S (occurrences v (take i keys)).
Proof.
  intros Hi Hlast. rewrite <- (take_drop_middle keys i v Hi) at 1.
  rewrite occurrences_app, occurrences_cons, bool_decide_eq_true_2 by done.
  rewrite (occurrences_none _ _ Hlast). lia.
Qed.

(** ** Names do not collide *)

Lemma SUFFIX_eq : SUFFIX = [UNDERSCORE; UNDERSCORE].
Proof. reflexivity. Qed.

Lemma has_suffix_mark_app a b : has_suffix_mark (a ++ SUFFIX ++ b) = true.
Proof.
  rewrite SUFFIX_eq. induction a as [|x a IH].
  - cbn. by rewrite !bool_decide_eq_true_2.
  - remember (a ++ [UNDERSCORE; UNDERSCORE] ++ b) as t eqn:E.
    rewrite <- app_comm_cons, <- E. destruct t as [|y r].
    + by destruct a.
    + cbn [has_suffix_mark]. cbn [has_suffix_mark] in IH. rewrite IH.
      apply orb_true_r.
Qed.

Lemma split_at_last {A} (a : A) l1 l2 l1' l2' :
  a ∉ l2 → a ∉ l2' → l1 ++ a :: l2 = l1' ++ a :: l2' → l1 = l1' ∧ l2 = l2'.
Proof.
  intros H2 H2'. revert l1'. induction l1 as [|x l1 IH]; intros [|x' l1'] E;
    simpl in E.
  - by injection E.
  - injection E as E1 E2. subst. exfalso. apply H2, elem_of_app. right. left.
  - injection E as E1 E2. subst. exfalso. apply H2', elem_of_app. right. left.
  - injection E as E1 E2. subst. destruct (IH _ E2) as [E3 E4]. by rewrite E3, E4.
Qed.

Lemma suffixed_inj v w c d :
  v ++ SUFFIX ++ number_to_string c = w ++ SUFFIX ++ number_to_string d →
  v = w ∧ c = d.
Proof.
  rewrite SUFFIX_eq.
  change ([UNDERSCORE; UNDERSCORE] ++ number_to_string c)
    with ([UNDERSCORE] ++ UNDERSCORE :: number_to_string c).
  change ([UNDERSCORE; UNDERSCORE] ++ number_to_string d)
    with ([UNDERSCORE] ++ UNDERSCORE :: number_to_string d).
  rewrite !app_assoc. intros E.
  apply split_at_last in E as [E1 E2];
    auto using number_to_string_no_underscore.
  apply app_inj_tail in E1 as [-> _].
  split; [done|]. by apply number_to_string_inj.
Qed.

Lemma occurrences_take_lt keys i j v :
  keys !! i = Some v → i < j →
  occurrences v (take i keys) < occurrences v (take j keys).
Proof.
  intros Hi Hij.
  rewrite <- (take_drop_middle keys i v Hi) at 2.
  rewrite take_app_ge by (rewrite length_take; lia).
  rewrite occurrences_app.
  assert (length (take i keys) = i) as ->.
  { rewrite length_take. apply lookup_lt_Some in Hi. lia. }
  destruct (j - i) as [|d] eqn:Ed; [lia|]. simpl.
  rewrite occurrences_cons, bool_decide_eq_true_2 by done. lia.
Qed.

Section unmarked.
(** A header none of whose values contains the suffix mark. *)
Variable keys : list jsstring.
Hypothesis unmarked : Forall (λ k, has_suffix_mark k = false) keys.

Lemma key_unmarked i v : keys !! i = Some v → has_suffix_mark v = false.
Proof.
  intros H. rewrite Forall_forall in unmarked. apply unmarked.
  by eapply list_elem_of_lookup_2.
Qed.

Lemma uniquify_lookup_inv i o :
  uniquify keys !! i = Some o →
  ∃ v, keys !! i = Some v ∧ o = new_name v (occurrences v (take i keys)).
Proof.
  intros Ho. destruct (keys !! i) as [v|] eqn:Hv.
  - rewrite (uniquify_lookup _ _ _ Hv) in Ho. injection Ho as <-. eauto.
  - apply lookup_ge_None in Hv. apply lookup_lt_Some in Ho.
    rewrite uniquify_length in Ho. lia.
Qed.

(** Two keys that are not inherited names get different names. *)
Lemma new_name_inj i j vi vj :
  keys !! i = Some vi → keys !! j = Some vj →
  inherited vi = false → inherited vj = false →
  new_name vi (occurrences vi (take i keys))
  = new_name vj (occurrences vj (take j keys)) →
  i = j.
Proof.
  intros Hi Hj Ii Ij. unfold new_name. rewrite Ii, Ij.
  pose proof (key_unmarked _ _ Hi) as Mi.
  pose proof (key_unmarked _ _ Hj) as Mj.
  assert (∀ a b v, keys !! a = Some v → keys !! b = Some v →
            occurrences v (take a keys) = occurrences v (take b keys) → a = b)
    as Hsame.
  { intros a b v Ha Hb E. destruct (Nat.lt_trichotomy a b) as [L|[->|L]]; [|done|].
    - pose proof (occurrences_take_lt keys a b v Ha L). lia.
    - pose proof (occurrences_take_lt keys b a v Hb L). lia. }
  repeat case_bool_decide; intros E.
  - subst vj. eapply Hsame; eauto. congruence.
  - subst vi. by rewrite has_suffix_mark_app in Mi.
  - subst vj. by rewrite has_suffix_mark_app in Mj.
  - apply suffixed_inj in E as [-> E]. eapply Hsame; eauto.
Qed.

Lemma new_name_inherited v c : inherited (new_name v c) = false → inherited v = false.
Proof.
  unfold new_name. destruct (inherited v) eqn:E; [|done]. congruence.
Qed.

Lemma uniquify_NoDup :
  Forall (λ k, inherited k = false) keys → NoDup (uniquify keys).
Proof.
  intros Hinh. apply NoDup_alt. intros i j o Hi Hj.
  apply uniquify_lookup_inv in Hi as (vi & Ki & ->).
  apply uniquify_lookup_inv in Hj as (vj & Kj & Hj).
  rewrite Forall_forall in Hinh.
  apply (new_name_inj i j vi vj); try done.
  - apply Hinh. by eapply list_elem_of_lookup_2.
  - apply Hinh. by eapply list_elem_of_lookup_2.
Qed.
End unmarked.

(** ** The quote-stripping replace *)

Lemma strip_last_quote_snoc body : strip_last_quote (body ++ [QUOTE]) = body.
Proof.
  induction body as [|c body IH]; [done|].
  rewrite <- app_comm_cons. cbn [strip_last_quote].
  destruct (body ++ [QUOTE]) eqn:E; [by destruct body|].
  by rewrite IH.
Qed.

Lemma strip_last_quote_id s : last s ≠ Some QUOTE → strip_last_quote s = s.
Proof.
  induction s as [|c s IH]; [done|]. cbn [strip_last_quote].
  destruct s as [|d s].
  - simpl. intros H. by rewrite bool_decide_eq_false_2 by congruence.
  - intros H. rewrite IH; [done|]. by rewrite last_cons_cons in H.
Qed.

(** Away from index 0 the scan only ever removes a quote at the last
    index. *)
Lemma replace_scan_tail s : ∀ i len,
  i ≠ 0 → len = i + length s → replace_scan i len s = strip_last_quote s.
Proof.
  induction s as [|c s IH]; intros i len Hi Hlen; [done|].
  cbn [replace_scan strip_last_quote].
  rewrite (bool_decide_eq_false_2 (i = 0)) by done. rewrite orb_false_l.
  destruct s as [|d s].
  - simpl in Hlen. rewrite (bool_decide_eq_true_2 (S i = len)) by lia.
    rewrite andb_true_r. by case_bool_decide.
  - simpl in Hlen. rewrite (bool_decide_eq_false_2 (S i = len)) by lia.
    rewrite andb_false_r. f_equal. apply IH; simpl; lia.
Qed.

Lemma strip_quotes_ends s :
  strip_quotes s = strip_last_quote (strip_first_quote s).
Proof.
  unfold strip_quotes. destruct s as [|c s]; [done|].
  cbn [replace_scan strip_first_quote].
  rewrite (bool_decide_eq_true_2 (0 = 0)) by done. rewrite orb_true_l, andb_true_r.
  case_bool_decide as Hc.
  - apply replace_scan_tail; simpl; lia.
  - destruct s as [|d s].
    + simpl. by rewrite bool_decide_eq_false_2.
    + cbn [strip_last_quote]. f_equal. apply replace_scan_tail; simpl; lia.
Qed.

(** ** The parser: cursor movements *)

Lemma matchFailed_cur e st : cur (matchFailed e st) = cur st.
Proof. unfold matchFailed. by repeat case_bool_decide. Qed.

Lemma remaining_matchFailed e st : remaining (matchFailed e st) = remaining st.
Proof. unfold remaining. by rewrite matchFailed_cur. Qed.

Lemma remaining_restore c st : remaining (restore c st) = length (ahead c).
Proof. done. Qed.

Lemma terminal_inv ok e st r st' :
  terminal ok e st = (r, st') →
  (r = None ∧ cur st' = cur st)
  ∨ (∃ c, r = Some c ∧ ok c = true ∧ ahead (cur st) = c :: ahead (cur st')
          ∧ pos (cur st') = S (pos (cur st))).
Proof.
  unfold terminal, charAt. destruct st as [[p a] rp re]. simpl.
  destruct a as [|c a]; simpl.
  - intros [= <- <-]. left. by rewrite matchFailed_cur.
  - destruct (ok c) eqn:Hok; intros [= <- <-].
    + right. by exists c.
    + left. by rewrite matchFailed_cur.
Qed.

Lemma terminal_remaining ok e st r st' :
  terminal ok e st = (r, st') →
  remaining st' ≤ remaining st ∧ (is_Some r → remaining st' < remaining st).
Proof.
  intros H. apply terminal_inv in H as [[-> Hc]|(c & -> & _ & Ha & _)];
    unfold remaining.
  - rewrite Hc. split; [done|]. by intros [? ?].
  - rewrite Ha. simpl. split; [lia|]. intros _. lia.
Qed.

Lemma terminal_hit ok e st c rest :
  ahead (cur st) = c :: rest → ok c = true →
  terminal ok e st = (Some c, advance st).
Proof. unfold terminal, charAt. intros -> Hok. simpl. by rewrite Hok. Qed.

Lemma terminal_miss ok e st :
  match ahead (cur st) with c :: _ => ok c = false | [] => True end →
  terminal ok e st = (None, matchFailed e st).
Proof.
  unfold terminal, charAt. destruct (ahead (cur st)) as [|c a]; simpl; [done|].
  by intros ->.
Qed.

(** ** The parser returns *)

Lemma steady_total {A} fuel (e : pstate → option (option A * pstate)) :
  steady fuel e → total fuel e.
Proof. intros H st Hst. destruct (H st Hst) as (r & st' & ? & ? & ?). eauto. Qed.

(** The three ways the proofs below end: the expression returns, returns
    without having moved, or returns having consumed input. *)
Ltac returns := eexists _, _; split; [done|]; first [done | lia].
Ltac stays := eexists _, _; split; [done|]; split; [done|]; by intros [? ?].
Ltac moves := eexists _, _; split; [done|]; split; [lia|]; intros _; lia.

Section star.
Context {A : Type} (e : pstate → option (option A * pstate)).

(** The loop ends where its body fails. *)
Lemma star_stop n st st' :
  e st = Some (None, st') → star e (S n) st = Some ([], st').
Proof. intros E. simpl. by rewrite E. Qed.

(** What holds of every result of the body holds of the list. *)
Lemma star_Forall (Q : A → Prop) :
  (∀ st x st', e st = Some (Some x, st') → Q x) →
  ∀ n st xs st', star e n st = Some (xs, st') → Forall Q xs.
Proof.
  intros He. induction n as [|n IH]; intros st xs st' H; [done|].
  simpl in H. destruct (e st) as [[[x|] st1]|] eqn:E; simpl in H; try done.
  - destruct (star e n st1) as [[ys st2]|] eqn:E2; simpl in H; [|done].
    injection H as <- <-. constructor; eauto.
  - injection H as <- <-. constructor.
Qed.

(** A body that consumes input whenever it succeeds is run at most once
    per character left, and once more. *)
Lemma star_returns fuel :
  steady fuel e →
  ∀ n st, remaining st < n → remaining st < fuel →
    ∃ xs st', star e n st = Some (xs, st') ∧ remaining st' ≤ remaining st.
Proof.
  intros He. induction n as [|n IH]; intros st Hn Hf; [lia|].
  destruct (He st Hf) as (r & st1 & E & Hle & Hlt). simpl. rewrite E. simpl.
  destruct r as [x|].
  - specialize (Hlt (ltac:(eauto))).
    destruct (IH st1) as (xs & st2 & E2 & Hle2); [lia..|].
    rewrite E2. simpl. returns.
  - returns.
Qed.
End star.

Lemma terminal_steady fuel ok e : steady fuel (λ st, Some (terminal ok e st)).
Proof.
  intros st _. destruct (terminal ok e st) as [r st'] eqn:E.
  apply terminal_remaining in E. returns.
Qed.

Lemma parse_char_steady fuel : steady fuel (λ st, Some (parse_char st)).
Proof.
  intros st _. unfold parse_char.
  destruct (terminal is_quote ExpQuote st) as [r0 st0] eqn:E0.
  pose proof (terminal_remaining _ _ _ _ _ E0) as [H0 H0'].
  destruct r0 as [c0|].
  - destruct (terminal is_quote ExpQuote st0) as [r1 st1] eqn:E1.
    pose proof (terminal_remaining _ _ _ _ _ E1) as [H1 H1'].
    destruct r1 as [c1|].
    + specialize (H0' (ltac:(eauto))). moves.
    + destruct (terminal _ ExpNotQuote (restore (cur st) st1)) as [r2 st2] eqn:E2.
      pose proof (terminal_remaining _ _ _ _ _ E2) as [H2 H2'].
      rewrite remaining_restore in H2, H2'.
      returns.
  - destruct (terminal _ ExpNotQuote (restore (cur st) st0)) as [r2 st2] eqn:E2.
    pose proof (terminal_remaining _ _ _ _ _ E2) as [H2 H2'].
    rewrite remaining_restore in H2, H2'.
    returns.
Qed.

Lemma unquoted_char_steady fuel separator :
  steady fuel (λ st, Some (unquoted_char separator st)).
Proof.
  intros st _. unfold unquoted_char.
  destruct (terminal _ ExpNotLineBreak st) as [r0 st0] eqn:E0.
  pose proof (terminal_remaining _ _ _ _ _ E0) as [H0 H0'].
  destruct r0 as [c0|].
  - case_bool_decide.
    + returns.
    + stays.
  - stays.
Qed.

Lemma quoted_field_total fuel : total fuel (quoted_field fuel).
Proof.
  intros st Hst. unfold quoted_field.
  destruct (terminal is_quote ExpQuote st) as [r0 st0] eqn:E0.
  pose proof (terminal_remaining _ _ _ _ _ E0) as [H0 H0'].
  destruct r0 as [c0|].
  - destruct (star_returns _ fuel (parse_char_steady fuel) fuel st0)
      as (xs & st1 & E1 & H1); [lia..|].
    rewrite E1. simpl.
    destruct (terminal is_quote ExpQuote st1) as [r2 st2] eqn:E2.
    pose proof (terminal_remaining _ _ _ _ _ E2) as [H2 H2'].
    destruct r2.
    + returns.
    + returns.
  - returns.
Qed.

Lemma parse_field_total fuel separator : total fuel (parse_field separator fuel).
Proof.
  intros st Hst. unfold parse_field.
  destruct (quoted_field_total fuel st Hst) as (r0 & st0 & E0 & H0).
  rewrite E0. simpl. destruct r0 as [text|].
  - returns.
  - destruct (star_returns _ fuel (unquoted_char_steady fuel separator) fuel st0)
      as (xs & st1 & E1 & H1); [lia..|].
    rewrite E1. simpl. returns.
Qed.

Lemma separated_field_steady fuel separator :
  steady fuel (separated_field separator fuel).
Proof.
  intros st Hst. unfold separated_field.
  destruct (terminal _ ExpAnyCharacter st) as [r0 st0] eqn:E0.
  pose proof (terminal_remaining _ _ _ _ _ E0) as [H0 H0'].
  destruct r0 as [c0|].
  - specialize (H0' (ltac:(eauto))). case_bool_decide.
    + destruct (parse_field_total fuel separator st0) as (r1 & st1 & E1 & H1);
        [lia|].
      rewrite E1. simpl. destruct r1.
      * moves.
      * stays.
    + stays.
  - stays.
Qed.

Lemma parse_line_total fuel separator : total fuel (parse_line separator fuel).
Proof.
  intros st Hst. unfold parse_line.
  destruct (parse_field_total fuel separator st Hst) as (r0 & st0 & E0 & H0).
  rewrite E0. simpl. destruct r0 as [first|].
  - destruct (star_returns _ fuel (separated_field_steady fuel separator) fuel st0)
      as (xs & st1 & E1 & H1); [lia..|].
    rewrite E1. simpl.
    destruct (bool_decide (first ≠ []) || bool_decide (length xs ≠ 0)).
    + returns.
    + returns.
  - returns.
Qed.

Lemma line_break_steady fuel : steady fuel line_break.
Proof. apply terminal_steady. Qed.

Lemma next_line_steady fuel separator : steady fuel (next_line separator fuel).
Proof.
  intros st Hst. unfold next_line.
  destruct (terminal is_line_break ExpLineBreak st) as [r0 st0] eqn:E0.
  pose proof (terminal_remaining _ _ _ _ _ E0) as [H0 H0'].
  destruct r0 as [c0|].
  - specialize (H0' (ltac:(eauto))).
    destruct (star_returns _ fuel (line_break_steady fuel) fuel st0)
      as (xs & st1 & E1 & H1); [lia..|].
    rewrite E1. simpl.
    destruct (parse_line_total fuel separator st1) as (r2 & st2 & E2 & H2); [lia|].
    rewrite E2. simpl. destruct r2.
    + moves.
    + stays.
  - stays.
Qed.

Lemma parse_sv_total fuel separator : total fuel (parse_sv separator fuel).
Proof.
  intros st Hst. unfold parse_sv.
  destruct (star_returns _ fuel (line_break_steady fuel) fuel st)
    as (xs0 & st0 & E0 & H0); [lia..|].
  rewrite E0. simpl.
  destruct (parse_line_total fuel separator st0) as (r1 & st1 & E1 & H1); [lia|].
  rewrite E1. simpl. destruct r1 as [first|].
  - destruct (star_returns _ fuel (next_line_steady fuel separator) fuel st1)
      as (xs2 & st2 & E2 & H2); [lia..|].
    rewrite E2. simpl.
    destruct (star_returns _ fuel (line_break_steady fuel) fuel st2)
      as (xs3 & st3 & E3 & H3); [lia..|].
    rewrite E3. simpl. returns.
  - returns.
Qed.

Lemma parse_terminates input startRule : parse input startRule ≠ OutOfFuel.
Proof.
  unfold parse.
  destruct (parse_sv_total (S (length input)) (rule_separator startRule)
              (PState (Cursor 0 input) 0 [])) as (r & st & E & _).
  { unfold remaining. simpl. lia. }
  rewrite E. destruct r; [|done]. by case_bool_decide.
Qed.

(** ** Rows and lines are never empty *)

Lemma parse_line_nonempty separator fuel st row st' :
  parse_line separator fuel st = Some (Some row, st') → row ≠ [].
Proof.
  unfold parse_line. intros H.
  destruct (parse_field separator fuel st) as [[[first|] st0]|]; simpl in H;
    try done.
  destruct (star _ fuel st0) as [[rest st1]|]; simpl in H; [|done].
  destruct (_ || _); [|done]. by injection H as <- <-.
Qed.

Lemma next_line_nonempty separator fuel st row st' :
  next_line separator fuel st = Some (Some row, st') → row ≠ [].
Proof.
  unfold next_line. intros H.
  destruct (terminal is_line_break ExpLineBreak st) as [[c|] st0]; [|done].
  destruct (star line_break fuel st0) as [[run st1]|]; simpl in H; [|done].
  destruct (parse_line separator fuel st1) as [[[data|] st2]|] eqn:E;
    simpl in H; try done.
  injection H as <- <-. by eapply parse_line_nonempty.
Qed.

Lemma parse_sv_nonempty separator fuel st table st' :
  parse_sv separator fuel st = Some (Some table, st') →
  table ≠ [] ∧ Forall (λ row, row ≠ []) table.
Proof.
  unfold parse_sv. intros H.
  destruct (star line_break fuel st) as [[run st0]|]; simpl in H; [|done].
  destruct (parse_line separator fuel st0) as [[[first|] st1]|] eqn:E1;
    simpl in H; try done.
  destruct (star (next_line separator fuel) fuel st1) as [[rest st2]|] eqn:E2;
    simpl in H; [|done].
  destruct (star line_break fuel st2) as [[run' st3]|]; simpl in H; [|done].
  injection H as <- <-. split; [done|]. constructor.
  - by eapply parse_line_nonempty.
  - eapply star_Forall; [|exact E2]. intros. by eapply next_line_nonempty.
Qed.

Lemma parse_rows input startRule table :
  parse input startRule = Parsed table →
  table ≠ [] ∧ Forall (λ row, row ≠ []) table.
Proof.
  unfold parse. intros H.
  destruct (parse_sv _ _ _) as [[[t|] st]|] eqn:E; try done.
  case_bool_decide; [done|]. injection H as <-.
  by eapply parse_sv_nonempty.
Qed.

(** ** Single steps of the parser, by what lies ahead *)

#[local] Arguments terminal : simpl never.
#[local] Arguments matchFailed : simpl never.
#[local] Arguments advance : simpl never.

Lemma rule_separator_not_quote r : rule_separator r ≠ QUOTE.
Proof. by destruct r. Qed.

Lemma rule_separator_not_line_break r : is_line_break (rule_separator r) = false.
Proof. by destruct r. Qed.

Lemma cur_advance st c rest :
  ahead (cur st) = c :: rest → cur (advance st) = Cursor (S (pos (cur st))) rest.
Proof. unfold advance. simpl. by intros ->. Qed.

Lemma parse_char_plain st c rest :
  ahead (cur st) = c :: rest → c ≠ QUOTE →
  ∃ st', parse_char st = (Some c, st')
         ∧ cur st' = Cursor (S (pos (cur st))) rest.
Proof.
  intros Ha Hc. unfold parse_char.
  rewrite (terminal_miss is_quote) by (rewrite Ha; by apply bool_decide_eq_false_2).
  simpl. rewrite (terminal_hit _ _ _ c rest).
  - eexists. split; [done|]. by rewrite (cur_advance _ c rest).
  - done.
  - unfold is_quote. by rewrite bool_decide_eq_false_2.
Qed.

Lemma parse_char_escaped st rest :
  ahead (cur st) = QUOTE :: QUOTE :: rest →
  ∃ st', parse_char st = (Some QUOTE, st')
         ∧ cur st' = Cursor (S (S (pos (cur st)))) rest.
Proof.
  intros Ha. unfold parse_char.
  erewrite (terminal_hit is_quote) by done. simpl.
  pose proof (cur_advance _ _ _ Ha) as Ha1.
  erewrite (terminal_hit is_quote); [| by rewrite Ha1 | done]. simpl.
  eexists. split; [done|]. erewrite cur_advance; [|by rewrite Ha1].
  by rewrite Ha1.
Qed.

(** Where a run of quoted characters ends: at the end of input, or at a
    quote that is not followed by a second one. *)
Lemma parse_char_stop st :
  match ahead (cur st) with
  | [] => True
  | c :: rest => c = QUOTE ∧ head rest ≠ Some QUOTE
  end →
  ∃ st', parse_char st = (None, st') ∧ cur st' = cur st.
Proof.
  intros Ha. unfold parse_char.
  destruct (ahead (cur st)) as [|c rest] eqn:E.
  - rewrite (terminal_miss is_quote) by by rewrite E. simpl.
    rewrite terminal_miss by (simpl; by rewrite E).
    eexists. split; [done|]. by rewrite matchFailed_cur.
  - destruct Ha as [-> Hr].
    erewrite (terminal_hit is_quote) by done. simpl.
    pose proof (cur_advance _ _ _ E) as Ha1.
    rewrite (terminal_miss is_quote).
    2:{ rewrite Ha1. simpl. destruct rest as [|d rest]; [done|].
        apply bool_decide_eq_false_2. simpl in Hr. congruence. }
    simpl. rewrite terminal_miss by (simpl; by rewrite E).
    eexists. split; [done|]. by rewrite matchFailed_cur.
Qed.

Lemma unquoted_char_hit separator st c rest :
  ahead (cur st) = c :: rest → is_line_break c = false → c ≠ separator →
  ∃ st', unquoted_char separator st = (Some c, st')
         ∧ cur st' = Cursor (S (pos (cur st))) rest.
Proof.
  intros Ha Hb Hs. unfold unquoted_char.
  erewrite terminal_hit; [|done|by rewrite Hb]. simpl.
  rewrite bool_decide_eq_true_2 by done.
  eexists. split; [done|]. by rewrite (cur_advance _ c rest).
Qed.

Lemma unquoted_char_stop separator st :
  match ahead (cur st) with
  | [] => True
  | c :: _ => is_line_break c = true ∨ c = separator
  end →
  ∃ st', unquoted_char separator st = (None, st') ∧ cur st' = cur st.
Proof.
  intros Ha. unfold unquoted_char.
  destruct (ahead (cur st)) as [|c rest] eqn:E.
  - rewrite terminal_miss by by rewrite E. by eexists.
  - destruct (is_line_break c) eqn:Hb.
    + rewrite terminal_miss by (rewrite E; by rewrite Hb). by eexists.
    + destruct Ha as [Hlb| ->]; [done|].
      erewrite terminal_hit; [|done|by rewrite Hb]. simpl.
      rewrite bool_decide_eq_false_2 by (intros H; by apply H). by eexists.
Qed.

(** ** Runs of characters *)

Lemma cursor_eta (c : cursor) : c = Cursor (pos c) (ahead c).
Proof. by destruct c. Qed.

Lemma star_quoted_chars body : ∀ n st tail,
  ahead (cur st) = double_quotes body ++ tail →
  match tail with
  | [] => True
  | c :: rest => c = QUOTE ∧ head rest ≠ Some QUOTE
  end →
  length body < n →
  ∃ st', star (λ st, Some (parse_char st)) n st = Some (body, st')
         ∧ cur st' = Cursor (pos (cur st) + length (double_quotes body)) tail.
Proof.
  induction body as [|c body IH]; intros [|n] st tail Ha Htail Hn;
    simpl in Hn; try lia.
  - simpl in Ha. destruct (parse_char_stop st) as (st' & E & Hc);
      [by rewrite Ha|].
    simpl. rewrite E. simpl. eexists. split; [done|].
    rewrite Hc, Nat.add_0_r, <- Ha. apply cursor_eta.
  - change (double_quotes (c :: body))
      with ((if bool_decide (c = QUOTE) then [QUOTE; QUOTE] else [c])
              ++ double_quotes body) in *.
    case_bool_decide as Hc.
    + subst c. simpl in Ha.
      destruct (parse_char_escaped st _ Ha) as (st1 & E & Hcur).
      destruct (IH n st1 tail) as (st2 & E2 & Hcur2); [by rewrite Hcur|done|lia|].
      cbn [star]. rewrite E. simpl. rewrite E2. simpl.
      eexists. split; [done|]. rewrite Hcur2, Hcur. simpl. f_equal. lia.
    + simpl in Ha.
      destruct (parse_char_plain st _ _ Ha Hc) as (st1 & E & Hcur).
      destruct (IH n st1 tail) as (st2 & E2 & Hcur2); [by rewrite Hcur|done|lia|].
      cbn [star]. rewrite E. simpl. rewrite E2. simpl.
      eexists. split; [done|]. rewrite Hcur2, Hcur. simpl. f_equal. lia.
Qed.

Lemma star_unquoted_chars separator body : ∀ n st tail,
  ahead (cur st) = body ++ tail →
  Forall (λ c, is_line_break c = false ∧ c ≠ separator) body →
  match tail with
  | [] => True
  | c :: _ => is_line_break c = true ∨ c = separator
  end →
  length body < n →
  ∃ st', star (λ st, Some (unquoted_char separator st)) n st = Some (body, st')
         ∧ cur st' = Cursor (pos (cur st) + length body) tail.
Proof.
  induction body as [|c body IH]; intros [|n] st tail Ha Hbody Htail Hn;
    simpl in Hn; try lia.
  - simpl in Ha. destruct (unquoted_char_stop separator st) as (st' & E & Hc);
      [by rewrite Ha|].
    simpl. rewrite E. simpl. eexists. split; [done|].
    rewrite Hc, Nat.add_0_r, <- Ha. apply cursor_eta.
  - simpl in Ha. apply Forall_cons in Hbody as [[Hb Hs] Hbody].
    destruct (unquoted_char_hit separator st _ _ Ha Hb Hs) as (st1 & E & Hcur).
    destruct (IH n st1 tail) as (st2 & E2 & Hcur2);
      [by rewrite Hcur|done|done|lia|].
    cbn [star]. rewrite E. simpl. rewrite E2. simpl.
    eexists. split; [done|]. rewrite Hcur2, Hcur. simpl. f_equal. lia.
Qed.

Lemma double_quotes_plain body : QUOTE ∉ body → double_quotes body = body.
Proof.
  induction body as [|c body IH]; [done|]. intros H.
  apply not_elem_of_cons in H as [Hc Hb].
  change (double_quotes (c :: body))
    with ((if bool_decide (c = QUOTE) then [QUOTE; QUOTE] else [c])
            ++ double_quotes body).
  rewrite bool_decide_eq_false_2 by congruence. simpl. by rewrite IH.
Qed.

(** ** Fields *)

(** A quoted field that is closed is read by the first alternative. *)
Lemma quoted_field_closed fuel st body rest :
  ahead (cur st) = quoted body ++ rest →
  head rest ≠ Some QUOTE →
  length body < fuel →
  ∃ st', quoted_field fuel st = Some (Some body, st')
         ∧ cur st' = Cursor (pos (cur st) + length (quoted body)) rest.
Proof.
  intros Ha Hrest Hfuel. unfold quoted_field, quoted in *. simpl in Ha.
  erewrite (terminal_hit is_quote) by done. simpl.
  pose proof (cur_advance _ _ _ Ha) as Hcur.
  destruct (star_quoted_chars body fuel (advance st) (QUOTE :: rest))
    as (st1 & E1 & Hcur1); [by rewrite Hcur, <- app_assoc|done|done|].
  rewrite E1. simpl.
  erewrite (terminal_hit is_quote); [| by rewrite Hcur1 | done]. simpl.
  eexists. split; [done|]. rewrite (cur_advance _ QUOTE rest) by by rewrite Hcur1.
  rewrite Hcur1, Hcur. simpl. f_equal. rewrite length_app. simpl. lia.
Qed.

Lemma parse_field_closed separator fuel st body rest :
  ahead (cur st) = quoted body ++ rest →
  head rest ≠ Some QUOTE →
  length body < fuel →
  ∃ st', parse_field separator fuel st = Some (Some body, st')
         ∧ cur st' = Cursor (pos (cur st) + length (quoted body)) rest.
Proof.
  intros Ha Hrest Hfuel. unfold parse_field.
  destruct (quoted_field_closed fuel st body rest) as (st' & E & Hcur); auto.
  rewrite E. simpl. eauto.
Qed.

(** A quote that is never closed: the first alternative runs to the end
    of the input, gives up and leaves the cursor where the field began. *)
Lemma quoted_field_open fuel st text :
  ahead (cur st) = QUOTE :: text →
  QUOTE ∉ text →
  length text < fuel →
  ∃ st', quoted_field fuel st = Some (None, st') ∧ cur st' = cur st.
Proof.
  intros Ha Htext Hfuel. unfold quoted_field.
  erewrite (terminal_hit is_quote) by done. simpl.
  pose proof (cur_advance _ _ _ Ha) as Hcur.
  destruct (star_quoted_chars text fuel (advance st) [])
    as (st1 & E1 & Hcur1);
    [by rewrite Hcur, double_quotes_plain, app_nil_r|done|done|].
  rewrite E1. simpl.
  rewrite (terminal_miss is_quote) by by rewrite Hcur1. simpl.
  by eexists.
Qed.

(** The field is then read again by the second alternative, which takes
    the quote as an ordinary character and stops at the separator, at a
    line break or at the end of the input. *)
Lemma parse_field_open separator fuel st body tail :
  ahead (cur st) = QUOTE :: body ++ tail →
  separator ≠ QUOTE →
  Forall (λ c, c ≠ QUOTE ∧ is_line_break c = false ∧ c ≠ separator) body →
  QUOTE ∉ tail →
  match tail with
  | [] => True
  | c :: _ => is_line_break c = true ∨ c = separator
  end →
  S (length (body ++ tail)) < fuel →
  ∃ st', parse_field separator fuel st = Some (Some (QUOTE :: body), st')
         ∧ cur st' = Cursor (pos (cur st) + S (length body)) tail.
Proof.
  intros Ha Hsep Hbody Htail Hstop Hfuel. unfold parse_field.
  destruct (quoted_field_open fuel st (body ++ tail)) as (st0 & E0 & Hcur0);
    [done| |lia|].
  { intros Hin. apply elem_of_app in Hin as [Hin|Hin]; [|done].
    rewrite Forall_forall in Hbody. by destruct (Hbody _ Hin). }
  rewrite E0. simpl.
  destruct (star_unquoted_chars separator (QUOTE :: body) fuel st0 tail)
    as (st1 & E1 & Hcur1).
  - by rewrite Hcur0.
  - constructor; [split; [done|congruence]|].
    eapply Forall_impl; [exact Hbody|]. by intros c (_ & ? & ?).
  - done.
  - rewrite length_app in Hfuel. simpl. lia.
  - rewrite E1. simpl. eexists. split; [done|]. by rewrite Hcur1, Hcur0.
Qed.

(** ** Lines *)

#[local] Arguments star : simpl never.

Lemma line_break_stop st :
  match ahead (cur st) with
  | [] => True
  | c :: _ => is_line_break c = false
  end →
  ∃ st', line_break st = Some (None, st') ∧ cur st' = cur st.
Proof.
  intros Ha. unfold line_break. rewrite terminal_miss by done.
  eexists. split; [done|]. apply matchFailed_cur.
Qed.

Lemma separated_field_stop separator fuel st :
  match ahead (cur st) with
  | [] => True
  | c :: _ => c ≠ separator
  end →
  ∃ st', separated_field separator fuel st = Some (None, st') ∧ cur st' = cur st.
Proof.
  intros Ha. unfold separated_field.
  destruct (ahead (cur st)) as [|c rest] eqn:E.
  - rewrite terminal_miss by by rewrite E. simpl. by eexists.
  - erewrite terminal_hit by done. simpl.
    rewrite bool_decide_eq_false_2 by done. by eexists.
Qed.

Lemma next_line_stop separator fuel st :
  match ahead (cur st) with
  | [] => True
  | c :: _ => is_line_break c = false
  end →
  ∃ st', next_line separator fuel st = Some (None, st') ∧ cur st' = cur st.
Proof.
  intros Ha. unfold next_line. rewrite terminal_miss by done. simpl. by eexists.
Qed.

(** A line made of one field that opens a quote and never closes it. *)
Lemma parse_line_open separator fuel st body :
  ahead (cur st) = QUOTE :: body →
  separator ≠ QUOTE →
  Forall (λ c, c ≠ QUOTE ∧ is_line_break c = false ∧ c ≠ separator) body →
  S (length body) < fuel →
  ∃ st', parse_line separator fuel st = Some (Some [QUOTE :: body], st')
         ∧ cur st' = Cursor (pos (cur st) + S (length body)) [].
Proof.
  intros Ha Hsep Hbody Hfuel. unfold parse_line.
  destruct (parse_field_open separator fuel st body []) as (st0 & E0 & Hcur0);
    rewrite ?app_nil_r; auto using not_elem_of_nil.
  rewrite E0. simpl.
  destruct (separated_field_stop separator fuel st0) as (st1 & E1 & Hcur1);
    [by rewrite Hcur0|].
  destruct fuel as [|fuel]; [lia|].
  rewrite (star_stop _ _ _ _ E1). simpl.
  eexists. split; [done|]. by rewrite Hcur1.
Qed.

(** Where no field can start, at the end of input or before a line
    break, there is no line: the single empty field is refused by the
    predicate of [parse_line]. *)
Lemma parse_line_nothing r fuel st :
  0 < fuel →
  match ahead (cur st) with
  | [] => True
  | c :: _ => is_line_break c = true
  end →
  ∃ st', parse_line (rule_separator r) fuel st = Some (None, st')
         ∧ cur st' = cur st.
Proof.
  intros Hfuel Ha. destruct fuel as [|fuel]; [lia|].
  unfold parse_line, parse_field, quoted_field.
  rewrite (terminal_miss is_quote).
  2:{ destruct (ahead (cur st)) as [|c rest]; [done|].
      apply bool_decide_eq_false_2. intros ->. done. }
  simpl.
  destruct (unquoted_char_stop (rule_separator r)
              (restore (cur st) (matchFailed ExpQuote st))) as (st1 & E1 & Hcur1).
  { simpl. destruct (ahead (cur st)); [done|]. by left. }
  erewrite star_stop by (by rewrite E1). simpl.
  destruct (separated_field_stop (rule_separator r) (S fuel) st1)
    as (st2 & E2 & Hcur2).
  { rewrite Hcur1. simpl. destruct (ahead (cur st)) as [|c rest]; [done|].
    intros ->. by rewrite rule_separator_not_line_break in Ha. }
  rewrite (star_stop _ _ _ _ E2). simpl. by eexists.
Qed.


(** ** Whole inputs *)

Lemma parse_quoted r body :
  body ≠ [] → parse (quoted body) r = Parsed [[body]].
Proof.
  intros Hbody. unfold parse, parse_sv.
  set (st := PState (Cursor 0 (quoted body)) 0 []).
  set (fuel := length (quoted body)).
  assert (length body < S fuel) as Hfuel.
  { subst fuel. unfold quoted. simpl. rewrite length_app.
    assert (length body ≤ length (double_quotes body)); [|lia].
    clear. induction body as [|c body IH]; [done|].
    change (double_quotes (c :: body))
      with ((if bool_decide (c = QUOTE) then [QUOTE; QUOTE] else [c])
              ++ double_quotes body).
    rewrite length_app. case_bool_decide; simpl; lia. }
  destruct (line_break_stop st) as (st0 & E0 & Hcur0); [done|].
  rewrite (star_stop _ _ _ _ E0). simpl.
  unfold parse_line.
  destruct (parse_field_closed (rule_separator r) (S fuel) st0 body [])
    as (st1 & E1 & Hcur1); [by rewrite Hcur0, app_nil_r|done|done|].
  rewrite E1. simpl.
  destruct (separated_field_stop (rule_separator r) (S fuel) st1)
    as (st2 & E2 & Hcur2); [by rewrite Hcur1|].
  rewrite (star_stop _ _ _ _ E2). simpl.
  rewrite (bool_decide_eq_true_2 (body ≠ [])) by done. simpl.
  destruct (next_line_stop (rule_separator r) (S fuel) st2) as (st3 & E3 & Hcur3);
    [by rewrite Hcur2, Hcur1|].
  rewrite (star_stop _ _ _ _ E3). simpl.
  destruct (line_break_stop st3) as (st4 & E4 & Hcur4);
    [by rewrite Hcur3, Hcur2, Hcur1|].
  rewrite (star_stop _ _ _ _ E4). simpl.
  rewrite Hcur4, Hcur3, Hcur2, Hcur1, Hcur0. simpl.
  by rewrite bool_decide_eq_false_2 by (intros H; by apply H).
Qed.

(** ** The separator detector *)

Lemma detectSeparator_found csv : ∃ c, detectSeparator csv = Some c ∧ c ∈ separators.
Proof.
  unfold detectSeparator, separators. cbn [foldl]. unfold detect_step.
  repeat case_bool_decide; eexists; (split; [done|]); repeat constructor.
Qed.

Lemma detectSeparator_none_found csv :
  Forall (λ sep, match_count sep csv = 0) separators →
  detectSeparator csv = Some COMMA.
Proof.
  unfold separators. intros H.
  apply Forall_cons in H as [H1 H]. apply Forall_cons in H as [H2 H].
  apply Forall_cons in H as [H3 _].
  unfold detectSeparator, separators. cbn [foldl]. unfold detect_step.
  rewrite H1, H2. rewrite bool_decide_eq_false_2 by lia.
  rewrite H1, H3. by rewrite bool_decide_eq_false_2 by lia.
Qed.

(** The ways [read_table] fails: an empty input, a separator option that
    names no rule, a syntax error.  Never by an undetected separator,
    never for want of fuel. *)
Lemma read_table_error csv options e :
  read_table csv options = inl e →
  e = errorEmpty ∨ e = errorHost
  ∨ ∃ se, e = errorSyntax se (source_line csv (offset se)).
Proof.
  unfold read_table. case_bool_decide; [intros [= <-]; by left|].
  destruct (detectSeparator_found csv) as (c & -> & _).
  assert (∀ chosen : jsstring,
    match start_rule chosen with
    | Some startRule =>
        match parse csv startRule with
        | Parsed a =>
            inr (if transpose options then zip a
                 else (λ row : list jsstring, Some <$> row) <$> a)
        | Rejected e => inl (errorSyntax e (source_line csv (offset e)))
        | OutOfFuel => inl errorOutOfFuel
        end
    | None => inl errorHost
    end = inl e →
    e = errorEmpty ∨ e = errorHost
    ∨ ∃ se, e = errorSyntax se (source_line csv (offset se))) as Hrest.
  { intros chosen. destruct (start_rule chosen) as [r|]; [|intros [= <-]; auto].
    pose proof (parse_terminates csv r).
    destruct (parse csv r); [done| |done]. intros [= <-]. eauto. }
  destruct (separator options) as [[|x s]|]; simpl; apply Hrest.
Qed.

Lemma read_table_detects csv options :
  read_table csv options ≠ inl errorDetectingSeparator.
Proof.
  intros H. by apply read_table_error in H as [?|[?|[? ?]]].
Qed.

(** ** The transposer and the header *)

Lemma longest_bound (args : list (list jsstring)) : ∀ init,
  length init ≤ length (foldl (λ a b, if bool_decide (length b < length a) then a else b) init args)
  ∧ Forall (λ row, length row ≤ length (foldl (λ a b, if bool_decide (length b < length a) then a else b) init args)) args.
Proof.
  induction args as [|b args IH]; intros init; simpl; [done|].
  case_bool_decide.
  - destruct (IH init) as [H1 H2]. split; [done|]. constructor; [lia|done].
  - destruct (IH b) as [H1 H2]. split; [lia|]. constructor; [lia|done].
Qed.

Lemma zip_header (a : list (list jsstring)) :
  a ≠ [] → Forall (λ row, row ≠ []) a →
  ∃ rest, zip a = ((λ array : list jsstring, array !! 0) <$> a) :: rest.
Proof.
  intros Ha Hrows. unfold zip.
  destruct (longest a) as [|x xs] eqn:E.
  - exfalso. destruct a as [|row a]; [done|].
    apply Forall_cons in Hrows as [Hrow _].
    destruct (longest_bound (row :: a) []) as [_ H].
    apply Forall_cons in H as [H _]. unfold longest in E. rewrite E in H.
    destruct row; [done|]. simpl in H. lia.
  - simpl. eauto.
Qed.

Lemma read_table_header csv options a :
  read_table csv options = inr a →
  ∃ keys rows, a = keys :: rows ∧ keys ≠ [].
Proof.
  unfold read_table. case_bool_decide; [done|].
  destruct (match separator options with
            | Some (c :: s) => Some (c :: s)
            | _ => (λ c : char, [c]) <$> detectSeparator csv
            end) as [chosen|]; [|done].
  destruct (start_rule chosen) as [startRule|]; [|done].
  destruct (parse csv startRule) as [t| |] eqn:E; try done.
  apply parse_rows in E as [Ht Hrows]. intros [= <-].
  destruct (transpose options).
  - destruct (zip_header t Ht Hrows) as (rest & ->).
    eexists _, _. split; [done|]. by destruct t.
  - destruct t as [|row t]; [done|]. apply Forall_cons in Hrows as [Hrow _].
    simpl. eexists _, _. split; [done|]. by destruct row.
Qed.

Lemma header_keys_error a e :
  header_keys a = inl e →
  e = errorHost ∨ (e = errorEmptyHeader ∧ ∃ rows, a = [] :: rows).
Proof.
  unfold header_keys. destruct a as [|keys a]; [intros [= <-]; by left|].
  case_bool_decide as Hlen.
  - intros [= <-]. right. split; [done|]. destruct keys; [eauto|done].
  - destruct (mapM _ keys); [done|]. intros [= <-]. by left.
Qed.

Lemma convert_header_found csv options :
  convert csv options ≠ inl errorEmptyHeader.
Proof.
  unfold convert. destruct (read_table csv options) as [e|a] eqn:E.
  - intros [= ->]. by apply read_table_error in E as [?|[?|[? ?]]].
  - destruct (returnArray options); [done|].
    apply read_table_header in E as (keys & rows & -> & Hkeys).
    destruct (header_keys (keys :: rows)) as [e|[ks a]] eqn:Ek; [|done].
    intros [= ->]. apply header_keys_error in Ek as [?|[_ [? ?]]]; congruence.
Qed.

(** [convert] returns: no loop of the parser is cut short. *)
Lemma convert_returns csv options : convert csv options ≠ inl errorOutOfFuel.
Proof.
  unfold convert. destruct (read_table csv options) as [e|a] eqn:E.
  - intros [= ->]. by apply read_table_error in E as [?|[?|[? ?]]].
  - destruct (returnArray options); [done|].
    destruct (header_keys a) as [e|[ks rows]] eqn:Ek; [|done].
    intros [= ->]. by apply header_keys_error in Ek as [?|[? _]].
Qed.

Lemma convert_detects csv options :
  convert csv options ≠ inl errorDetectingSeparator.
Proof.
  unfold convert. destruct (read_table csv options) as [e|a] eqn:E.
  - intros [= ->]. by apply read_table_detects in E.
  - destruct (returnArray options); [done|].
    destruct (header_keys a) as [e|[ks rows]] eqn:Ek; [|done].
    intros [= ->]. by apply header_keys_error in Ek as [?|[? _]].
Qed.

(** ** The record mapper in array mode *)

Lemma assign_own {V} (f : V → bool) key v (o : object V) :
  key ≠ PROTO → own (assign f key v o) = <[key := v]> (own o).
Proof.
  intros H. unfold assign. by rewrite (bool_decide_eq_false_2 (key = PROTO)).
Qed.

Lemma fill_row_other options al keys : ∀ i row hashKey k,
  hash options = false → PROTO ∉ keys → k ∉ keys →
  own (fill_row options al i keys (row, hashKey)).1 !! k = own row !! k.
Proof.
  induction keys as [|key keys IH]; intros i row hashKey k Hh Hp Hk; [done|].
  apply not_elem_of_cons in Hp as [Hp1 Hp2].
  apply not_elem_of_cons in Hk as [Hk1 Hk2].
  cbn [fill_row]. rewrite Hh. cbn [andb]. rewrite IH by done.
  rewrite assign_own by done. by rewrite lookup_insert_ne.
Qed.

Lemma fill_row_at options al keys : ∀ i row hashKey j key,
  hash options = false → PROTO ∉ keys → NoDup keys →
  keys !! j = Some key →
  own (fill_row options al i keys (row, hashKey)).1 !! key
  = Some (cell_value options (clean (default [] (mjoin (al !! (i + j)))))).
Proof.
  induction keys as [|k keys IH]; intros i row hashKey j key Hh Hp Hnd Hj;
    [done|].
  apply not_elem_of_cons in Hp as [Hp1 Hp2].
  apply NoDup_cons in Hnd as [Hk Hnd].
  cbn [fill_row]. rewrite Hh. cbn [andb].
  destruct j as [|j]; simpl in Hj.
  - injection Hj as ->. rewrite fill_row_other by done.
    rewrite assign_own by done. rewrite lookup_insert_eq.
    by rewrite Nat.add_0_r.
  - rewrite (IH (S i) _ _ j key) by done.
    by replace (S i + j) with (i + S j) by lia.
Qed.

Lemma fill_row_dom options al keys : ∀ i row hashKey,
  hash options = false → PROTO ∉ keys →
  dom (own (fill_row options al i keys (row, hashKey)).1)
  = list_to_set keys ∪ dom (own row).
Proof.
  induction keys as [|k keys IH]; intros i row hashKey Hh Hp.
  - simpl. by rewrite (left_id_L ∅ (∪)).
  - apply not_elem_of_cons in Hp as [Hp1 Hp2].
    cbn [fill_row]. rewrite Hh. cbn [andb]. rewrite IH by done.
    rewrite assign_own by done. rewrite dom_insert_L. simpl.
    rewrite !(assoc_L (∪)). f_equal. apply (comm_L (∪)).
Qed.

Lemma build_row_size options keys al :
  hash options = false → PROTO ∉ keys → NoDup keys →
  size (own (build_row options keys al).1) = length keys.
Proof.
  intros Hh Hp Hnd. rewrite <- size_dom. unfold build_row.
  rewrite fill_row_dom by done. simpl.
  rewrite dom_empty_L, (right_id_L ∅ (∪)). by apply size_list_to_set.
Qed.

(** ** The header keys *)

Lemma header_keys_inv a keys rows :
  header_keys a = inr (keys, rows) →
  ∃ header cleaned,
    a = header :: rows ∧ header ≠ []
    ∧ mapM (λ key : option jsstring, clean <$> key) header = Some cleaned
    ∧ keys = uniquify cleaned.
Proof.
  unfold header_keys. destruct a as [|header a]; [done|].
  case_bool_decide as Hlen; [done|].
  destruct (mapM _ header) as [cleaned|] eqn:E; [|done].
  intros [= <- <-]. eexists _, _. repeat split; try done.
  by destruct header.
Qed.

Lemma uniquify_nonempty keys :
  Forall (λ k, k ≠ []) keys → Forall (λ k, k ≠ []) (uniquify keys).
Proof.
  intros H. apply Forall_lookup. intros i o Ho.
  destruct (keys !! i) as [v|] eqn:Hv.
  2:{ apply lookup_ge_None in Hv. apply lookup_lt_Some in Ho.
      rewrite uniquify_length in Ho. lia. }
  rewrite (uniquify_lookup _ _ _ Hv) in Ho. injection Ho as <-.
  rewrite Forall_lookup in H. specialize (H _ _ Hv).
  unfold new_name. destruct (inherited v); [done|].
  case_bool_decide; [done|]. by destruct v.
Qed.

(** * The claims of the specification *)

(** ** Header de-duplication *)

(** C1, as the code has it.  [uniquify] numbers the occurrences of a
    repeated value from the left: the key at index [i] with value [v],
    that has [c] equal keys to its left, keeps [v] when [c] is 0 (the
    first occurrence, and every value that occurs once) and is renamed to
    [v__c] otherwise, so the occurrences of a value that occurs k times
    are named v, v__1, ..., v__(k-1) from left to right: the first one
    stays bare and the last one gets the suffix k-1.  A value that is
    the name of a property of [Object.prototype] is never renamed.  The
    result has the length of the header, and the header x, x, x becomes
    x, x__1, x__2. *)
Theorem uniquify_numbers_from_the_left :
  (∀ (keys : list jsstring) i v,
     keys !! i = Some v →
     uniquify keys !! i
     = Some (let c := occurrences v (take i keys) in
             if inherited v then v
             else if bool_decide (c = 0) then v
             else v ++ lit "__" ++ number_to_string c))
  ∧ (∀ (keys : list jsstring) i v,
       keys !! i = Some v → (v ∉ take i keys) → uniquify keys !! i = Some v)
  ∧ (∀ (keys : list jsstring) i v k,
       keys !! i = Some v → (v ∉ drop (S i) keys) → inherited v = false →
       occurrences v keys = S (S k) →
       uniquify keys !! i = Some (v ++ lit "__" ++ number_to_string (S k)))
  ∧ (∀ keys, length (uniquify keys) = length keys)
  ∧ uniquify [lit "x"; lit "x"; lit "x"] = [lit "x"; lit "x__1"; lit "x__2"].
Proof.
  split; [|split; [|split; [|split]]].
  - intros keys i v H. by rewrite (uniquify_lookup _ _ _ H).
  - intros keys i v H Hfirst. rewrite (uniquify_lookup _ _ _ H).
    unfold new_name. rewrite (occurrences_none _ _ Hfirst).
    by destruct (inherited v).
  - intros keys i v k H Hlast Hv Hk. rewrite (uniquify_lookup _ _ _ H).
    rewrite (occurrences_last _ _ _ H Hlast) in Hk. injection Hk as ->.
    unfold new_name. by rewrite Hv.
  - apply uniquify_length.
  - vm_compute. reflexivity.
Qed.

Lemma uniquify_numbers_from_the_left_witness :
  [lit "x"; lit "y"; lit "x"] !! 2 = Some (lit "x")
  ∧ (lit "x" ∉ drop 3 [lit "x"; lit "y"; lit "x"])
  ∧ inherited (lit "x") = false
  ∧ occurrences (lit "x") [lit "x"; lit "y"; lit "x"] = 2
  ∧ uniquify [lit "x"; lit "y"; lit "x"] !! 2
    = Some (lit "x" ++ lit "__" ++ number_to_string 1).
Proof.
  assert (lit "x" ∉ drop 3 [lit "x"; lit "y"; lit "x"]) as Hlast
    by apply not_elem_of_nil.
  split; [reflexivity|]. split; [exact Hlast|].
  split; [reflexivity|]. split; [reflexivity|].
  apply (proj1 (proj2 (proj2 uniquify_numbers_from_the_left))
           [lit "x"; lit "y"; lit "x"] 2 (lit "x") 0);
    [reflexivity|exact Hlast|reflexivity|reflexivity].
Defined.

(** C1, as stated, fails: the header x, x, x does not become
    x__2, x__1, x; the last occurrence is not the one left bare. *)
Lemma uniquify_last_occurrence_not_bare :
  uniquify [lit "x"; lit "x"; lit "x"] ≠ [lit "x__2"; lit "x__1"; lit "x"].
Proof. vm_compute. discriminate. Qed.

(** C9.  On a header none of whose values contains the suffix mark (two
    consecutive underscores), applying [uniquify] twice gives the same
    list as applying it once. *)
Theorem uniquify_idempotent (keys : list jsstring) :
  Forall (λ k, has_suffix_mark k = false) keys →
  uniquify (uniquify keys) = uniquify keys.
Proof.
  intros Hmark. apply list_eq. intros i.
  destruct (uniquify keys !! i) as [o|] eqn:Ho.
  - rewrite (uniquify_lookup _ _ _ Ho).
    f_equal. unfold new_name at 1. destruct (inherited o) eqn:Io; [done|].
    case_bool_decide as Hocc; [done|]. exfalso.
    apply occurrences_pos in Hocc as [j Hj].
    apply lookup_take_Some in Hj as [Hj Hlt].
    apply (uniquify_lookup_inv keys) in Ho as (vi & Hi & ->).
    apply (uniquify_lookup_inv keys) in Hj as (vj & Hjk & Hj).
    assert (j = i); [|lia].
    apply (new_name_inj keys Hmark j i vj vi); try done.
    + rewrite Hj in Io. by eapply new_name_inherited.
    + by eapply new_name_inherited.
  - apply lookup_ge_None in Ho. apply lookup_ge_None.
    by rewrite uniquify_length.
Qed.

Lemma uniquify_idempotent_witness :
  Forall (λ k, has_suffix_mark k = false) [lit "a"; lit "b"; lit "a"]
  ∧ uniquify (uniquify [lit "a"; lit "b"; lit "a"])
    = uniquify [lit "a"; lit "b"; lit "a"].
Proof.
  split; [repeat constructor|].
  apply (uniquify_idempotent [lit "a"; lit "b"; lit "a"]). repeat constructor.
Defined.

(** C6, as the code has it.  When conversion succeeds in a mode other
    than the raw one, the keys the records are built with are the
    cleaned values of the first row passed through [uniquify]; they are
    pairwise distinct when no cleaned value contains the suffix mark and
    none is the name of a property of [Object.prototype], and they are
    all non-empty when every cleaned value is non-empty. *)
Theorem header_keys_unique_without_marks csv options out :
  returnArray options = false →
  convert csv options = inr out →
  ∃ header rows cleaned,
    read_table csv options = inr (header :: rows)
    ∧ mapM (λ key : option jsstring, clean <$> key) header = Some cleaned
    ∧ out = records options (uniquify cleaned) rows
    ∧ (Forall (λ k, has_suffix_mark k = false ∧ inherited k = false) cleaned →
       NoDup (uniquify cleaned))
    ∧ (Forall (λ k, k ≠ []) cleaned → Forall (λ k, k ≠ []) (uniquify cleaned)).
Proof.
  intros Hraw. unfold convert.
  destruct (read_table csv options) as [e|a]; [done|]. rewrite Hraw.
  destruct (header_keys a) as [e|[keys rows]] eqn:E; [done|].
  intros [= <-].
  apply header_keys_inv in E as (header & cleaned & -> & _ & Hclean & ->).
  exists header, rows, cleaned. repeat split; try done.
  - intros H. apply uniquify_NoDup.
    + eapply Forall_impl; [exact H|]. by intros k [? _].
    + eapply Forall_impl; [exact H|]. by intros k [_ ?].
  - apply uniquify_nonempty.
Qed.

Lemma header_keys_unique_without_marks_witness :
  ∃ header rows cleaned,
    read_table (lit "a,b,a") no_options = inr (header :: rows)
    ∧ mapM (λ key : option jsstring, clean <$> key) header = Some cleaned
    ∧ OutArray [] = records no_options (uniquify cleaned) rows
    ∧ (Forall (λ k, has_suffix_mark k = false ∧ inherited k = false) cleaned →
       NoDup (uniquify cleaned))
    ∧ (Forall (λ k, k ≠ []) cleaned → Forall (λ k, k ≠ []) (uniquify cleaned)).
Proof.
  apply (header_keys_unique_without_marks (lit "a,b,a") no_options (OutArray []));
    vm_compute; reflexivity.
Defined.

(** C6, as stated, fails.  The input ,a converts, and its keys are the
    empty string and a; the input x__1,x,x converts, and its keys are
    x__1, x and x__1 again. *)
Lemma header_keys_empty_or_repeated :
  (convert (lit ",a") no_options = inr (OutArray [])
   ∧ read_table (lit ",a") no_options = inr [[Some []; Some (lit "a")]]
   ∧ header_keys [[Some []; Some (lit "a")]] = inr ([[]; lit "a"], [])
   ∧ ¬ Forall (λ k : jsstring, k ≠ []) [[]; lit "a"])
  ∧ (convert (lit "x__1,x,x") no_options = inr (OutArray [])
     ∧ read_table (lit "x__1,x,x") no_options
       = inr [[Some (lit "x__1"); Some (lit "x"); Some (lit "x")]]
     ∧ header_keys [[Some (lit "x__1"); Some (lit "x"); Some (lit "x")]]
       = inr ([lit "x__1"; lit "x"; lit "x__1"], [])
     ∧ ¬ NoDup [lit "x__1"; lit "x"; lit "x__1"]).
Proof.
  split; (split; [vm_compute; reflexivity|]);
    (split; [vm_compute; reflexivity|]); (split; [vm_compute; reflexivity|]).
  - intros H. by apply Forall_cons in H as [H _].
  - intros H. apply NoDup_cons in H as [H _]. apply H.
    right. left.
Qed.

(** ** Cleaning *)

(** C5, as the code has it.  After trimming, the replace removes a
    double quote at the front if there is one, and a double quote at the
    back if there is one, each whether or not the other end carries one:
    a value with a quote at one end only loses that quote, a value
    between two quotes loses both, a value with a quote at neither end
    is unchanged. *)
Theorem clean_strips_each_end :
  (∀ s, clean s = strip_last_quote (strip_first_quote (trim s)))
  ∧ (∀ body, last body ≠ Some QUOTE → strip_quotes (QUOTE :: body) = body)
  ∧ (∀ body, head body ≠ Some QUOTE → strip_quotes (body ++ [QUOTE]) = body)
  ∧ (∀ body, strip_quotes (QUOTE :: body ++ [QUOTE]) = body)
  ∧ (∀ s, head s ≠ Some QUOTE → last s ≠ Some QUOTE → strip_quotes s = s).
Proof.
  repeat split.
  - intros s. apply strip_quotes_ends.
  - intros body H. rewrite strip_quotes_ends. simpl.
    by apply strip_last_quote_id.
  - intros body H. rewrite strip_quotes_ends.
    destruct body as [|c body]; [done|]. simpl in *.
    rewrite bool_decide_eq_false_2 by congruence.
    apply (strip_last_quote_snoc (c :: body)).
  - intros body. rewrite strip_quotes_ends. simpl.
    apply strip_last_quote_snoc.
  - intros s Hh Hl. rewrite strip_quotes_ends.
    destruct s as [|c s]; [done|]. simpl in Hh. cbn [strip_first_quote].
    rewrite bool_decide_eq_false_2 by congruence.
    by apply strip_last_quote_id.
Qed.

Lemma clean_strips_each_end_witness :
  last (lit "abc") ≠ Some QUOTE ∧ strip_quotes (QUOTE :: lit "abc") = lit "abc".
Proof.
  split; [vm_compute; discriminate|].
  apply (proj1 (proj2 clean_strips_each_end) (lit "abc")).
  vm_compute. discriminate.
Defined.

(** C5, as stated, fails: a value that carries a double quote at its
    front only is changed, the quote is removed. *)
Lemma one_sided_quote_is_stripped :
  head (QUOTE :: lit "abc") = Some QUOTE
  ∧ last (QUOTE :: lit "abc") ≠ Some QUOTE
  ∧ clean (QUOTE :: lit "abc") = lit "abc"
  ∧ clean (QUOTE :: lit "abc") ≠ QUOTE :: lit "abc".
Proof. repeat split; vm_compute; (reflexivity || discriminate). Qed.

(** ** The grammar parser *)

(** C3.  A quoted field is decoded to its content: for every content
    [body], whatever separators, line breaks and quotes it contains, the
    text made of a quote, [body] with each of its quotes doubled, and a
    quote, when it is not followed by one more quote, is read by
    [parse_field] as the field [body], with the cursor left after the
    closing quote; as a whole input it parses to the single row that
    holds [body].  The input of the two lines QUOTE a,b QUOTE ,c and 1,2
    parses with the comma rule to the rows (a,b  c) and (1  2); a line
    break between quotes stays in the field; and the quoted field
    he said QUOTE QUOTE hi QUOTE QUOTE decodes to he said QUOTE hi QUOTE. *)
Theorem quoted_field_decodes :
  (∀ separator fuel st body rest,
     ahead (cur st) = quoted body ++ rest →
     head rest ≠ Some QUOTE →
     length body < fuel →
     ∃ st', parse_field separator fuel st = Some (Some body, st')
            ∧ cur st' = Cursor (pos (cur st) + length (quoted body)) rest)
  ∧ (∀ r body, body ≠ [] → parse (quoted body) r = Parsed [[body]])
  ∧ parse (QUOTE :: lit "a,b" ++ QUOTE :: lit ",c" ++ LF :: lit "1,2") comma
    = Parsed [[lit "a,b"; lit "c"]; [lit "1"; lit "2"]]
  ∧ parse (QUOTE :: lit "a" ++ LF :: lit "b" ++ QUOTE :: lit ",c") comma
    = Parsed [[lit "a" ++ LF :: lit "b"; lit "c"]]
  ∧ parse (QUOTE :: lit "he said " ++ [QUOTE; QUOTE] ++ lit "hi"
             ++ [QUOTE; QUOTE; QUOTE]) comma
    = Parsed [[lit "he said " ++ QUOTE :: lit "hi" ++ [QUOTE]]].
Proof.
  split; [|split; [|repeat split; vm_compute; reflexivity]].
  - intros. by apply parse_field_closed.
  - apply parse_quoted.
Qed.

Lemma quoted_field_decodes_witness :
  lit "a;b" ≠ [] ∧ parse (quoted (lit "a;b")) semicolon = Parsed [[lit "a;b"]].
Proof.
  split; [vm_compute; discriminate|].
  apply (proj1 (proj2 quoted_field_decodes) semicolon (lit "a;b")).
  vm_compute. discriminate.
Defined.

(** C4, as the code has it.  A double quote that opens a field and is
    never closed raises no syntax error: the quoted alternative of
    [parse_field] is given up, and the field is read as an unquoted one
    whose text begins with the quote and ends at the next separator or
    line break, or at the end of the input.  For every text made of a
    double quote followed by characters none of which is a double quote,
    a line break or the separator, parsing succeeds with the single row
    whose one field is the whole text.  By contrast QUOTE ab QUOTE c, a
    closed quoted field followed by a stray character, is rejected at
    offset 4, line 1, column 5, where c stands. *)
Theorem open_quote_read_as_unquoted :
  (∀ separator fuel st body tail,
     ahead (cur st) = QUOTE :: body ++ tail →
     separator ≠ QUOTE →
     Forall (λ c, c ≠ QUOTE ∧ is_line_break c = false ∧ c ≠ separator) body →
     (QUOTE ∉ tail) →
     match tail with
     | [] => True
     | c :: _ => is_line_break c = true ∨ c = separator
     end →
     S (length (body ++ tail)) < fuel →
     ∃ st', parse_field separator fuel st = Some (Some (QUOTE :: body), st')
            ∧ cur st' = Cursor (pos (cur st) + S (length body)) tail)
  ∧ (∀ r body,
       Forall (λ c, c ≠ QUOTE ∧ is_line_break c = false ∧ c ≠ rule_separator r) body →
       parse (QUOTE :: body) r = Parsed [[QUOTE :: body]])
  ∧ parse (QUOTE :: lit "ab" ++ QUOTE :: lit "c") comma
    = Rejected (SyntaxError [ExpQuote; ExpLineBreak] (Some 99%N) 4 1 5).
Proof.
  split; [apply parse_field_open|]. split; [|vm_compute; reflexivity].
  intros r body Hbody. unfold parse, parse_sv.
  set (st := PState (Cursor 0 (QUOTE :: body)) 0 []).
  set (fuel := length (QUOTE :: body)).
  destruct (line_break_stop st) as (st0 & E0 & Hcur0); [done|].
  rewrite (star_stop _ _ _ _ E0). simpl.
  destruct (parse_line_open (rule_separator r) (S fuel) st0 body)
    as (st1 & E1 & Hcur1);
    [by rewrite Hcur0|apply rule_separator_not_quote|done|subst fuel; simpl; lia|].
  rewrite E1. simpl.
  destruct (next_line_stop (rule_separator r) (S fuel) st1) as (st2 & E2 & Hcur2);
    [by rewrite Hcur1|].
  rewrite (star_stop _ _ _ _ E2). simpl.
  destruct (line_break_stop st2) as (st3 & E3 & Hcur3);
    [by rewrite Hcur2, Hcur1|].
  rewrite (star_stop _ _ _ _ E3). simpl.
  rewrite Hcur3, Hcur2, Hcur1, Hcur0. simpl.
  by rewrite bool_decide_eq_false_2 by (intros H; by apply H).
Qed.

Lemma open_quote_read_as_unquoted_witness :
  Forall (λ c, c ≠ QUOTE ∧ is_line_break c = false ∧ c ≠ rule_separator tab)
         (lit "a, b")
  ∧ parse (QUOTE :: lit "a, b") tab = Parsed [[QUOTE :: lit "a, b"]].
Proof.
  assert (Forall (λ c, c ≠ QUOTE ∧ is_line_break c = false ∧ c ≠ rule_separator tab)
                 (lit "a, b")) as H.
  { repeat constructor; vm_compute; discriminate. }
  split; [exact H|].
  exact (proj1 (proj2 open_quote_read_as_unquoted) tab (lit "a, b") H).
Defined.

(** C4, as stated, fails: the input QUOTE abc, whose only field opens
    a quote that is never closed, parses; no syntax error is raised. *)
Lemma open_quote_is_no_syntax_error :
  parse (QUOTE :: lit "abc") comma = Parsed [[QUOTE :: lit "abc"]]
  ∧ ∀ e, parse (QUOTE :: lit "abc") comma ≠ Rejected e.
Proof. split; [vm_compute; reflexivity|]. intros e. vm_compute. discriminate. Qed.

(** C10.  A table the parser returns has at least one row, and each of
    its rows has at least one field; where a line would consist of one
    empty unquoted field and nothing else, at the end of input or before
    a line break, [parse_line] fails and leaves the cursor in place.
    Hence the table [convert] takes the header from, transposed or not,
    starts with a row that is not empty, and [convert] never fails with
    the empty-header error. *)
Theorem parsed_table_has_header :
  (∀ input startRule table,
     parse input startRule = Parsed table →
     table ≠ [] ∧ Forall (λ row, row ≠ []) table)
  ∧ (∀ r fuel st,
       0 < fuel →
       match ahead (cur st) with
       | [] => True
       | c :: _ => is_line_break c = true
       end →
       ∃ st', parse_line (rule_separator r) fuel st = Some (None, st')
              ∧ cur st' = cur st)
  ∧ (∀ csv options a,
       read_table csv options = inr a →
       ∃ keys rows, a = keys :: rows ∧ keys ≠ [])
  ∧ (∀ csv options, convert csv options ≠ inl errorEmptyHeader).
Proof.
  split; [|split; [|split]].
  - apply parse_rows.
  - apply parse_line_nothing.
  - apply read_table_header.
  - apply convert_header_found.
Qed.

Lemma parsed_table_has_header_witness :
  parse (lit "a,b") comma = Parsed [[lit "a"; lit "b"]]
  ∧ [[lit "a"; lit "b"]] ≠ []
  ∧ Forall (λ row : list jsstring, row ≠ []) [[lit "a"; lit "b"]].
Proof.
  assert (parse (lit "a,b") comma = Parsed [[lit "a"; lit "b"]]) as H
    by (vm_compute; reflexivity).
  split; [exact H|].
  exact (proj1 parsed_table_has_header (lit "a,b") comma [[lit "a"; lit "b"]] H).
Defined.

(** ** convert *)

(** C2, at the inputs where the code departs from it.  [detectSeparator]
    takes the first candidate whatever its count, so it always finds a
    separator: for a text in which comma, semicolon and tab all occur
    zero times it answers comma, the guard of [convert] for an undetected
    separator is never taken, and [convert] never fails with
    [errorDetectingSeparator]; the input abc, which has none of the three
    characters, converts, to no records. *)
Theorem convert_never_fails_to_detect :
  (∀ csv options, convert csv options ≠ inl errorDetectingSeparator)
  ∧ (∀ csv, Forall (λ sep, match_count sep csv = 0) separators →
            detectSeparator csv = Some COMMA)
  ∧ Forall (λ sep, match_count sep (lit "abc") = 0) separators
  ∧ convert (lit "abc") no_options = inr (OutArray []).
Proof.
  split; [|split; [|split]].
  - apply convert_detects.
  - apply detectSeparator_none_found.
  - repeat constructor.
  - vm_compute. reflexivity.
Qed.

Lemma convert_never_fails_to_detect_witness :
  Forall (λ sep, match_count sep (lit "abc") = 0) separators
  ∧ detectSeparator (lit "abc") = Some COMMA.
Proof.
  assert (Forall (λ sep, match_count sep (lit "abc") = 0) separators) as H
    by repeat constructor.
  split; [exact H|].
  exact (proj1 (proj2 convert_never_fails_to_detect) (lit "abc") H).
Defined.

(** The part of C7 that the code meets.  In array mode, when the table
    has the header keys [keys] and the data rows [rows], the keys being
    pairwise distinct and none of them being the name [__proto__], there
    are as
    many keys as the header row has columns, and [convert] returns as
    many records as there are data rows, in the order of the rows; every
    record has exactly as many keys as the header, and the record of a
    row holds, under the key of column [i], the value of the cleaned
    cell [i] of that row (the empty text where the row is short). *)
Theorem array_mode_records csv options a keys rows :
  hash options = false →
  returnArray options = false →
  read_table csv options = inr a →
  header_keys a = inr (keys, rows) →
  NoDup keys →
  PROTO ∉ keys →
  ∃ header records,
    a = header :: rows
    ∧ length keys = length header
    ∧ convert csv options = inr (OutArray records)
    ∧ length records = length rows
    ∧ Forall (λ record, size record = length keys) records
    ∧ ∀ l row i key,
        rows !! l = Some row → keys !! i = Some key →
        ∃ record,
          records !! l = Some record
          ∧ record !! key
            = Some (cell_value options (clean (default [] (mjoin (row !! i))))).
Proof.
  intros Hh Hraw Ha Hk Hnd Hp.
  destruct (header_keys_inv _ _ _ Hk) as (header & cleaned & Hhd & _ & Hclean & Hu).
  exists header, (array_rows options keys rows).
  split; [done|]. split.
  { rewrite Hu, uniquify_length. symmetry. by eapply length_mapM. }
  unfold convert. rewrite Ha, Hraw, Hk. unfold records. rewrite Hh.
  split; [done|]. unfold array_rows. split; [by rewrite length_fmap|].
  split.
  - apply Forall_fmap, Forall_forall. intros al _. simpl.
    by apply build_row_size.
  - intros l row i key Hl Hi. eexists. rewrite list_lookup_fmap, Hl. simpl.
    split; [done|]. unfold build_row.
    by rewrite (fill_row_at _ _ _ _ _ _ i key).
Qed.

Lemma array_mode_records_witness :
  ∃ header records,
    [[Some (lit "a"); Some (lit "b")];
     [Some (lit "1"); Some (lit "2")]; [Some (lit "3"); Some (lit "4")]]
    = header :: [[Some (lit "1"); Some (lit "2")]; [Some (lit "3"); Some (lit "4")]]
    ∧ 2 = length header
    ∧ convert (lit "a,b" ++ LF :: lit "1,2" ++ LF :: lit "3,4") no_options
      = inr (OutArray records)
    ∧ length records = 2
    ∧ Forall (λ record, size record = 2) records
    ∧ ∀ l row i key,
        [[Some (lit "1"); Some (lit "2")]; [Some (lit "3"); Some (lit "4")]] !! l
        = Some row →
        [lit "a"; lit "b"] !! i = Some key →
        ∃ record,
          records !! l = Some record
          ∧ record !! key
            = Some (cell_value no_options (clean (default [] (mjoin (row !! i))))).
Proof.
  apply (array_mode_records
           (lit "a,b" ++ LF :: lit "1,2" ++ LF :: lit "3,4") no_options
           [[Some (lit "a"); Some (lit "b")];
            [Some (lit "1"); Some (lit "2")]; [Some (lit "3"); Some (lit "4")]]
           [lit "a"; lit "b"]
           [[Some (lit "1"); Some (lit "2")]; [Some (lit "3"); Some (lit "4")]]);
    try (vm_compute; reflexivity).
  - apply NoDup_cons. split; [|apply NoDup_singleton].
    intros H. apply list_elem_of_singleton in H. vm_compute in H. discriminate.
  - intros H. apply elem_of_cons in H as [H|H]; [vm_compute in H; discriminate|].
    apply list_elem_of_singleton in H. vm_compute in H. discriminate.
Defined.

(** C7, at the input where the code departs from it.  The input of the
    two lines __proto__,b and 1,2 is rectangular, with one data row and
    the two distinct header keys __proto__ and b; the assignment
    [row[keys[i]] = value] for the key [__proto__] goes to the accessor
    inherited from [Object.prototype], which ignores a string, so the one
    record that [convert] returns has the single key b, not two keys. *)
Theorem proto_header_loses_a_key :
  read_table (lit "__proto__,b" ++ LF :: lit "1,2") no_options
  = inr [[Some PROTO; Some (lit "b")]; [Some (lit "1"); Some (lit "2")]]
  ∧ header_keys [[Some PROTO; Some (lit "b")]; [Some (lit "1"); Some (lit "2")]]
    = inr ([PROTO; lit "b"], [[Some (lit "1"); Some (lit "2")]])
  ∧ NoDup [PROTO; lit "b"]
  ∧ convert (lit "__proto__,b" ++ LF :: lit "1,2") no_options
    = inr (OutArray [{[ lit "b" := VString (lit "2") ]}])
  ∧ size ({[ lit "b" := VString (lit "2") ]} : gmap jsstring value) = 1.
Proof.
  split; [vm_compute; reflexivity|]. split; [vm_compute; reflexivity|].
  split.
  - apply NoDup_cons. split; [|apply NoDup_singleton].
    intros H. apply list_elem_of_singleton in H. vm_compute in H. discriminate.
  - split; [vm_compute; reflexivity|]. apply map_size_singleton.
Qed.

(** C8.  With [parseNumbers] set and [parseJSON] unset, the cell text 42
    gives the number 42 and the cell text 42a gives the string 42a; the
    empty text is never taken for a number, although the host would
    convert it to 0, and gives the empty string, whatever the options;
    and every text that is not numeric is stored unchanged.  The input of the lines n, 42 and
    42a converts to the records n: 42 and n: the string 42a. *)
Theorem parseNumbers_cells :
  (∀ options,
     parseNumbers options = true → parseJSON options = false →
     cell_value options (lit "42") = VNumber (Number false 42 0)
     ∧ cell_value options (lit "42a") = VString (lit "42a")
     ∧ cell_value options [] = VString []
     ∧ ∀ text, string_is_numeric text = false →
               cell_value options text = VString text)
  ∧ (∀ options, cell_value options [] = VString [])
  ∧ string_is_numeric [] = true
  ∧ convert (lit "n" ++ LF :: lit "42" ++ LF :: lit "42a")
            {| separator := Some [COMMA]; parseNumbers := true;
               parseJSON := false; transpose := false; hash := false;
               returnArray := false |}
    = inr (OutArray [ {[ lit "n" := VNumber (Number false 42 0) ]};
                      {[ lit "n" := VString (lit "42a") ]} ]).
Proof.
  split; [|split; [|split; vm_compute; reflexivity]].
  2:{ intros options. unfold cell_value.
      destruct (parseJSON options), (parseNumbers options); vm_compute; reflexivity. }
  intros options Hn Hj. unfold cell_value. rewrite Hn, Hj. cbn [orb andb].
  split; [vm_compute; reflexivity|]. split; [vm_compute; reflexivity|].
  split; [vm_compute; reflexivity|].
  intros text Hnum. rewrite Hnum. by destruct (bool_decide (text = [])).
Qed.

Lemma parseNumbers_cells_witness :
  cell_value {| separator := None; parseNumbers := true; parseJSON := false;
                transpose := false; hash := false; returnArray := false |}
             (lit "42")
  = VNumber (Number false 42 0).
Proof.
  apply (proj1 parseNumbers_cells
           {| separator := None; parseNumbers := true; parseJSON := false;
              transpose := false; hash := false; returnArray := false |});
    reflexivity.
Defined.

(** * Further properties of the code *)

(** ** The parser stays within its input *)

Lemma tracks_matchFailed input e st :
  tracks input st →
  tracks input (matchFailed e st)
  ∧ rightmostFailuresPos st ≤ rightmostFailuresPos (matchFailed e st).
Proof.
  intros [[Ha Hp] Hr]. unfold matchFailed, tracks, within.
  repeat case_bool_decide; simpl; repeat split; try done; lia.
Qed.

Lemma tracks_restore input c st :
  within input c → tracks input st → tracks input (restore c st).
Proof. intros Hc [_ Hr]. by split. Qed.

Lemma rightmost_restore c st :
  rightmostFailuresPos (restore c st) = rightmostFailuresPos st.
Proof. done. Qed.

Lemma tracks_terminal input ok e st r st' :
  tracks input st → terminal ok e st = (r, st') →
  tracks input st' ∧ rightmostFailuresPos st ≤ rightmostFailuresPos st'.
Proof.
  intros Ht. unfold terminal, charAt.
  destruct (ahead (cur st)) as [|c rest] eqn:Ea; simpl.
  - intros [= <- <-]. by apply tracks_matchFailed.
  - destruct (ok c); intros [= <- <-]; [|by apply tracks_matchFailed].
    destruct Ht as [[Ha Hp] Hr]. split; [|done].
    unfold tracks, within, advance. simpl. rewrite Ea. simpl.
    rewrite Ea in Ha.
    assert (pos (cur st) < length input) as Hlt.
    { destruct (decide (pos (cur st) < length input)) as [|Hge]; [done|].
      rewrite drop_ge in Ha by lia. done. }
    repeat split; [|lia|done].
    replace (drop (S (pos (cur st))) input) with (drop 1 (drop (pos (cur st)) input))
      by (rewrite drop_drop; f_equal; lia).
    by rewrite <- Ha.
Qed.

Section sound.
Context (input : jsstring).

Lemma star_unfold {A} (e : pstate → option (option A * pstate)) n st :
  star e (S n) st
  = '(r, st) ← e st;
    match r with
    | Some x => '(result, st) ← star e n st; Some (x :: result, st)
    | None => Some ([], st)
    end.
Proof. done. Qed.

Lemma tracks_star {A} (e : pstate → option (option A * pstate)) n st xs st' :
  sound input e → tracks input st → star e n st = Some (xs, st') →
  tracks input st' ∧ rightmostFailuresPos st ≤ rightmostFailuresPos st'.
Proof.
  intros He. revert st xs st'. induction n as [|n IH]; intros st xs st' Ht H;
    [done|].
  rewrite star_unfold in H.
  destruct (e st) as [[[x|] st1]|] eqn:E; simpl in H; try done.
  - destruct (He _ _ _ Ht E) as [Ht1 Hr1].
    destruct (star e n st1) as [[ys st2]|] eqn:E2; simpl in H; [|done].
    injection H as <- <-.
    destruct (IH _ _ _ Ht1 E2) as [Ht2 Hr2]. split; [done|lia].
  - injection H as <- <-. by apply (He _ _ _ Ht E).
Qed.

Lemma sound_terminal ok e : sound input (λ st, Some (terminal ok e st)).
Proof. intros st r st' Ht [= E]. by eapply tracks_terminal. Qed.

Lemma sound_parse_char : sound input (λ st, Some (parse_char st)).
Proof.
  intros st r st' Ht [= E]. revert E. unfold parse_char.
  pose proof Ht as [Hc _].
  destruct (terminal is_quote ExpQuote st) as [r0 st0] eqn:E0.
  destruct (tracks_terminal _ _ _ _ _ _ Ht E0) as [Ht0 Hr0].
  destruct r0 as [c0|].
  - destruct (terminal is_quote ExpQuote st0) as [r1 st1] eqn:E1.
    destruct (tracks_terminal _ _ _ _ _ _ Ht0 E1) as [Ht1 Hr1].
    destruct r1 as [c1|].
    + intros [= <- <-]. split; [done|lia].
    + intros E2.
      destruct (tracks_terminal _ _ _ _ _ _ (tracks_restore _ _ _ Hc Ht1) E2)
        as [Ht2 Hr2].
      rewrite rightmost_restore in Hr2. split; [done|lia].
  - intros E2.
    destruct (tracks_terminal _ _ _ _ _ _ (tracks_restore _ _ _ Hc Ht0) E2)
      as [Ht2 Hr2].
    rewrite rightmost_restore in Hr2. split; [done|lia].
Qed.

Lemma sound_unquoted_char separator :
  sound input (λ st, Some (unquoted_char separator st)).
Proof.
  intros st r st' Ht [= E]. revert E. unfold unquoted_char.
  pose proof Ht as [Hc _].
  destruct (terminal _ ExpNotLineBreak st) as [r0 st0] eqn:E0.
  destruct (tracks_terminal _ _ _ _ _ _ Ht E0) as [Ht0 Hr0].
  destruct r0 as [c0|]; [case_bool_decide|]; intros [= <- <-];
    (split; [|done]); try done; by apply tracks_restore.
Qed.

Lemma sound_quoted_field fuel : sound input (quoted_field fuel).
Proof.
  intros st r st' Ht. unfold quoted_field. pose proof Ht as [Hc _].
  destruct (terminal is_quote ExpQuote st) as [r0 st0] eqn:E0.
  destruct (tracks_terminal _ _ _ _ _ _ Ht E0) as [Ht0 Hr0].
  destruct r0 as [c0|].
  - destruct (star _ fuel st0) as [[xs st1]|] eqn:E1; simpl; [|done].
    destruct (tracks_star _ _ _ _ _ sound_parse_char Ht0 E1) as [Ht1 Hr1].
    destruct (terminal is_quote ExpQuote st1) as [r2 st2] eqn:E2.
    destruct (tracks_terminal _ _ _ _ _ _ Ht1 E2) as [Ht2 Hr2].
    destruct r2; intros [= <- <-].
    + split; [done|lia].
    + split; [by apply tracks_restore|]. rewrite rightmost_restore. lia.
  - intros [= <- <-]. split; [by apply tracks_restore|done].
Qed.

Lemma sound_parse_field separator fuel : sound input (parse_field separator fuel).
Proof.
  intros st r st' Ht. unfold parse_field.
  destruct (quoted_field fuel st) as [[r0 st0]|] eqn:E0; simpl; [|done].
  destruct (sound_quoted_field _ _ _ _ Ht E0) as [Ht0 Hr0].
  destruct r0 as [text|]; [by intros [= <- <-]|].
  destruct (star _ fuel st0) as [[xs st1]|] eqn:E1; simpl; [|done].
  destruct (tracks_star _ _ _ _ _ (sound_unquoted_char separator) Ht0 E1)
    as [Ht1 Hr1].
  intros [= <- <-]. split; [done|lia].
Qed.

Lemma sound_separated_field separator fuel :
  sound input (separated_field separator fuel).
Proof.
  intros st r st' Ht. unfold separated_field. pose proof Ht as [Hc _].
  destruct (terminal _ ExpAnyCharacter st) as [r0 st0] eqn:E0.
  destruct (tracks_terminal _ _ _ _ _ _ Ht E0) as [Ht0 Hr0].
  destruct r0 as [c0|].
  - case_bool_decide.
    + destruct (parse_field separator fuel st0) as [[r1 st1]|] eqn:E1; simpl;
        [|done].
      destruct (sound_parse_field _ _ _ _ _ Ht0 E1) as [Ht1 Hr1].
      destruct r1; intros [= <- <-].
      * split; [done|lia].
      * split; [by apply tracks_restore|]. rewrite rightmost_restore. lia.
    + intros [= <- <-]. split; [by apply tracks_restore|done].
  - intros [= <- <-]. split; [by apply tracks_restore|done].
Qed.

Lemma sound_parse_line separator fuel : sound input (parse_line separator fuel).
Proof.
  intros st r st' Ht. unfold parse_line. pose proof Ht as [Hc _].
  destruct (parse_field separator fuel st) as [[r0 st0]|] eqn:E0; simpl; [|done].
  destruct (sound_parse_field _ _ _ _ _ Ht E0) as [Ht0 Hr0].
  destruct r0 as [first|].
  - destruct (star _ fuel st0) as [[xs st1]|] eqn:E1; simpl; [|done].
    destruct (tracks_star _ _ _ _ _ (sound_separated_field separator fuel) Ht0 E1)
      as [Ht1 Hr1].
    destruct (_ || _); intros [= <- <-].
    + split; [done|lia].
    + split; [by apply tracks_restore|]. rewrite rightmost_restore. lia.
  - intros [= <- <-]. split; [by apply tracks_restore|done].
Qed.

Lemma sound_line_break : sound input line_break.
Proof. apply sound_terminal. Qed.

Lemma sound_next_line separator fuel : sound input (next_line separator fuel).
Proof.
  intros st r st' Ht. unfold next_line. pose proof Ht as [Hc _].
  destruct (terminal is_line_break ExpLineBreak st) as [r0 st0] eqn:E0.
  destruct (tracks_terminal _ _ _ _ _ _ Ht E0) as [Ht0 Hr0].
  destruct r0 as [c0|].
  - destruct (star line_break fuel st0) as [[xs st1]|] eqn:E1; simpl; [|done].
    destruct (tracks_star _ _ _ _ _ sound_line_break Ht0 E1) as [Ht1 Hr1].
    destruct (parse_line separator fuel st1) as [[r2 st2]|] eqn:E2; simpl;
      [|done].
    destruct (sound_parse_line _ _ _ _ _ Ht1 E2) as [Ht2 Hr2].
    destruct r2; intros [= <- <-].
    + split; [done|lia].
    + split; [by apply tracks_restore|]. rewrite rightmost_restore. lia.
  - intros [= <- <-]. split; [by apply tracks_restore|done].
Qed.

Lemma sound_parse_sv separator fuel : sound input (parse_sv separator fuel).
Proof.
  intros st r st' Ht. unfold parse_sv. pose proof Ht as [Hc _].
  destruct (star line_break fuel st) as [[xs0 st0]|] eqn:E0; simpl; [|done].
  destruct (tracks_star _ _ _ _ _ sound_line_break Ht E0) as [Ht0 Hr0].
  destruct (parse_line separator fuel st0) as [[r1 st1]|] eqn:E1; simpl; [|done].
  destruct (sound_parse_line _ _ _ _ _ Ht0 E1) as [Ht1 Hr1].
  destruct r1 as [first|].
  - destruct (star (next_line separator fuel) fuel st1) as [[xs2 st2]|] eqn:E2;
      simpl; [|done].
    destruct (tracks_star _ _ _ _ _ (sound_next_line separator fuel) Ht1 E2)
      as [Ht2 Hr2].
    destruct (star line_break fuel st2) as [[xs3 st3]|] eqn:E3; simpl; [|done].
    destruct (tracks_star _ _ _ _ _ sound_line_break Ht2 E3) as [Ht3 Hr3].
    intros [= <- <-]. split; [done|lia].
  - intros [= <- <-]. split; [by apply tracks_restore|]. rewrite rightmost_restore.
    lia.
Qed.

End sound.

Lemma tracks_start input : tracks input (PState (Cursor 0 input) 0 []).
Proof. repeat split; simpl; lia. Qed.

(** ** A recorded failure is never lost *)

Lemma noted_matchFailed e st : noted st → noted (matchFailed e st).
Proof.
  unfold noted, matchFailed. intros H. repeat case_bool_decide; simpl; [done..|].
  by destruct (rightmostFailuresExpected st).
Qed.

Lemma noted_first e st :
  rightmostFailuresPos st = 0 → noted (matchFailed e st).
Proof.
  unfold noted, matchFailed. intros H. rewrite H.
  rewrite bool_decide_eq_false_2 by lia. case_bool_decide; simpl; [done|].
  by destruct (rightmostFailuresExpected st).
Qed.

Lemma noted_terminal ok e st r st' :
  noted st → terminal ok e st = (r, st') → noted st'.
Proof.
  intros H. unfold terminal.
  destruct (charAt st) as [c|]; [destruct (ok c)|]; intros [= <- <-];
    try done; by apply noted_matchFailed.
Qed.

Lemma noted_star {A} (e : pstate → option (option A * pstate)) n st xs st' :
  keeps e → noted st → star e n st = Some (xs, st') → noted st'.
Proof.
  intros He. revert st xs st'. induction n as [|n IH]; intros st xs st' Ht H;
    [done|].
  rewrite star_unfold in H.
  destruct (e st) as [[[x|] st1]|] eqn:E; simpl in H; try done.
  - pose proof (He _ _ _ Ht E) as Ht1.
    destruct (star e n st1) as [[ys st2]|] eqn:E2; simpl in H; [|done].
    injection H as <- <-. by eapply IH.
  - injection H as <- <-. by apply (He _ _ _ Ht E).
Qed.

Lemma keeps_parse_char : keeps (λ st, Some (parse_char st)).
Proof.
  intros st r st' Ht [= E]. revert E. unfold parse_char.
  destruct (terminal is_quote ExpQuote st) as [r0 st0] eqn:E0.
  pose proof (noted_terminal _ _ _ _ _ Ht E0) as Ht0.
  destruct r0 as [c0|].
  - destruct (terminal is_quote ExpQuote st0) as [r1 st1] eqn:E1.
    pose proof (noted_terminal _ _ _ _ _ Ht0 E1) as Ht1.
    destruct r1 as [c1|]; [by intros [= <- <-]|].
    intros E2. by eapply (noted_terminal _ _ (restore (cur st) st1)).
  - intros E2. by eapply (noted_terminal _ _ (restore (cur st) st0)).
Qed.

Lemma keeps_unquoted_char separator : keeps (λ st, Some (unquoted_char separator st)).
Proof.
  intros st r st' Ht [= E]. revert E. unfold unquoted_char.
  destruct (terminal _ ExpNotLineBreak st) as [r0 st0] eqn:E0.
  pose proof (noted_terminal _ _ _ _ _ Ht E0) as Ht0.
  destruct r0 as [c0|]; [case_bool_decide|]; by intros [= <- <-].
Qed.

Lemma keeps_quoted_field fuel : keeps (quoted_field fuel).
Proof.
  intros st r st' Ht. unfold quoted_field.
  destruct (terminal is_quote ExpQuote st) as [r0 st0] eqn:E0.
  pose proof (noted_terminal _ _ _ _ _ Ht E0) as Ht0.
  destruct r0 as [c0|]; [|by intros [= <- <-]].
  destruct (star _ fuel st0) as [[xs st1]|] eqn:E1; simpl; [|done].
  pose proof (noted_star _ _ _ _ _ keeps_parse_char Ht0 E1) as Ht1.
  destruct (terminal is_quote ExpQuote st1) as [r2 st2] eqn:E2.
  pose proof (noted_terminal _ _ _ _ _ Ht1 E2) as Ht2.
  by destruct r2; intros [= <- <-].
Qed.

Lemma keeps_parse_field separator fuel : keeps (parse_field separator fuel).
Proof.
  intros st r st' Ht. unfold parse_field.
  destruct (quoted_field fuel st) as [[r0 st0]|] eqn:E0; simpl; [|done].
  pose proof (keeps_quoted_field _ _ _ _ Ht E0) as Ht0.
  destruct r0 as [text|]; [by intros [= <- <-]|].
  destruct (star _ fuel st0) as [[xs st1]|] eqn:E1; simpl; [|done].
  pose proof (noted_star _ _ _ _ _ (keeps_unquoted_char separator) Ht0 E1) as Ht1.
  by intros [= <- <-].
Qed.

Lemma keeps_separated_field separator fuel : keeps (separated_field separator fuel).
Proof.
  intros st r st' Ht. unfold separated_field.
  destruct (terminal _ ExpAnyCharacter st) as [r0 st0] eqn:E0.
  pose proof (noted_terminal _ _ _ _ _ Ht E0) as Ht0.
  destruct r0 as [c0|]; [|by intros [= <- <-]].
  case_bool_decide; [|by intros [= <- <-]].
  destruct (parse_field separator fuel st0) as [[r1 st1]|] eqn:E1; simpl; [|done].
  pose proof (keeps_parse_field _ _ _ _ _ Ht0 E1) as Ht1.
  by destruct r1; intros [= <- <-].
Qed.

Lemma keeps_parse_line separator fuel : keeps (parse_line separator fuel).
Proof.
  intros st r st' Ht. unfold parse_line.
  destruct (parse_field separator fuel st) as [[r0 st0]|] eqn:E0; simpl; [|done].
  pose proof (keeps_parse_field _ _ _ _ _ Ht E0) as Ht0.
  destruct r0 as [first|]; [|by intros [= <- <-]].
  destruct (star _ fuel st0) as [[xs st1]|] eqn:E1; simpl; [|done].
  pose proof (noted_star _ _ _ _ _ (keeps_separated_field separator fuel) Ht0 E1)
    as Ht1.
  by destruct (_ || _); intros [= <- <-].
Qed.

Lemma keeps_line_break : keeps line_break.
Proof. intros st r st' Ht [= E]. by eapply noted_terminal. Qed.

Lemma keeps_next_line separator fuel : keeps (next_line separator fuel).
Proof.
  intros st r st' Ht. unfold next_line.
  destruct (terminal is_line_break ExpLineBreak st) as [r0 st0] eqn:E0.
  pose proof (noted_terminal _ _ _ _ _ Ht E0) as Ht0.
  destruct r0 as [c0|]; [|by intros [= <- <-]].
  destruct (star line_break fuel st0) as [[xs st1]|] eqn:E1; simpl; [|done].
  pose proof (noted_star _ _ _ _ _ keeps_line_break Ht0 E1) as Ht1.
  destruct (parse_line separator fuel st1) as [[r2 st2]|] eqn:E2; simpl; [|done].
  pose proof (keeps_parse_line _ _ _ _ _ Ht1 E2) as Ht2.
  by destruct r2; intros [= <- <-].
Qed.

(** The first loop of [parse_sv] ends on a failed line break, which is
    recorded. *)
Lemma noted_line_breaks n : ∀ st xs st',
  rightmostFailuresPos st = 0 → star line_break n st = Some (xs, st') → noted st'.
Proof.
  induction n as [|n IH]; intros st xs st' Hr H; [done|].
  rewrite star_unfold in H.
  change (line_break st) with (Some (terminal is_line_break ExpLineBreak st)) in H.
  destruct (terminal is_line_break ExpLineBreak st) as [[c|] st0] eqn:E0.
  - assert (rightmostFailuresPos st0 = 0) as Hr0.
    { unfold terminal in E0.
      destruct (charAt st) as [d|]; [destruct (is_line_break d)|]; try done.
      by injection E0 as <- <-. }
    simpl in H.
    destruct (star _ n st0) as [[ys st2]|] eqn:E2; simpl in H; [|done].
    injection H as <- <-. by apply (IH st0 ys st2).
  - simpl in H. injection H as <- <-. unfold terminal in E0.
    destruct (charAt st) as [d|]; [destruct (is_line_break d)|]; try done;
      injection E0 as <-; by apply noted_first.
Qed.

Lemma noted_parse_sv separator fuel st r st' :
  rightmostFailuresPos st = 0 → parse_sv separator fuel st = Some (r, st') →
  noted st'.
Proof.
  intros Hr. unfold parse_sv.
  destruct (star line_break fuel st) as [[xs0 st0]|] eqn:E0; simpl; [|done].
  pose proof (noted_line_breaks _ _ _ _ Hr E0) as Ht0.
  destruct (parse_line separator fuel st0) as [[r1 st1]|] eqn:E1; simpl; [|done].
  pose proof (keeps_parse_line _ _ _ _ _ Ht0 E1) as Ht1.
  destruct r1 as [first|]; [|by intros [= <- <-]].
  destruct (star (next_line separator fuel) fuel st1) as [[xs2 st2]|] eqn:E2;
    simpl; [|done].
  pose proof (noted_star _ _ _ _ _ (keeps_next_line separator fuel) Ht1 E2) as Ht2.
  destruct (star line_break fuel st2) as [[xs3 st3]|] eqn:E3; simpl; [|done].
  pose proof (noted_star _ _ _ _ _ keeps_line_break Ht2 E3) as Ht3.
  by intros [= <- <-].
Qed.

(** ** Error positions *)





Lemma scan_positive l : ∀ p,
  1 ≤ line p → 1 ≤ column p →
  1 ≤ line (foldl position_step p l) ∧ 1 ≤ column (foldl position_step p l).
Proof.
  induction l as [|ch l IH]; intros p Hl Hc; [done|]. simpl. apply IH.
  - unfold position_step. repeat case_bool_decide; simpl;
      try destruct (seenCR p); simpl; lia.
  - unfold position_step. repeat case_bool_decide; simpl; lia.
Qed.



(** ** The expectations of a syntax error *)

Lemma rank_inj x y : rank x = rank y → x = y.
Proof. by destruct x, y. Qed.

Lemma insert_sorted_elem e l x : x ∈ insert_sorted e l ↔ x = e ∨ x ∈ l.
Proof.
  induction l as [|y l IH]; simpl.
  - rewrite list_elem_of_singleton. rewrite elem_of_nil. tauto.
  - case_bool_decide.
    + by rewrite elem_of_cons.
    + rewrite !elem_of_cons, IH. tauto.
Qed.

Lemma sorted_elem l x : x ∈ foldr insert_sorted [] l ↔ x ∈ l.
Proof.
  induction l as [|y l IH]; simpl; [done|].
  rewrite insert_sorted_elem, elem_of_cons, IH. tauto.
Qed.

Lemma insert_sorted_nondecreasing e l :
  nondecreasing l → nondecreasing (insert_sorted e l).
Proof.
  induction l as [|y l IH]; intros Hl; [done|]. cbn [insert_sorted].
  case_bool_decide as Hle.
  - by split.
  - destruct l as [|z l]; cbn [insert_sorted nondecreasing].
    + split; [lia|done].
    + destruct Hl as [Hyz Hl]. specialize (IH Hl). cbn [insert_sorted] in IH.
      case_bool_decide; cbn [nondecreasing]; (split; [lia|done]).
Qed.

Lemma sorted_nondecreasing l : nondecreasing (foldr insert_sorted [] l).
Proof.
  induction l as [|y l IH]; [done|]. simpl. by apply insert_sorted_nondecreasing.
Qed.

Lemma nondecreasing_head x l y :
  nondecreasing (x :: l) → y ∈ l → rank x ≤ rank y.
Proof.
  revert x. induction l as [|z l IH]; intros x Hs Hy; [by apply elem_of_nil in Hy|].
  destruct Hs as [Hxz Hs]. apply elem_of_cons in Hy as [->|Hy]; [done|].
  specialize (IH z Hs Hy). lia.
Qed.

Lemma nondecreasing_tail x l : nondecreasing (x :: l) → nondecreasing l.
Proof. destruct l as [|y l]; [done|]. by intros [_ ?]. Qed.

Lemma drop_repeats_elem l : ∀ last x,
  x ∈ drop_repeats last l → x ∈ l.
Proof.
  induction l as [|y l IH]; intros last x; simpl; [done|].
  case_bool_decide as Hy.
  - intros H. right. by eapply IH.
  - rewrite elem_of_cons. intros [->|H]; [left|right; by eapply IH].
Qed.

Lemma drop_repeats_keeps l : ∀ last x,
  x ∈ l → Some x ≠ last → nondecreasing l → x ∈ drop_repeats last l.
Proof.
  induction l as [|y l IH]; intros last x Hx Hlast Hs; [done|]. simpl.
  apply elem_of_cons in Hx as [->|Hx].
  - rewrite bool_decide_eq_false_2 by done. left.
  - pose proof (nondecreasing_tail _ _ Hs) as Hs'.
    case_bool_decide as Hy.
    + by apply IH.
    + destruct (decide (x = y)) as [->|Hne]; [left|].
      right. apply IH; [done|congruence|done].
Qed.

Lemma drop_repeats_ascending l : ∀ last,
  nondecreasing l →
  (∀ z x, last = Some z → x ∈ l → rank z ≤ rank x) →
  ascending (drop_repeats last l)
  ∧ ∀ z x, last = Some z → x ∈ drop_repeats last l → rank z < rank x.
Proof.
  induction l as [|y l IH]; intros last Hs Hlast.
  { split; [done|]. intros z x _ Hx. by apply elem_of_nil in Hx. }
  simpl. pose proof (nondecreasing_tail _ _ Hs) as Hs'.
  case_bool_decide as Hy.
  - apply IH; [done|]. intros z x Hz Hx. apply (Hlast z x Hz). by right.
  - destruct (IH (Some y) Hs') as [Hasc Hgt].
    { intros z x [= <-] Hx. by eapply nondecreasing_head. }
    split.
    + destruct (drop_repeats (Some y) l) as [|w t] eqn:E; [done|].
      split; [|done]. apply (Hgt y w eq_refl). left.
    + intros z x Hz. rewrite elem_of_cons. intros [->|Hx].
      * assert (rank z ≤ rank y) by (apply (Hlast z y Hz); left).
        destruct (decide (rank z = rank y)) as [Heq|]; [|lia].
        apply rank_inj in Heq. congruence.
      * assert (rank z ≤ rank y) by (apply (Hlast z y Hz); left).
        specialize (Hgt y x eq_refl Hx). lia.
Qed.

Lemma cleanupExpected_ascending l : ascending (cleanupExpected l).
Proof.
  unfold cleanupExpected.
  apply drop_repeats_ascending; [apply sorted_nondecreasing|done].
Qed.

Lemma cleanupExpected_elem l x : x ∈ cleanupExpected l ↔ x ∈ l.
Proof.
  unfold cleanupExpected. split.
  - intros H. apply drop_repeats_elem in H. by apply sorted_elem.
  - intros H. apply drop_repeats_keeps; [by apply sorted_elem|done|].
    apply sorted_nondecreasing.
Qed.

(** X2.  [cleanupExpected] returns the expectations it is given, each
    once, in the order of their texts. *)
Theorem cleanupExpected_sorts_and_dedups (l : list expectation) :
  ascending (cleanupExpected l) ∧ ∀ x, x ∈ cleanupExpected l ↔ x ∈ l.
Proof.
  split; [apply cleanupExpected_ascending|apply cleanupExpected_elem].
Qed.

(** ** What a run of the parser guarantees *)

(** X3.  A syntax error points into the input: its offset is at most the
    length of the input, the character found is the one at the offset,
    and none is found exactly when the offset is the end of the input;
    the line and the column are those [computeErrorPosition] gives for
    the offset, both at least 1; and the expectations come sorted and
    without repetition, and there is at least one of them. *)
Theorem syntax_error_within_input input r e :
  parse input r = Rejected e →
  offset e ≤ length input
  ∧ found e = input !! offset e
  ∧ (found e = None ↔ offset e = length input)
  ∧ error_line e = line (computeErrorPosition input (offset e))
  ∧ error_column e = column (computeErrorPosition input (offset e))
  ∧ 1 ≤ error_line e ∧ 1 ≤ error_column e
  ∧ ascending (expected e)
  ∧ expected e ≠ [].
Proof.
  unfold parse.
  destruct (parse_sv _ _ _) as [[res st]|] eqn:E; [|done].
  destruct (sound_parse_sv input _ _ _ _ _ (tracks_start input) E)
    as [[[_ Hp] Hr] _].
  assert (noted st) as Hnoted by (by eapply noted_parse_sv; [|exact E]).
  assert (pos (cur st) `max` rightmostFailuresPos st ≤ length input) as Hoff by lia.
  set (off := pos (cur st) `max` rightmostFailuresPos st) in *.
  assert (∀ e',
    e' = SyntaxError (cleanupExpected (rightmostFailuresExpected st))
           (input !! off) off (line (computeErrorPosition input off))
           (column (computeErrorPosition input off)) →
    offset e' ≤ length input
    ∧ found e' = input !! offset e'
    ∧ (found e' = None ↔ offset e' = length input)
    ∧ error_line e' = line (computeErrorPosition input (offset e'))
    ∧ error_column e' = column (computeErrorPosition input (offset e'))
    ∧ 1 ≤ error_line e' ∧ 1 ≤ error_column e'
    ∧ ascending (expected e')
    ∧ expected e' ≠ []) as Hall.
  { intros e' ->. simpl. split; [done|]. split; [done|]. split.
    { rewrite lookup_ge_None. lia. }
    split; [done|]. split; [done|].
    destruct (scan_positive (take off input) (Position 1 1 false)) as [Hl Hc];
      [simpl; lia..|].
    split; [exact Hl|]. split; [exact Hc|].
    split; [apply cleanupExpected_ascending|].
    unfold noted in Hnoted.
    destruct (rightmostFailuresExpected st) as [|x l] eqn:El; [done|].
    intros Hempty.
    assert (x ∈ cleanupExpected (x :: l)) as Hx by (apply cleanupExpected_elem; left).
    rewrite Hempty in Hx. by apply elem_of_nil in Hx. }
  destruct res as [table|].
  - case_bool_decide; [|done]. intros [= <-]. by apply Hall.
  - intros [= <-]. by apply Hall.
Qed.

Lemma syntax_error_within_input_witness :
  parse (QUOTE :: lit "ab" ++ QUOTE :: lit "c") comma
  = Rejected (SyntaxError [ExpQuote; ExpLineBreak] (Some 99%N) 4 1 5)
  ∧ 4 ≤ length (QUOTE :: lit "ab" ++ QUOTE :: lit "c").
Proof.
  assert (parse (QUOTE :: lit "ab" ++ QUOTE :: lit "c") comma
          = Rejected (SyntaxError [ExpQuote; ExpLineBreak] (Some 99%N) 4 1 5))
    as H by (vm_compute; reflexivity).
  split; [exact H|]. exact (proj1 (syntax_error_within_input _ _ _ H)).
Defined.

(** ** Backtracking *)

Lemma parse_char_fails st st' :
  parse_char st = (None, st') → cur st' = cur st.
Proof.
  unfold parse_char.
  destruct (terminal is_quote ExpQuote st) as [r0 st0] eqn:E0.
  destruct r0 as [c0|].
  - destruct (terminal is_quote ExpQuote st0) as [r1 st1] eqn:E1.
    destruct r1 as [c1|]; [done|]. intros E2.
    by apply terminal_inv in E2 as [[_ ->]|(c & ? & _)].
  - intros E2. by apply terminal_inv in E2 as [[_ ->]|(c & ? & _)].
Qed.

Lemma parse_line_fails separator fuel st st' :
  parse_line separator fuel st = Some (None, st') → cur st' = cur st.
Proof.
  unfold parse_line.
  destruct (parse_field separator fuel st) as [[[first|] st0]|]; simpl;
    [|by intros [= <-]|done].
  destruct (star _ fuel st0) as [[rest st1]|]; simpl; [|done].
  destruct (_ || _); [done|]. by intros [= <-].
Qed.

Lemma parse_sv_fails separator fuel st st' :
  parse_sv separator fuel st = Some (None, st') → cur st' = cur st.
Proof.
  unfold parse_sv.
  destruct (star line_break fuel st) as [[run st0]|]; simpl; [|done].
  destruct (parse_line separator fuel st0) as [[[first|] st1]|]; simpl;
    [|by intros [= <-]|done].
  destruct (star _ fuel st1) as [[rest st2]|]; simpl; [|done].
  by destruct (star line_break fuel st2) as [[run' st3]|].
Qed.

(** X4.  Backtracking.  A rule that fails leaves the cursor where the
    rule began: so do [parse_char], [parse_line] and [parse_sv]; and
    [parse_field] never fails, an empty field being a field.  The
    furthest failure position is kept across backtracking: through any
    of the rules it never decreases, and it stays within the input. *)
Theorem failed_rule_restores_cursor :
  (∀ st st', parse_char st = (None, st') → cur st' = cur st)
  ∧ (∀ separator fuel st st',
       parse_line separator fuel st = Some (None, st') → cur st' = cur st)
  ∧ (∀ separator fuel st st',
       parse_sv separator fuel st = Some (None, st') → cur st' = cur st)
  ∧ (∀ separator fuel st r st',
       parse_field separator fuel st = Some (r, st') → is_Some r)
  ∧ (∀ input separator fuel st r st',
       tracks input st →
       parse_sv separator fuel st = Some (r, st') →
       rightmostFailuresPos st ≤ rightmostFailuresPos st'
       ∧ rightmostFailuresPos st' ≤ length input
       ∧ pos (cur st') ≤ length input
       ∧ ahead (cur st') = drop (pos (cur st')) input).
Proof.
  split; [apply parse_char_fails|]. split; [apply parse_line_fails|].
  split; [apply parse_sv_fails|]. split.
  - intros separator fuel st r st'. unfold parse_field.
    destruct (quoted_field fuel st) as [[[text|] st0]|]; simpl; [| |done].
    + intros [= <- _]. eauto.
    + destruct (star _ fuel st0) as [[text st1]|]; simpl; [|done].
      intros [= <- _]. eauto.
  - intros input separator fuel st r st' Ht E.
    destruct (sound_parse_sv input _ _ _ _ _ Ht E) as [[[Ha Hp] Hr] Hm].
    done.
Qed.

Lemma failed_rule_restores_cursor_witness :
  ∃ st', parse_line COMMA 1 (PState (Cursor 3 [LF]) 0 []) = Some (None, st')
         ∧ cur st' = Cursor 3 [LF].
Proof.
  eexists. split; [vm_compute; reflexivity|].
  apply (proj1 (proj2 failed_rule_restores_cursor) COMMA 1
           (PState (Cursor 3 [LF]) 0 [])).
  vm_compute. reflexivity.
Defined.

(** ** Reading back what was written *)

Lemma double_quotes_length body : length body ≤ length (double_quotes body).
Proof.
  induction body as [|c body IH]; [done|].
  change (double_quotes (c :: body))
    with ((if bool_decide (c = QUOTE) then [QUOTE; QUOTE] else [c])
            ++ double_quotes body).
  rewrite length_app. case_bool_decide; simpl; lia.
Qed.

Lemma quoted_length body : length body < length (quoted body).
Proof.
  unfold quoted. simpl. rewrite length_app. simpl.
  pose proof (double_quotes_length body). lia.
Qed.

Lemma join_cons gap p parts :
  join gap (p :: parts) = p ++ concat ((λ q, gap ++ q) <$> parts).
Proof.
  revert p. induction parts as [|q parts IH]; intros p.
  - simpl. by rewrite app_nil_r.
  - change (join gap (p :: q :: parts)) with (p ++ gap ++ join gap (q :: parts)).
    rewrite IH. simpl. by rewrite <- app_assoc.
Qed.

Lemma star_line_breaks run : ∀ n st tail,
  ahead (cur st) = run ++ tail →
  Forall (λ c, is_line_break c = true) run →
  starts_line tail →
  length run < n →
  ∃ st', star line_break n st = Some (run, st')
         ∧ cur st' = Cursor (pos (cur st) + length run) tail.
Proof.
  induction run as [|c run IH]; intros [|n] st tail Ha Hrun Htail Hn;
    simpl in Hn; try lia.
  - simpl in Ha. destruct (line_break_stop st) as (st' & E & Hc).
    { rewrite Ha. by destruct tail. }
    rewrite (star_stop _ _ _ _ E). eexists. split; [done|].
    rewrite Hc, Nat.add_0_r, <- Ha. apply cursor_eta.
  - simpl in Ha. apply Forall_cons in Hrun as [Hc Hrun].
    assert (line_break st = Some (Some c, advance st)) as E
      by (unfold line_break; by rewrite (terminal_hit _ _ _ c (run ++ tail))).
    pose proof (cur_advance _ _ _ Ha) as Hcur.
    destruct (IH n (advance st) tail) as (st2 & E2 & Hcur2);
      [by rewrite Hcur|done|done|lia|].
    rewrite star_unfold, E. simpl. rewrite E2. simpl. eexists. split; [done|].
    rewrite Hcur2, Hcur. simpl. f_equal. lia.
Qed.

(** At the end of the input there is no line. *)
Lemma parse_line_at_end separator fuel st :
  ahead (cur st) = [] →
  ∃ st', parse_line separator (S fuel) st = Some (None, st') ∧ cur st' = cur st.
Proof.
  intros Ha. unfold parse_line, parse_field, quoted_field.
  rewrite (terminal_miss is_quote) by by rewrite Ha. simpl.
  destruct (unquoted_char_stop separator
              (restore (cur st) (matchFailed ExpQuote st))) as (st1 & E1 & Hcur1).
  { simpl. by rewrite Ha. }
  erewrite star_stop by (by rewrite E1). simpl.
  destruct (separated_field_stop separator (S fuel) st1) as (st2 & E2 & Hcur2).
  { rewrite Hcur1. simpl. by rewrite Ha. }
  rewrite (star_stop _ _ _ _ E2). simpl. by eexists.
Qed.

Section writing.
Context (separator : char) (fuel : nat).
Hypothesis separator_not_quote : separator ≠ QUOTE.
Hypothesis separator_not_break : is_line_break separator = false.

Lemma ends_line_field tail : ends_line tail → ends_field separator tail.
Proof. destruct tail; [done|]. by left. Qed.

Lemma ends_field_not_quote tail : ends_field separator tail → head tail ≠ Some QUOTE.
Proof.
  destruct tail as [|c tail]; [done|]. simpl. intros [H| ->] [= Hc]; [|done].
  by subst c.
Qed.

Lemma parse_field_written st field rest :
  ahead (cur st) = write_field field ++ rest →
  writable_field separator field →
  ends_field separator rest →
  remaining st < fuel →
  ∃ st', parse_field separator fuel st = Some (Some field.2, st')
         ∧ cur st' = Cursor (pos (cur st) + length (write_field field)) rest.
Proof.
  destruct field as [q f]. unfold write_field, writable_field, remaining. simpl.
  intros Ha Hw Hrest Hfuel. rewrite Ha, length_app in Hfuel.
  destruct q.
  - apply parse_field_closed; [done|by apply ends_field_not_quote|].
    pose proof (quoted_length f). lia.
  - destruct (Hw eq_refl) as [Hhead Hf]. unfold parse_field, quoted_field.
    rewrite (terminal_miss is_quote).
    2:{ rewrite Ha. destruct f as [|c f]; simpl.
        - destruct rest as [|c rest]; [done|]. apply bool_decide_eq_false_2.
          intros ->. by apply ends_field_not_quote in Hrest.
        - apply bool_decide_eq_false_2. intros ->. by apply Hhead. }
    simpl.
    destruct (star_unquoted_chars separator f fuel
                (restore (cur st) (matchFailed ExpQuote st)) rest)
      as (st1 & E1 & Hcur1); [done|done|done|lia|].
    rewrite E1. simpl. eauto.
Qed.

Lemma star_separated_written fields : ∀ n st tail,
  ahead (cur st) = concat ((λ f, separator :: write_field f) <$> fields) ++ tail →
  Forall (writable_field separator) fields →
  ends_line tail →
  remaining st < fuel →
  length fields < n →
  ∃ st', star (separated_field separator fuel) n st = Some (fields.*2, st')
         ∧ cur st'
           = Cursor (pos (cur st)
                     + length (concat ((λ f, separator :: write_field f) <$> fields)))
                    tail.
Proof.
  induction fields as [|f fields IH]; intros [|n] st tail Ha Hw Htail Hfuel Hn;
    simpl in Hn; try lia.
  - simpl in Ha. destruct (separated_field_stop separator fuel st) as (st' & E & Hc).
    { rewrite Ha. destruct tail as [|c tail]; [done|]. simpl in Htail.
      intros ->. congruence. }
    rewrite (star_stop _ _ _ _ E). eexists. split; [done|].
    rewrite Hc. simpl. rewrite Nat.add_0_r, <- Ha. apply cursor_eta.
  - apply Forall_cons in Hw as [Hf Hw]. simpl in Ha. rewrite <- app_assoc in Ha.
    pose proof (cur_advance _ _ _ Ha) as Hcur.
    assert (remaining (advance st) < fuel) as Hfuel1.
    { unfold remaining in *. rewrite Hcur. rewrite Ha in Hfuel. cbn [ahead].
      simpl in Hfuel. unfold fmap in *. lia. }
    destruct (parse_field_written (advance st) f
                (concat ((λ f, separator :: write_field f) <$> fields) ++ tail))
      as (st1 & E1 & Hcur1); [by rewrite Hcur|done| |done|].
    { destruct fields as [|g fields]; simpl; [by apply ends_line_field|by right]. }
    assert (separated_field separator fuel st = Some (Some f.2, st1)) as E.
    { unfold separated_field. erewrite terminal_hit by done. simpl.
      rewrite bool_decide_eq_true_2 by done. by rewrite E1. }
    rewrite star_unfold, E. simpl.
    destruct (IH n st1 tail) as (st2 & E2 & Hcur2); [by rewrite Hcur1|done|done| |lia|].
    { unfold remaining in *. rewrite Hcur1. rewrite Hcur in Hfuel1.
      cbn [ahead] in *. rewrite length_app in Hfuel1. unfold fmap in *. lia. }
    rewrite E2. simpl. eexists. split; [done|].
    rewrite Hcur2, Hcur1, Hcur. simpl. f_equal. rewrite length_app. unfold fmap. lia.
Qed.

Lemma separated_length (fields : list (bool * jsstring)) :
  length fields ≤ length (concat ((λ f, separator :: write_field f) <$> fields)).
Proof.
  induction fields as [|f fields IH]; [done|]. simpl. rewrite length_app.
  unfold fmap in *. lia.
Qed.

Lemma write_line_cons f fields :
  write_line separator (f :: fields)
  = write_field f ++ concat ((λ f, separator :: write_field f) <$> fields).
Proof.
  unfold write_line. rewrite fmap_cons, join_cons. f_equal.
  by rewrite <- list_fmap_compose.
Qed.

Lemma parse_line_written st row tail :
  ahead (cur st) = write_line separator row ++ tail →
  writable_row separator row →
  ends_line tail →
  remaining st < fuel →
  ∃ st', parse_line separator fuel st = Some (Some row.*2, st')
         ∧ cur st' = Cursor (pos (cur st) + length (write_line separator row)) tail.
Proof.
  intros Ha (Hne & Hw & Hrow) Htail Hfuel.
  destruct row as [|f fields]; [done|]. apply Forall_cons in Hw as [Hf Hw].
  rewrite write_line_cons in *. rewrite <- app_assoc in Ha.
  unfold parse_line.
  destruct (parse_field_written st f
              (concat ((λ f, separator :: write_field f) <$> fields) ++ tail))
    as (st0 & E0 & Hcur0); [done|done| |done|].
  { destruct fields as [|g fields]; simpl; [by apply ends_line_field|by right]. }
  rewrite E0. simpl.
  assert (remaining st0 < fuel) as Hfuel0.
  { unfold remaining in *. rewrite Hcur0. rewrite Ha in Hfuel. cbn [ahead].
    rewrite length_app in Hfuel. unfold fmap in *. lia. }
  destruct (star_separated_written fields fuel st0 tail) as (st1 & E1 & Hcur1);
    [by rewrite Hcur0|done|done|done| |].
  { pose proof (separated_length fields). unfold remaining in Hfuel0.
    rewrite Hcur0 in Hfuel0. cbn [ahead] in Hfuel0. rewrite length_app in Hfuel0.
    unfold fmap in *. lia. }
  rewrite E1. simpl.
  assert (bool_decide (f.2 ≠ []) || bool_decide (length fields.*2 ≠ 0) = true) as ->.
  { destruct fields as [|g fields]; simpl.
    - rewrite bool_decide_eq_true_2; [done|]. intros Hf2. apply Hrow. simpl.
      by rewrite Hf2.
    - apply orb_true_r. }
  eexists. split; [done|]. rewrite Hcur1, Hcur0. simpl. f_equal.
  rewrite length_app. unfold fmap. lia.
Qed.

(** A written row begins with a character that is no line break. *)
Lemma write_line_starts row tail :
  writable_row separator row → starts_line (write_line separator row ++ tail).
Proof.
  intros (Hne & Hw & Hrow). destruct row as [|[q f] fields]; [done|].
  rewrite write_line_cons. apply Forall_cons in Hw as [Hf _].
  unfold write_field at 1. simpl. destruct q; [done|].
  destruct (Hf eq_refl) as [_ Hf']. simpl in Hf'. destruct f as [|c f]; simpl.
  - destruct fields as [|g fields]; [done|]. simpl. done.
  - apply Forall_cons in Hf' as [(Hc & _) _]. done.
Qed.

Lemma write_line_length row :
  writable_row separator row → 0 < length (write_line separator row).
Proof.
  intros H. pose proof (write_line_starts row [] H) as Hs.
  rewrite app_nil_r in Hs. destruct row as [|[q f] fields]; [by destruct H|].
  destruct H as (_ & Hw & Hrow). rewrite write_line_cons, length_app.
  destruct fields as [|g fields]; simpl.
  - destruct q; simpl; [unfold quoted; simpl; lia|].
    destruct f; [done|simpl; lia].
  - lia.
Qed.

Lemma star_next_lines_written rows : ∀ n st post,
  ahead (cur st) = write_rows separator rows ++ post →
  Forall (λ gr, gr.1 ≠ [] ∧ Forall (λ c, is_line_break c = true) gr.1
                ∧ writable_row separator gr.2) rows →
  Forall (λ c, is_line_break c = true) post →
  remaining st < fuel →
  length rows < n →
  ∃ st', star (next_line separator fuel) n st = Some ((λ gr, gr.2.*2) <$> rows, st')
         ∧ cur st'
           = Cursor (pos (cur st) + length (write_rows separator rows)) post.
Proof.
  induction rows as [|[gap row] rows IH]; intros [|n] st post Ha Hw Hpost Hfuel Hn;
    simpl in Hn; try lia.
  - simpl in Ha.
    assert (∃ st', next_line separator fuel st = Some (None, st') ∧ cur st' = cur st)
      as (st' & E & Hc).
    { destruct post as [|p post].
      - apply next_line_stop. by rewrite Ha.
      - apply Forall_cons in Hpost as [Hp Hpost]. unfold next_line.
        erewrite terminal_hit by done. simpl.
        pose proof (cur_advance _ _ _ Ha) as Hcur.
        destruct fuel as [|fuel']; [lia|].
        destruct (star_line_breaks post (S fuel') (advance st) [])
          as (st1 & E1 & Hcur1); [by rewrite Hcur, app_nil_r|done|done| |].
        { unfold remaining in Hfuel. rewrite Ha in Hfuel. simpl in Hfuel. lia. }
        rewrite E1. simpl.
        destruct (parse_line_at_end separator fuel' st1) as (st2 & E2 & Hcur2);
          [by rewrite Hcur1|].
        rewrite E2. simpl. by eexists. }
    rewrite (star_stop _ _ _ _ E). eexists. split; [done|].
    rewrite Hc. simpl. rewrite Nat.add_0_r, <- Ha. apply cursor_eta.
  - apply Forall_cons in Hw as [(Hgap & Hbreaks & Hrow) Hw]. cbn [fst snd] in *.
    change (write_rows separator ((gap, row) :: rows))
      with ((gap ++ write_line separator row) ++ write_rows separator rows) in *.
    destruct gap as [|g gap']; [done|].
    apply Forall_cons in Hbreaks as [Hg Hgap'].
    set (more := write_rows separator rows ++ post) in *.
    assert (ahead (cur st) = g :: gap' ++ write_line separator row ++ more) as Ha'.
    { rewrite Ha. subst more. by rewrite <- !app_assoc. }
    pose proof (cur_advance _ _ _ Ha') as Hcur.
    assert (length (ahead (cur st)) < fuel) as Hlen by done.
    rewrite Ha' in Hlen. cbn [length] in Hlen. rewrite !length_app in Hlen.
    destruct (star_line_breaks gap' fuel (advance st)
                (write_line separator row ++ more))
      as (st1 & E1 & Hcur1); [by rewrite Hcur|done|by apply write_line_starts|lia|].
    destruct (parse_line_written st1 row more) as (st2 & E2 & Hcur2);
      [by rewrite Hcur1|done| | |].
    { subst more. destruct rows as [|[gap2 row2] rows]; simpl.
      - destruct post as [|p post]; [done|]. by apply Forall_cons in Hpost as [? _].
      - apply Forall_cons in Hw as [(Hgap2 & Hbreaks2 & _) _]. simpl in *.
        destruct gap2 as [|g2 gap2]; [done|].
        by apply Forall_cons in Hbreaks2 as [? _]. }
    { unfold remaining. rewrite Hcur1. cbn [ahead]. rewrite length_app. lia. }
    assert (next_line separator fuel st = Some (Some row.*2, st2)) as E.
    { unfold next_line. erewrite terminal_hit by done. simpl.
      rewrite E1. simpl. by rewrite E2. }
    rewrite star_unfold, E. simpl.
    destruct (IH n st2 post) as (st3 & E3 & Hcur3);
      [by rewrite Hcur2|done|done| |lia|].
    { unfold remaining. rewrite Hcur2. cbn [ahead]. lia. }
    rewrite E3. simpl. eexists. split; [done|].
    rewrite Hcur3, Hcur2, Hcur1, Hcur. cbn [pos]. f_equal.
    rewrite !length_app. cbn [length]. rewrite ?length_app. lia.
Qed.

Lemma write_rows_length rows :
  Forall (λ gr : jsstring * list (bool * jsstring), gr.1 ≠ []) rows →
  length rows ≤ length (write_rows separator rows).
Proof.
  induction rows as [|[gap row] rows IH]; intros H; [done|].
  apply Forall_cons in H as [Hgap H].
  change (write_rows separator ((gap, row) :: rows))
    with ((gap ++ write_line separator row) ++ write_rows separator rows).
  rewrite !length_app. simpl in *. specialize (IH H).
  destruct gap; [done|]. simpl. lia.
Qed.

Lemma write_table_cons gap row rows :
  write_table separator gap (row :: rows)
  = write_line separator row ++ write_rows separator ((λ row, (gap, row)) <$> rows).
Proof.
  unfold write_table, write_rows. rewrite fmap_cons, join_cons. f_equal. f_equal.
  by rewrite <- !list_fmap_compose.
Qed.

Lemma parse_sv_written st pre row rows post :
  ahead (cur st)
  = pre ++ write_line separator row ++ write_rows separator rows ++ post →
  writable_row separator row →
  Forall (λ gr, gr.1 ≠ [] ∧ Forall (λ c, is_line_break c = true) gr.1
                ∧ writable_row separator gr.2) rows →
  Forall (λ c, is_line_break c = true) pre →
  Forall (λ c, is_line_break c = true) post →
  remaining st < fuel →
  ∃ st', parse_sv separator fuel st
         = Some (Some (row.*2 :: ((λ gr, gr.2.*2) <$> rows)), st')
         ∧ cur st' = Cursor (pos (cur st) + remaining st) [].
Proof.
  intros Ha Hrow Hw Hpre Hpost Hfuel.
  set (more := write_rows separator rows) in *.
  assert (length rows ≤ length more) as Hrows.
  { apply write_rows_length. eapply Forall_impl; [exact Hw|]. by intros gr (? & _). }
  unfold remaining in *. rewrite Ha in *. rewrite !length_app in *.
  unfold parse_sv.
  destruct (star_line_breaks pre fuel st (write_line separator row ++ more ++ post))
    as (st1 & E1 & Hcur1); [done|done|by apply write_line_starts|lia|].
  rewrite E1. simpl.
  destruct (parse_line_written st1 row (more ++ post)) as (st2 & E2 & Hcur2);
    [by rewrite Hcur1|done| | |].
  { subst more. destruct rows as [|[gap2 row2] rows]; simpl.
    - destruct post as [|c post]; [done|]. by apply Forall_cons in Hpost as [? _].
    - apply Forall_cons in Hw as [(Hgap2 & Hbreaks2 & _) _]. simpl in *.
      destruct gap2 as [|g2 gap2]; [done|].
      by apply Forall_cons in Hbreaks2 as [? _]. }
  { unfold remaining. rewrite Hcur1. cbn [ahead]. rewrite !length_app. lia. }
  rewrite E2. simpl.
  destruct (star_next_lines_written rows fuel st2 post) as (st3 & E3 & Hcur3);
    [by rewrite Hcur2|done|done| |lia|].
  { unfold remaining. rewrite Hcur2. cbn [ahead]. rewrite !length_app. lia. }
  rewrite E3. simpl.
  destruct (star_line_breaks post fuel st3 []) as (st4 & E4 & Hcur4);
    [by rewrite Hcur3, app_nil_r|done|done|lia|].
  rewrite E4. simpl. eexists. split; [done|].
  rewrite Hcur4, Hcur3, Hcur2, Hcur1. cbn [pos]. f_equal. fold more. lia.
Qed.

End writing.

Lemma parse_rows_written r pre row rows post :
  writable_row (rule_separator r) row →
  Forall (λ gr, gr.1 ≠ [] ∧ Forall (λ c, is_line_break c = true) gr.1
                ∧ writable_row (rule_separator r) gr.2) rows →
  Forall (λ c, is_line_break c = true) pre →
  Forall (λ c, is_line_break c = true) post →
  parse (pre ++ write_line (rule_separator r) row
           ++ write_rows (rule_separator r) rows ++ post) r
  = Parsed (row.*2 :: ((λ gr, gr.2.*2) <$> rows)).
Proof.
  intros Hrow Hw Hpre Hpost.
  set (input := pre ++ write_line (rule_separator r) row
                  ++ write_rows (rule_separator r) rows ++ post).
  unfold parse.
  destruct (parse_sv_written (rule_separator r) (S (length input))
              (rule_separator_not_quote r) (rule_separator_not_line_break r)
              (PState (Cursor 0 input) 0 []) pre row rows post)
    as (st & E & Hcur); try done.
  { unfold remaining. simpl. lia. }
  rewrite E. rewrite Hcur. unfold remaining. simpl.
  by rewrite bool_decide_eq_false_2 by (intros H; by apply H).
Qed.

Lemma parse_written r pre gap post table :
  table ≠ [] →
  Forall (writable_row (rule_separator r)) table →
  gap ≠ [] →
  Forall (λ c, is_line_break c = true) (pre ++ gap ++ post) →
  parse (pre ++ write_table (rule_separator r) gap table ++ post) r
  = Parsed ((λ row, row.*2) <$> table).
Proof.
  intros Htable Hw Hgap Hbreaks.
  apply Forall_app in Hbreaks as [Hpre Hbreaks].
  apply Forall_app in Hbreaks as [Hbreaks Hpost].
  destruct table as [|row rows]; [done|]. apply Forall_cons in Hw as [Hrow Hw].
  rewrite write_table_cons, <- app_assoc.
  rewrite parse_rows_written; try done.
  - by rewrite fmap_cons, <- list_fmap_compose.
  - apply Forall_fmap. eapply Forall_impl; [exact Hw|]. by intros row' Hrow'.
Qed.

(** X5 (round trip of the grammar).  Write a table of fields with
    [write_table]: every field either between double quotes with its
    quotes doubled, or as it is when it does not begin with a double
    quote and holds neither a line break nor the separator; the fields of
    a row joined by the separator; the rows joined by any non-empty run of
    line breaks, with any runs of line breaks before and after.  When no
    row is the single empty field, [parse] reads the table back exactly,
    with every rule, and [convert] with the option [returnArray] and the
    separator of the rule returns it. *)
Theorem parse_reads_back_written_table r pre gap post table options :
  table ≠ [] →
  Forall (writable_row (rule_separator r)) table →
  gap ≠ [] →
  Forall (λ c, is_line_break c = true) (pre ++ gap ++ post) →
  parse (pre ++ write_table (rule_separator r) gap table ++ post) r
  = Parsed ((λ row, row.*2) <$> table)
  ∧ (separator options = Some [rule_separator r] →
     transpose options = false → returnArray options = true →
     convert (pre ++ write_table (rule_separator r) gap table ++ post) options
     = inr (OutRaw ((λ row, Some <$> row.*2) <$> table))).
Proof.
  intros Htable Hw Hgap Hbreaks.
  pose proof (parse_written r pre gap post table Htable Hw Hgap Hbreaks) as Hparse.
  split; [done|]. intros Hs Ht Hr. unfold convert, read_table.
  rewrite Hs, Ht, Hr. cbn [fmap option_fmap option_map].
  rewrite bool_decide_eq_false_2.
  2:{ destruct table as [|row rows]; [done|]. apply Forall_cons in Hw as [Hrow _].
      pose proof (write_line_length (rule_separator r)
                    (rule_separator_not_quote r) (rule_separator_not_line_break r)
                    row Hrow) as Hlen.
      rewrite write_table_cons, !length_app. lia. }
  replace (start_rule [rule_separator r]) with (Some r) by (by destruct r).
  rewrite Hparse. by rewrite <- list_fmap_compose.
Qed.

(** A table of two rows, one field quoted and holding the separator, a
    doubled quote and a line break, written with CR LF between the rows
    and a line break at the end. *)
Lemma parse_reads_back_written_table_witness :
  parse (lit "a," ++ QUOTE :: lit "b,c" ++ [QUOTE; QUOTE; LF; QUOTE; CR; LF]
         ++ lit "d,e" ++ [LF]) comma
  = Parsed [[lit "a"; lit "b,c" ++ [QUOTE; LF]]; [lit "d"; lit "e"]].
Proof.
  apply (parse_reads_back_written_table comma [] [CR; LF] [LF]
           [[(false, lit "a"); (true, lit "b,c" ++ [QUOTE; LF])];
            [(false, lit "d"); (false, lit "e")]] no_options).
  - done.
  - repeat constructor; try done; intros _; split; try done;
      repeat constructor; done.
  - done.
  - repeat constructor.
Defined.

(** ** The separator detector *)

(** X6 (detectSeparator).  The detector answers with one of the three
    candidates, and no candidate occurs more often in the text than its
    answer.  A later candidate replaces an earlier one only on a strictly
    greater count: the answer is the semicolon only when it occurs more
    often than the comma, and the tab only when it occurs more often than
    both. *)
Theorem detectSeparator_most_frequent csv :
  ∃ c, detectSeparator csv = Some c
       ∧ c ∈ separators
       ∧ Forall (λ sep, match_count sep csv ≤ match_count c csv) separators
       ∧ (c = SEMICOLON → match_count COMMA csv < match_count SEMICOLON csv)
       ∧ (c = TAB → match_count COMMA csv < match_count TAB csv
                    ∧ match_count SEMICOLON csv < match_count TAB csv)
       ∧ (match_count SEMICOLON csv ≤ match_count COMMA csv →
          match_count TAB csv ≤ match_count COMMA csv → c = COMMA).
Proof.
  unfold detectSeparator, separators. cbn [foldl]. unfold detect_step.
  repeat case_bool_decide; eexists; (split; [done|]);
    (split; [repeat first [by left | right]|]);
    (split; [repeat constructor; lia|]);
    repeat split; intros; try done; try lia.
Qed.

(** ** The transposer *)

Lemma longest_length (args : list (list jsstring)) : ∀ init,
  length (foldl (λ a b, if bool_decide (length b < length a) then a else b) init args)
  = length init `max` max_list (length <$> args).
Proof.
  induction args as [|b args IH]; intros init; simpl; [lia|].
  rewrite IH. unfold fmap. case_bool_decide; lia.
Qed.

(** X7 (zip).  The transposed table has as many rows as the longest row
    of the given table has cells, every one of its rows has one cell for
    each given row, and its cell [j] of row [i] is the cell [i] of the
    given row [j], undefined where that row is shorter.  Of a table whose
    rows have the same length every cell is defined. *)
Theorem zip_transposes (args : list (list jsstring)) :
  length (zip args) = max_list (length <$> args)
  ∧ Forall (λ row, length row = length args) (zip args)
  ∧ (∀ i j array, i < max_list (length <$> args) → args !! j = Some array →
       zip args !! i ≫= (.!! j) = Some (array !! i))
  ∧ (∀ n i j array text,
       Forall (λ array, length array = n) args →
       args !! j = Some array → array !! i = Some text →
       zip args !! i ≫= (.!! j) = Some (Some text)).
Proof.
  assert (length (zip args) = max_list (length <$> args)) as Hlen.
  { unfold zip, longest. by rewrite length_imap, longest_length. }
  assert (∀ i j array, i < max_list (length <$> args) → args !! j = Some array →
            zip args !! i ≫= (.!! j) = Some (array !! i)) as Hcell.
  { intros i j array Hi Hj. rewrite <- Hlen in Hi.
    apply lookup_lt_is_Some_2 in Hi as [row Hrow]. rewrite Hrow. simpl.
    unfold zip in Hrow. apply list_lookup_imap_Some in Hrow as (x & _ & ->).
    by rewrite list_lookup_fmap, Hj. }
  split; [done|]. split; [|split; [done|]].
  - unfold zip. apply Forall_forall. intros row Hrow.
    apply list_elem_of_lookup in Hrow as [i Hrow].
    apply list_lookup_imap_Some in Hrow as (x & _ & ->). by rewrite length_fmap.
  - intros n i j array text Hn Hj Hi. rewrite (Hcell i j array), Hi; [done| |done].
    apply lookup_lt_Some in Hi.
    assert (length array ≤ max_list (length <$> args)); [|lia].
    apply max_list_elem_of_le. apply list_elem_of_fmap. exists array.
    split; [done|]. by eapply list_elem_of_lookup_2.
Qed.

(** A table with a short second row. *)
Lemma zip_transposes_witness :
  zip [[lit "a"; lit "b"]; [lit "c"]] !! 1 ≫= (.!! 1) = Some None.
Proof.
  apply (proj1 (proj2 (proj2 (zip_transposes [[lit "a"; lit "b"]; [lit "c"]])))
           1 1 [lit "c"]); [simpl; lia|done].
Defined.

(** ** Keys that uniquify leaves alone *)

Lemma new_name_longer v c :
  inherited v = false → c ≠ 0 → new_name v c ≠ v.
Proof.
  intros Hv Hc. unfold new_name. rewrite Hv, bool_decide_eq_false_2 by done.
  intros H. apply (f_equal length) in H. rewrite !length_app in H.
  rewrite SUFFIX_eq in H. simpl in H. lia.
Qed.

Lemma uniquify_keeps (keys : list jsstring) :
  (∀ i j v, i < j → keys !! i = Some v → keys !! j = Some v → inherited v = true) →
  uniquify keys = keys.
Proof.
  intros H. apply list_eq. intros i.
  destruct (keys !! i) as [v|] eqn:Hi.
  - rewrite (uniquify_lookup keys i v Hi). f_equal. unfold new_name.
    destruct (inherited v) eqn:Hv; [done|].
    case_bool_decide as Hc; [done|].
    apply occurrences_pos in Hc as [j Hj].
    apply lookup_take_Some in Hj as [Hj Hlt].
    by rewrite (H j i v Hlt Hj Hi) in Hv.
  - apply lookup_ge_None. rewrite uniquify_length. by apply lookup_ge_None.
Qed.

Lemma uniquify_distinct (keys : list jsstring) : NoDup keys → uniquify keys = keys.
Proof.
  intros Hnd. apply uniquify_keeps. intros i j v Hlt Hi Hj.
  pose proof (NoDup_lookup keys i j v Hnd Hi Hj). lia.
Qed.

(** X8 (uniquify).  The header comes back unchanged exactly when no name
    that is written twice is renamed, that is, when every repeated name is
    one that a plain object inherits; in particular a header of distinct
    names comes back unchanged. *)
Theorem uniquify_unchanged_iff (keys : list jsstring) :
  (uniquify keys = keys
   ↔ ∀ i j v, i < j → keys !! i = Some v → keys !! j = Some v →
              inherited v = true)
  ∧ (NoDup keys → uniquify keys = keys).
Proof.
  split; [split; [|apply uniquify_keeps]|apply uniquify_distinct].
  intros H i j v Hlt Hi Hj. destruct (inherited v) eqn:Hv; [done|].
  pose proof (uniquify_lookup keys j v Hj) as Hu. rewrite H, Hj in Hu.
  injection Hu as Hu. symmetry in Hu. apply new_name_longer in Hu; [done|done|].
  pose proof (occurrences_take_lt keys i j v Hi Hlt). lia.
Qed.

Lemma uniquify_unchanged_iff_witness :
  uniquify [lit "id"; lit "name"; lit "toString"] = [lit "id"; lit "name"; lit "toString"].
Proof.
  apply (proj2 (uniquify_unchanged_iff [lit "id"; lit "name"; lit "toString"])).
  apply (bool_decide_unpack _). vm_compute. exact I.
Defined.

(** ** The exceptions of convert *)

Lemma read_table_unfold csv options :
  read_table csv options
  = if bool_decide (length csv = 0) then inl errorEmpty
    else match chosen_separator csv options with
         | None => inl errorDetectingSeparator
         | Some chosen =>
             match start_rule chosen with
             | None => inl errorHost
             | Some startRule =>
                 match parse csv startRule with
                 | OutOfFuel => inl errorOutOfFuel
                 | Rejected e => inl (errorSyntax e (source_line csv (offset e)))
                 | Parsed a =>
                     inr (if transpose options then zip a
                          else (λ row : list jsstring, Some <$> row) <$> a)
                 end
             end
         end.
Proof. done. Qed.

Lemma chosen_separator_found csv options :
  ∃ c s, chosen_separator csv options = Some (c :: s)
         ∧ (separator options = Some (c :: s)
            ∨ (s = [] ∧ c ∈ separators
               ∧ (separator options = None ∨ separator options = Some []))).
Proof.
  unfold chosen_separator.
  destruct (detectSeparator_found csv) as (d & -> & Hd).
  destruct (separator options) as [[|c s]|]; simpl; eauto 10.
Qed.

Lemma start_rule_none s : start_rule s = None ↔ inherited s = true.
Proof.
  unfold start_rule. repeat case_bool_decide; subst; try done.
  by destruct (inherited s).
Qed.

Lemma read_table_defined csv options a :
  read_table csv options = inr a →
  ∃ keys rows, a = keys :: rows ∧ keys ≠ [] ∧ Forall is_Some keys.
Proof.
  rewrite read_table_unfold. case_bool_decide; [done|].
  destruct (chosen_separator csv options) as [chosen|]; [|done].
  destruct (start_rule chosen) as [startRule|]; [|done].
  destruct (parse csv startRule) as [t| |] eqn:E; try done.
  apply parse_rows in E as [Ht Hrows]. intros [= <-].
  destruct (transpose options).
  - destruct (zip_header t Ht Hrows) as (rest & ->).
    eexists _, _. split; [done|]. split; [by destruct t|].
    apply Forall_fmap. eapply Forall_impl; [exact Hrows|].
    intros [|x row] Hrow; [done|]. by eexists.
  - destruct t as [|row t]; [done|]. apply Forall_cons in Hrows as [Hrow _].
    simpl. eexists _, _. split; [done|]. split; [by destruct row|].
    apply Forall_fmap, Forall_forall. intros x _. by eexists.
Qed.

Lemma header_keys_defined keys rows :
  keys ≠ [] → Forall is_Some keys →
  ∃ cleaned, mapM (λ key : option jsstring, clean <$> key) keys = Some cleaned
             ∧ header_keys (keys :: rows) = inr (uniquify cleaned, rows).
Proof.
  intros Hne Hdef. unfold header_keys.
  rewrite bool_decide_eq_false_2 by (by destruct keys).
  destruct (mapM _ keys) as [cleaned|] eqn:E; [eauto|].
  apply mapM_None in E. apply Exists_exists in E as (x & Hx & E).
  eapply Forall_forall in Hdef; [|exact Hx]. by destruct Hdef as [y ->].
Qed.

(** X9 (convert, what it throws).  The empty-input message is thrown
    exactly for the empty text.  An exception of the host arises exactly
    when the text is not empty and the separator option names a property
    that every object inherits.  A syntax error is the one [parse] raises
    on the whole text, carried with the line of the text around its
    offset.  Nothing else is thrown: in particular the header of the table
    is never missing and holds no undefined cell, also after transposing
    a table with rows of different lengths. *)
Theorem convert_error_cases csv options :
  (convert csv options = inl errorEmpty ↔ csv = [])
  ∧ (convert csv options = inl errorHost
     ↔ csv ≠ [] ∧ ∃ s, separator options = Some s ∧ inherited s = true)
  ∧ (∀ se line, convert csv options = inl (errorSyntax se line) →
       line = source_line csv (offset se) ∧ ∃ r, parse csv r = Rejected se)
  ∧ (∀ e, convert csv options = inl e →
       e = errorEmpty ∨ e = errorHost ∨ ∃ se line, e = errorSyntax se line).
Proof.
  assert (∀ a, read_table csv options = inr a →
               ∀ e, convert csv options ≠ inl e) as Hright.
  { intros a Ha e. unfold convert. rewrite Ha.
    destruct (returnArray options); [done|].
    destruct (read_table_defined _ _ _ Ha) as (keys & rows & -> & Hne & Hdef).
    destruct (header_keys_defined keys rows Hne Hdef) as (cleaned & _ & ->). done. }
  assert (∀ e, convert csv options = inl e → read_table csv options = inl e)
    as Hleft.
  { intros e He. pose proof He as He'. unfold convert in He'.
    destruct (read_table csv options) as [e'|a] eqn:Ha; [by injection He' as ->|].
    by apply (Hright a eq_refl) in He. }
  assert (∀ e, read_table csv options = inl e → convert csv options = inl e)
    as Hleft'.
  { intros e He. unfold convert. by rewrite He. }
  destruct (chosen_separator_found csv options) as (c & s & Hchosen & Hsep).
  split; [|split; [|split]].
  - split.
    + intros He. apply Hleft in He. rewrite read_table_unfold in He.
      case_bool_decide as Hlen; [by destruct csv|]. rewrite Hchosen in He.
      destruct (start_rule (c :: s)); [|done]. by destruct (parse csv r).
    + intros ->. by apply Hleft'.
  - split.
    + intros He. apply Hleft in He. rewrite read_table_unfold in He.
      case_bool_decide as Hlen; [done|]. rewrite Hchosen in He.
      split; [by intros ->|].
      destruct (start_rule (c :: s)) as [r|] eqn:Hr; [by destruct (parse csv r)|].
      apply start_rule_none in Hr.
      destruct Hsep as [Hsep|(-> & Hc & _)]; [eauto|].
      exfalso. revert Hr. clear -Hc. unfold separators in Hc.
      repeat (apply elem_of_cons in Hc as [->|Hc]; [by vm_compute|]).
      by apply elem_of_nil in Hc.
    + intros (Hcsv & t & Ht & Hin). apply Hleft'. rewrite read_table_unfold.
      rewrite bool_decide_eq_false_2 by (by destruct csv).
      unfold chosen_separator. rewrite Ht.
      destruct t as [|c' t]; [by vm_compute in Hin|].
      apply start_rule_none in Hin. by rewrite Hin.
  - intros se line He. apply Hleft in He. rewrite read_table_unfold in He.
    case_bool_decide as Hlen; [done|]. rewrite Hchosen in He.
    destruct (start_rule (c :: s)) as [r|]; [|done].
    destruct (parse csv r) as [t|e|] eqn:E; try done.
    injection He as -> <-. eauto.
  - intros e He. apply Hleft in He.
    destruct (read_table_error _ _ _ He) as [->|[->|(se & ->)]]; eauto.
Qed.

(** The separator option toString, on a text that is not empty. *)
Lemma convert_error_cases_witness :
  convert (lit "a,b") (with_separator (Some (lit "toString")) no_options)
  = inl errorHost.
Proof.
  apply (proj2 (proj1 (proj2 (convert_error_cases (lit "a,b")
           (with_separator (Some (lit "toString")) no_options))))).
  split; [done|]. exists (lit "toString"). split; [done|]. by vm_compute.
Defined.

(** ** A separator option that is none of the three *)

Lemma convert_by_chosen csv options options' :
  chosen_separator csv options ≫= start_rule
  = chosen_separator csv options' ≫= start_rule →
  is_Some (chosen_separator csv options) →
  is_Some (chosen_separator csv options') →
  parseNumbers options = parseNumbers options' →
  parseJSON options = parseJSON options' →
  transpose options = transpose options' →
  hash options = hash options' →
  returnArray options = returnArray options' →
  convert csv options = convert csv options'.
Proof.
  intros Hrule [s Hs] [s' Hs'] Hn Hj Ht Hh Hr.
  rewrite Hs, Hs' in Hrule. simpl in Hrule.
  assert (read_table csv options = read_table csv options') as Hread.
  { rewrite !read_table_unfold, Hs, Hs', Hrule, Ht. done. }
  unfold convert. rewrite Hread, Hr.
  destruct (read_table csv options') as [e|a]; [done|].
  destruct (returnArray options'); [done|].
  destruct (header_keys a) as [e|[keys rows]]; [done|].
  f_equal. unfold records, hash_rows, array_rows, build_row. rewrite Hh.
  assert (∀ al i ks st, fill_row options al i ks st = fill_row options' al i ks st)
    as Hfill.
  { intros al i ks. revert i. induction ks as [|k ks IH]; intros i [row hk]; [done|].
    simpl. rewrite IH, Hh. unfold cell_value. by rewrite Hn, Hj. }
  destruct (hash options').
  - do 3 f_equal. generalize (@empty_object (object value)).
    induction rows as [|al rows IH]; intros json; [done|].
    simpl. by rewrite Hfill, IH.
  - f_equal. apply list_fmap_ext. intros i al _. by rewrite Hfill.
Qed.

(** X10 (convert, the separator option).  A separator option that is
    not the comma, the semicolon or the tab, and no inherited property
    name, selects no rule of the grammar, and the text is read with the
    comma.  An empty separator option counts as absent; and without the
    option the text is read as with the separator that the detector
    answers. *)
Theorem unknown_separator_read_as_comma csv options :
  (∀ s, separator options = Some s → s ≠ [] →
        s ≠ [COMMA] → s ≠ [SEMICOLON] → s ≠ [TAB] → inherited s = false →
        convert csv options = convert csv (with_separator (Some [COMMA]) options))
  ∧ (separator options = Some [] →
     convert csv options = convert csv (with_separator None options))
  ∧ (∀ c, separator options = None → detectSeparator csv = Some c →
          convert csv options = convert csv (with_separator (Some [c]) options)).
Proof.
  split; [|split].
  - intros s Hs Hne Hc Hsc Ht Hin. apply convert_by_chosen; try done.
    + unfold chosen_separator. rewrite Hs. destruct s as [|c s]; [done|]. simpl.
      unfold start_rule. rewrite !bool_decide_eq_false_2, Hin by done.
      done.
    + unfold chosen_separator. rewrite Hs. by destruct s.
  - intros Hs. apply convert_by_chosen; try done.
    + unfold chosen_separator. by rewrite Hs.
    + unfold chosen_separator. rewrite Hs.
      by destruct (detectSeparator_found csv) as (c & -> & _).
    + unfold chosen_separator. simpl.
      by destruct (detectSeparator_found csv) as (c & -> & _).
  - intros c Hs Hc. apply convert_by_chosen; try done.
    + unfold chosen_separator. by rewrite Hs, Hc.
    + unfold chosen_separator. by rewrite Hs, Hc.
Qed.

(** A vertical bar as the separator option: the line is one field for
    the bar, and is cut at its comma. *)
Lemma unknown_separator_read_as_comma_witness :
  convert (lit "a|b,c") (with_separator (Some (lit "|")) no_options)
  = convert (lit "a|b,c") (with_separator (Some [COMMA]) no_options).
Proof.
  apply (proj1 (unknown_separator_read_as_comma (lit "a|b,c")
                  (with_separator (Some (lit "|")) no_options)) (lit "|"));
    by vm_compute.
Defined.

(** ** Blank lines give no rows *)

Lemma parse_line_not_blank separator fuel st row st' :
  parse_line separator fuel st = Some (Some row, st') → row ≠ [[]].
Proof.
  unfold parse_line. intros H.
  destruct (parse_field separator fuel st) as [[[first|] st0]|]; simpl in H;
    try done.
  destruct (star _ fuel st0) as [[rest st1]|]; simpl in H; [|done].
  destruct (bool_decide (first ≠ []) || bool_decide (length rest ≠ 0)) eqn:E;
    [|done].
  injection H as <- <-. intros [= -> ->]. done.
Qed.

Lemma next_line_not_blank separator fuel st row st' :
  next_line separator fuel st = Some (Some row, st') → row ≠ [[]].
Proof.
  unfold next_line. intros H.
  destruct (terminal is_line_break ExpLineBreak st) as [[c|] st0]; [|done].
  destruct (star line_break fuel st0) as [[run st1]|]; simpl in H; [|done].
  destruct (parse_line separator fuel st1) as [[[data|] st2]|] eqn:E;
    simpl in H; try done.
  injection H as <- <-. by eapply parse_line_not_blank.
Qed.

(** X11 (parse, the predicate of the line rule).  No row of a parsed
    table is the single empty field: a line without any character is not
    a row, and neither is a line that holds only an empty pair of
    quotes. *)
Theorem parsed_rows_not_blank input r table :
  parse input r = Parsed table → Forall (λ row, row ≠ [[]]) table.
Proof.
  unfold parse. intros H.
  destruct (parse_sv _ _ _) as [[[t|] st]|] eqn:E; try done.
  case_bool_decide; [done|]. injection H as <-.
  unfold parse_sv in E.
  destruct (star line_break _ _) as [[run st0]|]; simpl in E; [|done].
  destruct (parse_line _ _ st0) as [[[first|] st1]|] eqn:E1; simpl in E; try done.
  destruct (star (next_line _ _) _ st1) as [[rest st2]|] eqn:E2; simpl in E; [|done].
  destruct (star line_break _ st2) as [[run' st3]|]; simpl in E; [|done].
  injection E as <- <-. constructor.
  - by eapply parse_line_not_blank.
  - eapply star_Forall; [|exact E2]. intros. by eapply next_line_not_blank.
Qed.

(** Two lines with a blank line between them. *)
Lemma parsed_rows_not_blank_witness :
  Forall (λ row : list jsstring, row ≠ [[]]) [[lit "a"]; [lit "b"]].
Proof.
  apply (parsed_rows_not_blank (lit "a" ++ [LF; LF] ++ lit "b") comma).
  by vm_compute.
Defined.

(** ** The record mapper in hash mode *)






(** ** From the written table to the records *)

Lemma mapM_defined {A B} (f : A → B) (l : list A) :
  mapM (λ x : option A, f <$> x) (Some <$> l) = Some (f <$> l).
Proof.
  induction l as [|x l IH]; [done|]. simpl. unfold fmap in IH at 2 3. by rewrite IH.
Qed.

(** X13 (convert, end to end).  Take a header of names whose cleaned forms
    are distinct and a list of rows, written as the round trip above describes with the
    separator that the options name.  Then [convert] returns, in array
    mode, one record for each row and in their order; the record has one
    member for each name of the header, and under the cleaned name [i] it
    holds the value of the cleaned cell [i] of its row, of the empty text
    where the row is shorter. *)
Theorem convert_written_table r options pre gap post header rows :
  separator options = Some [rule_separator r] →
  transpose options = false → hash options = false →
  returnArray options = false →
  Forall (writable_row (rule_separator r)) (header :: rows) →
  gap ≠ [] →
  Forall (λ c, is_line_break c = true) (pre ++ gap ++ post) →
  NoDup (clean <$> header.*2) →
  (PROTO ∉ clean <$> header.*2) →
  ∃ records,
    convert (pre ++ write_table (rule_separator r) gap (header :: rows) ++ post)
            options
    = inr (OutArray records)
    ∧ length records = length rows
    ∧ ∀ l row, rows !! l = Some row →
        ∃ record,
          records !! l = Some record
          ∧ size record = length header
          ∧ ∀ i name, header.*2 !! i = Some name →
              record !! clean name
              = Some (cell_value options (clean (default [] (row.*2 !! i)))).
Proof.
  intros Hs Ht Hh Hr Hw Hgap Hbreaks Hnd Hp.
  set (csv := pre ++ write_table (rule_separator r) gap (header :: rows) ++ post).
  set (a := (λ row : list jsstring, Some <$> row)
              <$> ((λ row : list (bool * jsstring), row.*2) <$> (header :: rows))).
  assert (read_table csv options = inr a) as Hread.
  { unfold read_table. rewrite Hs, Ht. cbn [fmap option_fmap option_map].
    rewrite bool_decide_eq_false_2.
    2:{ pose proof Hw as Hw'. apply Forall_cons in Hw' as [Hrow _].
        pose proof (write_line_length (rule_separator r)
                      (rule_separator_not_quote r)
                      (rule_separator_not_line_break r) header Hrow) as Hlen.
        subst csv. rewrite write_table_cons, !length_app. lia. }
    replace (start_rule [rule_separator r]) with (Some r) by (by destruct r).
    subst csv. by rewrite parse_written. }
  assert (header_keys a
          = inr (clean <$> header.*2,
                 (λ row : list jsstring, Some <$> row)
                   <$> ((λ row : list (bool * jsstring), row.*2) <$> rows)))
    as Hkeys.
  { subst a. rewrite !fmap_cons. unfold header_keys.
    rewrite bool_decide_eq_false_2.
    2:{ apply Forall_cons in Hw as [(Hne & _) _]. rewrite !length_fmap.
        by destruct header. }
    by rewrite mapM_defined, uniquify_distinct. }
  destruct (array_mode_records csv options a _ _ Hh Hr Hread Hkeys Hnd Hp)
    as (header' & records & Ha & Hlen & Hconv & Hrecords & Hsize & Hcells).
  exists records. split; [done|]. split; [by rewrite Hrecords, !length_fmap|].
  intros l row Hl.
  assert (((λ row : list jsstring, Some <$> row)
             <$> ((λ row : list (bool * jsstring), row.*2) <$> rows)) !! l
          = Some (Some <$> row.*2)) as Hl'.
  { by rewrite !list_lookup_fmap, Hl. }
  destruct header as [|[q name0] header]; [by apply Forall_cons in Hw as [(? & _) _]|].
  destruct (Hcells l _ 0 (clean name0) Hl' eq_refl) as (record & Hrecord & _).
  exists record. split; [done|]. split.
  - eapply Forall_forall in Hsize; [|by eapply list_elem_of_lookup_2].
    by rewrite Hsize, !length_fmap.
  - intros i name Hi.
    destruct (Hcells l _ i (clean name) Hl') as (record' & Hrecord' & Hcell).
    { by rewrite list_lookup_fmap, Hi. }
    rewrite Hrecord in Hrecord'. injection Hrecord' as <-.
    rewrite Hcell. do 3 f_equal. rewrite list_lookup_fmap.
    by destruct (row.*2 !! i).
Qed.

(** A header and two rows, the second one short, separated by semicolons. *)
Lemma convert_written_table_witness :
  ∃ records,
    convert (lit "a;b" ++ LF :: lit "1;2" ++ LF :: lit "3")
            (with_separator (Some [SEMICOLON]) no_options)
    = inr (OutArray records)
    ∧ length records = 2
    ∧ ∀ l row,
        [[(false, lit "1"); (false, lit "2")]; [(false, lit "3")]] !! l = Some row →
        ∃ record,
          records !! l = Some record
          ∧ size record = 2
          ∧ ∀ i name, [lit "a"; lit "b"] !! i = Some name →
              record !! clean name
              = Some (cell_value (with_separator (Some [SEMICOLON]) no_options)
                        (clean (default [] (row.*2 !! i)))).
Proof.
  apply (convert_written_table semicolon
           (with_separator (Some [SEMICOLON]) no_options) [] [LF] []
           [(false, lit "a"); (false, lit "b")]
           [[(false, lit "1"); (false, lit "2")]; [(false, lit "3")]]);
    try done.
  - repeat constructor; try done; intros _; split; try done;
      repeat constructor; done.
  - repeat constructor.
  - apply (bool_decide_unpack _). vm_compute. exact I.
  - apply (bool_decide_unpack _). vm_compute. exact I.
Defined.

(** ** The line printed with a syntax error *)

Lemma index_of_spec c from s : ∀ i,
  match index_of c from i s with
  | Some k => ∃ j, k = i + j ∧ s !! j = Some c ∧ from ≤ k
                   ∧ ∀ j', j' < j → from ≤ i + j' → s !! j' ≠ Some c
  | None => ∀ j, from ≤ i + j → s !! j ≠ Some c
  end.
Proof.
  induction s as [|x s IH]; intros i; simpl; [done|].
  destruct (bool_decide (x = c) && bool_decide (from ≤ i)) eqn:E.
  - apply andb_true_iff in E as [Hx Hi].
    apply bool_decide_eq_true in Hx as ->. apply bool_decide_eq_true in Hi.
    exists 0. repeat split; try done; try lia.
  - specialize (IH (S i)). destruct (index_of c from (S i) s) as [k|].
    + destruct IH as (j & -> & Hj & Hk & Hbefore).
      exists (S j). repeat split; try done; try lia.
      intros [|j'] Hlt Hfrom; simpl.
      * intros [= ->]. rewrite bool_decide_eq_true_2 in E by done.
        rewrite bool_decide_eq_true_2 in E by lia. done.
      * apply Hbefore; lia.
    + intros [|j] Hfrom; simpl.
      * intros [= ->]. rewrite bool_decide_eq_true_2 in E by done.
        rewrite bool_decide_eq_true_2 in E by lia. done.
      * apply IH. lia.
Qed.

Lemma last_index_of_spec c from s : ∀ i,
  match last_index_of c from i s with
  | S k => ∃ j, k = i + j ∧ s !! j = Some c ∧ k ≤ from
                ∧ ∀ j', j < j' → i + j' ≤ from → s !! j' ≠ Some c
  | 0 => ∀ j, i + j ≤ from → s !! j ≠ Some c
  end.
Proof.
  induction s as [|x s IH]; intros i; simpl; [done|].
  specialize (IH (S i)). destruct (last_index_of c from (S i) s) as [|k].
  - rewrite bool_decide_eq_false_2 by (intros H; by apply H).
    destruct (bool_decide (x = c) && bool_decide (i ≤ from)) eqn:E.
    + apply andb_true_iff in E as [Hx Hi].
      apply bool_decide_eq_true in Hx as ->. apply bool_decide_eq_true in Hi.
      exists 0. repeat split; try done; try lia.
      intros [|j'] Hlt Hfrom; [lia|]. simpl. apply IH. lia.
    + intros [|j] Hfrom; simpl.
      * intros [= ->]. rewrite bool_decide_eq_true_2 in E by done.
        rewrite bool_decide_eq_true_2 in E by lia. done.
      * apply IH. lia.
  - rewrite bool_decide_eq_true_2 by done.
    destruct IH as (j & -> & Hj & Hk & Hafter).
    exists (S j). repeat split; try done; try lia.
    intros [|j'] Hlt Hfrom; [lia|]. simpl. apply Hafter; lia.
Qed.

(** X14 (convert, the line of a syntax error).  Let the offset of the
    error lie in a line of the text, or at the end of the last line: the
    line holds no line feed, it begins the text or follows a line feed,
    and it ends the text or is followed by a line feed.  The text that is
    put after the message is this line, and before it the line feed that
    precedes it when the line is not the first one.  When the offset is
    that of a line feed, the text put after the message is empty. *)
Theorem source_line_is_the_line :
  (∀ before line after offset,
     (LF ∉ line) →
     (before = [] ∨ last before = Some LF) →
     (after = [] ∨ head after = Some LF) →
     length before ≤ offset →
     (offset < length before + length line
      ∨ (after = [] ∧ offset = length before + length line)) →
     source_line (before ++ line ++ after) offset
     = if bool_decide (before = []) then line else LF :: line)
  ∧ (∀ csv offset, csv !! offset = Some LF → source_line csv offset = []).
Proof.
  split.
  - intros before line after offset Hline Hbefore Hafter Hge Hoffset.
    unfold source_line. set (csv := before ++ line ++ after).
    assert (∀ j, length before ≤ j < length before + length line →
                 csv !! j ≠ Some LF) as Hin.
    { intros j Hj E. subst csv. rewrite lookup_app_r in E by lia.
      rewrite lookup_app_l in E by lia. apply Hline.
      by eapply list_elem_of_lookup_2. }
    assert (∀ j, length before ≤ j ≤ offset → csv !! j ≠ Some LF) as Hin'.
    { intros j Hj E. destruct Hoffset as [Hlt|[-> ->]]; [by apply Hin in E; [|lia]|].
      destruct (decide (j < length before + length line)) as [Hlt|Hnlt];
        [by apply Hin in E; [|lia]|].
      apply lookup_lt_Some in E. subst csv. rewrite !length_app in E.
      simpl in E. lia. }
    assert (default (length csv) (index_of LF offset 0 csv)
            = length before + length line) as ->.
    { pose proof (index_of_spec LF offset csv 0) as H.
      destruct (index_of LF offset 0 csv) as [k|]; simpl.
      - destruct H as (j & -> & Hj & Hk & Hfirst). simpl in *.
        destruct (decide (j < length before + length line)) as [Hlt|Hnlt];
          [by apply Hin in Hj; [|lia]|].
        destruct (decide (j = length before + length line)) as [->|Hne]; [done|].
        exfalso. destruct Hafter as [->|Hhead].
        + apply lookup_lt_Some in Hj. subst csv.
          rewrite !length_app in Hj. simpl in Hj. lia.
        + apply (Hfirst (length before + length line)); [lia|lia|].
          subst csv. rewrite lookup_app_r by lia. rewrite lookup_app_r by lia.
          replace (length before + length line - length before - length line)
            with 0 by lia.
          by destruct after.
      - destruct Hafter as [->|Hhead].
        + subst csv. rewrite !length_app. simpl. lia.
        + exfalso. apply (H (length before + length line)); [lia|].
          subst csv. rewrite lookup_app_r by lia. rewrite lookup_app_r by lia.
          replace (length before + length line - length before - length line)
            with 0 by lia.
          by destruct after. }
    pose proof (last_index_of_spec LF offset csv 0) as H.
    case_bool_decide as Hb.
    + subst before. cbn [length] in *.
      destruct (last_index_of LF offset 0 csv) as [|k].
      * subst csv. cbn [app]. rewrite ?Nat.sub_0_r, ?drop_0.
        apply take_app_length.
      * exfalso. destruct H as (j & -> & Hj & Hk & _).
        by apply Hin' in Hj; [|lia].
    + destruct Hbefore as [->|Hlast]; [done|].
      apply last_Some in Hlast as [front ->]. rewrite length_app in *.
      cbn [length] in *.
      assert (csv !! length front = Some LF) as Hlf.
      { subst csv. rewrite <- !app_assoc. by apply list_lookup_middle. }
      destruct (last_index_of LF offset 0 csv) as [|k].
      * exfalso. apply (H (length front)); [lia|done].
      * destruct H as (j & -> & Hj & Hk & Hlater). cbn [Nat.add] in *.
        assert (j = length front) as ->.
        { destruct (decide (j < length front)) as [Hlt|Hnlt].
          - exfalso. apply (Hlater (length front)); [done|lia|done].
          - destruct (decide (j = length front)) as [|Hne]; [done|].
            exfalso. by apply Hin' in Hj; [|lia]. }
        replace (S (length front) - 1) with (length front) by lia.
        subst csv. rewrite <- !app_assoc.
        rewrite drop_app_length. cbn [app].
        replace (length front + 1 + length line - length front)
          with (S (length line)) by lia.
        cbn [take]. by rewrite take_app_length.
  - intros csv offset Hlf. unfold source_line.
    pose proof (index_of_spec LF offset csv 0) as Hi.
    pose proof (last_index_of_spec LF offset csv 0) as Hl.
    destruct (index_of LF offset 0 csv) as [k|]; [|by apply (Hi offset) in Hlf].
    destruct Hi as (j & -> & Hj & Hk & Hfirst). cbn [Nat.add default] in *.
    destruct (last_index_of LF offset 0 csv) as [|k];
      [by apply (Hl offset) in Hlf|].
    destruct Hl as (j' & -> & Hj' & Hk' & Hlater). cbn [Nat.add] in *.
    assert (j = offset) as ->.
    { destruct (decide (j = offset)) as [|Hne]; [done|].
      exfalso. apply (Hfirst offset); [lia|lia|done]. }
    assert (j' = offset) as ->.
    { destruct (decide (j' = offset)) as [|Hne]; [done|].
      exfalso. apply (Hlater offset); [lia|lia|done]. }
    unfold id. by replace (offset - (S offset - 1)) with 0 by lia.
Qed.

(** The second line of a text of three lines, the offset at its third
    character. *)
Lemma source_line_is_the_line_witness :
  source_line (lit "ab" ++ [LF] ++ lit "cdef" ++ [LF] ++ lit "gh") 5
  = LF :: lit "cdef".
Proof.
  apply (proj1 source_line_is_the_line (lit "ab" ++ [LF]) (lit "cdef")
           ([LF] ++ lit "gh") 5).
  - apply (bool_decide_unpack _). vm_compute. exact I.
  - by right.
  - by right.
  - simpl. lia.
  - left. simpl. lia.
Defined.

(** ** What cleaning removes *)

Lemma trim_start_split s :
  ∃ ws, s = ws ++ trim_start s
        ∧ Forall (λ c, is_space c = true) ws
        ∧ ∀ c, head (trim_start s) = Some c → is_space c = false.
Proof.
  induction s as [|c s (ws & Hs & Hws & Hhead)]; [by exists []|].
  simpl. destruct (is_space c) eqn:Hc.
  - exists (c :: ws). split; [by rewrite Hs at 1|]. split; [by constructor|done].
  - exists []. split; [done|]. split; [done|]. by intros ? [= <-].
Qed.

Lemma trim_split s :
  ∃ a b, s = a ++ trim s ++ b
         ∧ Forall (λ c, is_space c = true) a
         ∧ Forall (λ c, is_space c = true) b
         ∧ (∀ c, head (trim s) = Some c → is_space c = false)
         ∧ (∀ c, last (trim s) = Some c → is_space c = false).
Proof.
  destruct (trim_start_split s) as (a & Hs & Ha & Hhead).
  destruct (trim_start_split (rev (trim_start s))) as (b & Hr & Hb & Hlast).
  assert (trim_start s = trim s ++ rev b) as Ht.
  { unfold trim. rewrite <- rev_app_distr, <- Hr. by rewrite rev_involutive. }
  exists a, (rev b). split; [by rewrite <- Ht|]. split; [done|].
  split; [by apply Forall_rev|]. split.
  - intros c Hc. apply Hhead. rewrite Ht. by destruct (trim s).
  - intros c Hc. apply Hlast. unfold trim in Hc.
    destruct (trim_start (rev (trim_start s))) as [|x l]; [done|].
    simpl in Hc. by rewrite last_snoc in Hc.
Qed.

Lemma strip_first_quote_split s :
  ∃ q, s = q ++ strip_first_quote s ∧ (q = [] ∨ q = [QUOTE]).
Proof.
  destruct s as [|c s]; [exists []; eauto|]. simpl. case_bool_decide as Hc.
  - subst c. exists [QUOTE]. eauto.
  - exists []. eauto.
Qed.

Lemma strip_last_quote_split s :
  ∃ q, s = strip_last_quote s ++ q ∧ (q = [] ∨ q = [QUOTE]).
Proof.
  induction s as [|c s (q & Hs & Hq)]; [exists []; eauto|].
  destruct s as [|d s].
  - simpl. case_bool_decide as Hc.
    + subst c. exists [QUOTE]. eauto.
    + exists []. eauto.
  - exists q. split; [|done].
    change (strip_last_quote (c :: d :: s)) with (c :: strip_last_quote (d :: s)).
    rewrite <- app_comm_cons. by f_equal.
Qed.

(** X15 (convert, cleaning a header or a cell).  Cleaning removes white
    space at the two ends and then at most one double quote at each end,
    and nothing else: the text is the cleaned text with these around it,
    so white space and quotes inside a cell stay as they are.  What the
    removed white space surrounds begins and ends with a character that
    is no white space. *)
Theorem clean_keeps_the_inside s :
  ∃ a q1 q2 b,
    s = a ++ q1 ++ clean s ++ q2 ++ b
    ∧ trim s = q1 ++ clean s ++ q2
    ∧ Forall (λ c, is_space c = true) a
    ∧ Forall (λ c, is_space c = true) b
    ∧ (q1 = [] ∨ q1 = [QUOTE]) ∧ (q2 = [] ∨ q2 = [QUOTE])
    ∧ (∀ c, head (trim s) = Some c → is_space c = false)
    ∧ (∀ c, last (trim s) = Some c → is_space c = false).
Proof.
  destruct (trim_split s) as (a & b & Hs & Ha & Hb & Hhead & Hlast).
  destruct (strip_first_quote_split (trim s)) as (q1 & H1 & Hq1).
  destruct (strip_last_quote_split (strip_first_quote (trim s))) as (q2 & H2 & Hq2).
  assert (trim s = q1 ++ clean s ++ q2) as Ht.
  { unfold clean. rewrite strip_quotes_ends. by rewrite <- H2. }
  exists a, q1, q2, b. repeat split; try done.
  rewrite Hs at 1. rewrite Ht. by rewrite <- !app_assoc.
Qed.

(** ** A text without quotes is split at line breaks and separators *)

Lemma split_on_nonempty p s : split_on p s ≠ [].
Proof.
  destruct s as [|c s]; [done|]. simpl. destruct (p c); [done|].
  by destruct (split_on p s).
Qed.

Lemma split_on_app p line rest :
  Forall (λ c, p c = false) line →
  split_on p (line ++ rest)
  = match split_on p rest with
    | piece :: pieces => (line ++ piece) :: pieces
    | [] => [line]
    end.
Proof.
  induction line as [|c line IH]; intros H.
  - simpl. pose proof (split_on_nonempty p rest). by destruct (split_on p rest).
  - apply Forall_cons in H as [Hc H]. simpl. rewrite Hc, (IH H).
    by destruct (split_on p rest).
Qed.

Lemma split_on_pieces p s :
  Forall (Forall (λ c, p c = false ∧ c ∈ s)) (split_on p s).
Proof.
  induction s as [|c s IH]; [by repeat constructor|].
  assert (Forall (Forall (λ x, p x = false ∧ x ∈ c :: s)) (split_on p s)) as IH'.
  { eapply Forall_impl; [exact IH|]. intros piece Hpiece.
    eapply Forall_impl; [exact Hpiece|]. intros x [? ?]. split; [done|by right]. }
  simpl. destruct (p c) eqn:Hc; [by constructor|].
  destruct (split_on p s) as [|piece pieces];
    [constructor; [|done]; constructor; [|done]; split; [done|by left]|].
  apply Forall_cons in IH' as [Hpiece Hpieces].
  constructor; [|done]. constructor; [|done]. split; [done|by left].
Qed.

Lemma join_split separator s :
  join [separator] (split_on (λ c, bool_decide (c = separator)) s) = s.
Proof.
  induction s as [|c s IH]; [done|]. simpl.
  pose proof (split_on_nonempty (λ c, bool_decide (c = separator)) s) as Hne.
  destruct (split_on _ s) as [|piece pieces]; [done|].
  rewrite join_cons in IH. case_bool_decide as Hc.
  - subst c. rewrite join_cons. simpl. simpl in IH. f_equal. exact IH.
  - rewrite join_cons. simpl. simpl in IH. f_equal. exact IH.
Qed.

Lemma span_breaks s :
  ∃ run tail, s = run ++ tail
              ∧ Forall (λ c, is_line_break c = true) run ∧ starts_line tail.
Proof.
  induction s as [|c s (run & tail & -> & Hrun & Htail)]; [by exists [], []|].
  destruct (is_line_break c) eqn:Hc.
  - exists (c :: run), tail. split; [done|]. split; [by constructor|done].
  - by exists [], (c :: run ++ tail).
Qed.

Lemma span_line s :
  ∃ line tail, s = line ++ tail
               ∧ Forall (λ c, is_line_break c = false) line ∧ ends_line tail.
Proof.
  induction s as [|c s (line & tail & -> & Hline & Htail)]; [by exists [], []|].
  destruct (is_line_break c) eqn:Hc.
  - by exists [], (c :: line ++ tail).
  - exists (c :: line), tail. split; [done|]. split; [by constructor|done].
Qed.

Lemma lines_breaks run x :
  Forall (λ c, is_line_break c = true) run →
  filter (λ l, l ≠ []) (split_on is_line_break (run ++ x))
  = filter (λ l, l ≠ []) (split_on is_line_break x).
Proof.
  induction run as [|c run IH]; intros H; [done|].
  apply Forall_cons in H as [Hc H]. simpl. rewrite Hc.
  rewrite filter_cons_False by (intros Hne; by apply Hne). by apply IH.
Qed.

Lemma lines_line line rest :
  Forall (λ c, is_line_break c = false) line → line ≠ [] → ends_line rest →
  filter (λ l, l ≠ []) (split_on is_line_break (line ++ rest))
  = line :: filter (λ l, l ≠ []) (split_on is_line_break rest).
Proof.
  intros Hline Hne Hrest. rewrite split_on_app by done.
  destruct rest as [|c rest].
  - simpl. rewrite app_nil_r, filter_cons_True by done. done.
  - simpl in Hrest. simpl. rewrite Hrest, app_nil_r.
    rewrite filter_cons_True by done.
    by rewrite filter_cons_False by (intros H; by apply H).
Qed.

Lemma line_writable separator line :
  (QUOTE ∉ line) → Forall (λ c, is_line_break c = false) line → line ≠ [] →
  let row := (λ f, (false, f)) <$> split_on (λ c, bool_decide (c = separator)) line in
  writable_row separator row
  ∧ write_line separator row = line
  ∧ row.*2 = split_on (λ c, bool_decide (c = separator)) line.
Proof.
  intros Hq Hline Hne row.
  assert (row.*2 = split_on (λ c, bool_decide (c = separator)) line) as Hrow.
  { subst row. rewrite <- list_fmap_compose. apply list_fmap_id. }
  assert (write_line separator row = line) as Hwrite.
  { unfold write_line. subst row. rewrite <- list_fmap_compose.
    etrans; [|apply (join_split separator line)]. f_equal. apply list_fmap_id. }
  split; [|done]. split; [|split].
  - subst row. by destruct (split_on _ line).
  - subst row. apply Forall_fmap.
    eapply Forall_impl; [apply split_on_pieces|].
    intros piece Hpiece _. simpl. split.
    + destruct piece as [|c piece]; [done|].
      apply Forall_cons in Hpiece as [[_ Hc] _]. intros [= ->]. done.
    + eapply Forall_impl; [exact Hpiece|]. intros c [Hc Hin]. split.
      * eapply Forall_forall in Hline; [exact Hline|done].
      * by apply bool_decide_eq_false in Hc.
  - rewrite Hrow. intros H. pose proof (join_split separator line) as Hj.
    rewrite H in Hj. apply Hne. by rewrite <- Hj.
Qed.

Lemma rows_of_lines separator : ∀ n text,
  length text ≤ n → (QUOTE ∉ text) → ends_line text →
  ∃ rows post,
    text = write_rows separator rows ++ post
    ∧ Forall (λ gr, gr.1 ≠ [] ∧ Forall (λ c, is_line_break c = true) gr.1
                    ∧ writable_row separator gr.2) rows
    ∧ Forall (λ c, is_line_break c = true) post
    ∧ (λ gr, gr.2.*2) <$> rows = split_table separator text.
Proof.
  induction n as [|n IH]; intros text Hn Hq Hends.
  { destruct text; [|simpl in Hn; lia]. by exists [], []. }
  destruct (span_breaks text) as (gap & t & -> & Hgap & Ht).
  destruct t as [|c t].
  { exists [], gap. rewrite app_nil_r. repeat split; try done.
    unfold split_table. rewrite <- (app_nil_r gap), lines_breaks by done. done. }
  destruct gap as [|g gap]; [simpl in *; congruence|].
  destruct (span_line (c :: t)) as (line & rest & Hsplit & Hline & Hrest).
  assert (line ≠ []) as Hne.
  { intros ->. simpl in Hsplit. subst rest. simpl in *. congruence. }
  rewrite Hsplit in *. clear Hsplit Ht.
  destruct (IH rest) as (rows & post & Hrows & Hw & Hpost & Htable); [| |done|].
  { rewrite !length_app in Hn. simpl in Hn. destruct line; [done|]. simpl in Hn. lia. }
  { intros H. apply Hq. apply elem_of_app. right. apply elem_of_app. by right. }
  destruct (line_writable separator line) as (Hrow & Hwrite & Hfields); [|done|done|].
  { intros H. apply Hq. apply elem_of_app. right. apply elem_of_app. by left. }
  exists ((g :: gap,
           (λ f, (false, f)) <$> split_on (λ c, bool_decide (c = separator)) line)
          :: rows), post.
  split; [|split; [|split]].
  - change (write_rows separator (?gr :: rows))
      with ((gr.1 ++ write_line separator gr.2) ++ write_rows separator rows).
    cbn [fst snd]. rewrite Hwrite, <- !app_assoc. do 2 f_equal. exact Hrows.
  - constructor; [|done]. cbn [fst snd]. split; [done|]. split; [exact Hgap|exact Hrow].
  - done.
  - rewrite fmap_cons. cbn [snd]. rewrite Hfields, Htable. unfold split_table.
    by rewrite lines_breaks, lines_line by done.
Qed.

(** X16 (the grammar without quotes).  A text that holds no double quote
    is read as it is split: at the line breaks into lines, the empty lines
    left out, and every line at the separator into fields, empty fields
    included.  It is a syntax error exactly when no line is left, that
    is, when the text holds nothing but line breaks. *)
Theorem parse_without_quotes_splits input r :
  (QUOTE ∉ input) →
  (split_table (rule_separator r) input ≠ [] →
   parse input r = Parsed (split_table (rule_separator r) input))
  ∧ (split_table (rule_separator r) input = [] →
     Forall (λ c, is_line_break c = true) input
     ∧ ∃ e, parse input r = Rejected e).
Proof.
  intros Hq.
  destruct (span_breaks input) as (pre & t & -> & Hpre & Ht).
  destruct t as [|c t].
  - rewrite app_nil_r in *.
    assert (split_table (rule_separator r) pre = []) as Hempty.
    { unfold split_table. rewrite <- (app_nil_r pre), lines_breaks by done. done. }
    split; [done|]. intros _. split; [done|].
    unfold parse, parse_sv.
    destruct (star_line_breaks pre (S (length pre)) (PState (Cursor 0 pre) 0 []) [])
      as (st1 & E1 & Hcur1); [by rewrite app_nil_r|done|done|lia|].
    rewrite E1. simpl.
    destruct (parse_line_at_end (rule_separator r) (length pre) st1)
      as (st2 & E2 & Hcur2); [by rewrite Hcur1|].
    rewrite E2. simpl. eauto.
  - destruct (span_line (c :: t)) as (line & rest & Hsplit & Hline & Hrest).
    assert (line ≠ []) as Hne.
    { intros ->. simpl in Hsplit. subst rest. simpl in *. congruence. }
    rewrite Hsplit in *. clear Hsplit Ht.
    destruct (rows_of_lines (rule_separator r) (length rest) rest)
      as (rows & post & Hrows & Hw & Hpost & Htable); [done| |done|].
    { intros H. apply Hq. apply elem_of_app. right. apply elem_of_app. by right. }
    destruct (line_writable (rule_separator r) line) as (Hrow & Hwrite & Hfields);
      [|done|done|].
    { intros H. apply Hq. apply elem_of_app. right. apply elem_of_app. by left. }
    assert (split_table (rule_separator r) (pre ++ line ++ rest)
            = split_on (λ c, bool_decide (c = rule_separator r)) line
              :: split_table (rule_separator r) rest) as Hsplit.
    { unfold split_table. by rewrite lines_breaks, lines_line by done. }
    rewrite Hsplit. split; [|done]. intros _.
    rewrite <- Hwrite at 1. rewrite Hrows.
    rewrite parse_rows_written by done. by rewrite Hfields, <- Hrows, Htable.
Qed.

(** Three lines, the second one empty, the third with an empty field. *)
Lemma parse_without_quotes_splits_witness :
  parse (lit "a;b" ++ [CR; LF; LF] ++ lit ";c") semicolon
  = Parsed [[lit "a"; lit "b"]; [[]; lit "c"]].
Proof.
  apply (proj1 (parse_without_quotes_splits
                  (lit "a;b" ++ [CR; LF; LF] ++ lit ";c") semicolon
                  ltac:(apply (bool_decide_unpack _); vm_compute; exact I))).
  by vm_compute.
Defined.

